(** * Story: the book pagination engine, the spread navigator and the
      character merge, embedded from [src/components/BookLayout.tsx] and
      [src/App.tsx]; then the generation service of
      [src/services/geminiService.ts] (retry with backoff, the batches of a
      long story, the ids of the nodes) and the handlers of [src/App.tsx]
      over the game state (start, choice, save, load, ranks, loading bar).

    JavaScript strings are sequences of UTF-16 code units; they are modelled
    as lists of code units so that every primitive used by the source
    ([trim], [split], [indexOf], [startsWith], [replace], [join], the two
    regular expressions) is a plain list function. *)

From Stdlib Require Import NArith ZArith Ascii String DecimalString DecimalNat
  DecimalFacts Lia.
From Stdlib Require QArith Qminmax Qround.
From stdpp Require Import base option numbers list.

Local Open Scope N_scope.
Local Open Scope nat_scope.

(** ** JavaScript string primitives *)

Module JS.

Definition jschar := N.
Definition jsstring := list jschar.

(** A literal of the source, as code units. *)
Definition str (s : string) : jsstring := map N_of_ascii (list_ascii_of_string s).

Definition LF : jschar := 10%N.
Definition SP : jschar := 32%N.
Definition HASH : jschar := 35%N.
Definition DQUOTE : jschar := 34%N.

(** [\s] of a regular expression and the characters [trim] removes:
    WhiteSpace and LineTerminator of ECMAScript. *)
Definition isSpace (c : jschar) : bool :=
  ((9 <=? c) && (c <=? 13))%N
  || (c =? 32)%N || (c =? 160)%N || (c =? 5760)%N
  || ((8192 <=? c) && (c <=? 8202))%N
  || (c =? 8232)%N || (c =? 8233)%N || (c =? 8239)%N || (c =? 8287)%N
  || (c =? 12288)%N || (c =? 65279)%N.

Fixpoint dropSpaces (s : jsstring) : jsstring :=
  match s with
  | c :: s' => if isSpace c then dropSpaces s' else s
  | [] => []
  end.

(** [s.trim()] *)
Definition trim (s : jsstring) : jsstring :=
  reverse (dropSpaces (reverse (dropSpaces s))).

(** [s.indexOf(c)] for a one-character needle; [None] is [-1]. *)
Fixpoint indexOf (c : jschar) (s : jsstring) : option nat :=
  match s with
  | [] => None
  | d :: s' => if (d =? c)%N then Some 0 else S <$> indexOf c s'
  end.

(** [s.startsWith(p)] *)
Fixpoint startsWith (p s : jsstring) : bool :=
  match p, s with
  | [], _ => true
  | a :: p', b :: s' => (a =? b)%N && startsWith p' s'
  | _ :: _, [] => false
  end.

(** [s.split(' ')]: always at least one token; adjacent spaces give empty
    tokens. *)
Fixpoint splitSpace (s : jsstring) : list jsstring :=
  match s with
  | [] => [[]]
  | c :: s' =>
      if (c =? SP)%N then [] :: splitSpace s'
      else match splitSpace s' with
           | w :: ws => (c :: w) :: ws
           | [] => [[c]]
           end
  end.

(** [a.join(' ')] *)
Fixpoint joinSpace (ws : list jsstring) : jsstring :=
  match ws with
  | [] => []
  | [w] => w
  | w :: ws' => w ++ SP :: joinSpace ws'
  end.

Fixpoint dropHashes (s : jsstring) : jsstring :=
  match s with
  | c :: s' => if (c =? HASH)%N then dropHashes s' else s
  | [] => []
  end.

(** [s.replace(/^#+\s*/, '')]: both quantifiers are greedy and nothing
    follows them, so the match is the longest run of [#] at the start and the
    longest run of white space after it. *)
Definition stripHashes (s : jsstring) : jsstring :=
  if startsWith [HASH] s then dropSpaces (dropHashes s) else s.

(** The head of [s] matches [\n##\s]: the start of a chapter marker. *)
Definition markerAt (s : jsstring) : bool :=
  match s with
  | a :: b :: c :: w :: _ =>
      (a =? LF)%N && (b =? HASH)%N && (c =? HASH)%N && isSpace w
  | _ => false
  end.

(** [s.split(/\n##\s+/)].  The scan goes from left to right; [cur] holds the
    piece being collected, in reverse.  [inSep] is true while the white space
    of a separator is still being consumed: [\s+] is greedy, so it takes every
    white-space character (line feeds too) that follows [\n##]. *)
Fixpoint splitMarkersFrom (inSep : bool) (cur : jsstring) (s : jsstring)
  : list jsstring :=
  match s with
  | [] => [reverse cur]
  | c :: s' =>
      if inSep && isSpace c then splitMarkersFrom true cur s'
      else if markerAt s then
        match s' with
        | _ :: _ :: _ :: s4 => reverse cur :: splitMarkersFrom true [] s4
        | _ => [reverse cur]
        end
      else splitMarkersFrom false (c :: cur) s'
  end.

Definition splitMarkers (s : jsstring) : list jsstring :=
  splitMarkersFrom false [] s.

Definition isSentenceEnd (c : jschar) : bool :=
  (c =? 46)%N || (c =? 33)%N || (c =? 63)%N.

(** The test [w.match(re)] of the packing loop, where [re] is the class of
    [.], [!] and [?], then an optional double quote, then the end of input:
    [w] ends in one of the three, possibly followed by one double quote. *)
Definition endsSentence (w : jsstring) : bool :=
  match reverse w with
  | c :: r =>
      isSentenceEnd c
      || ((c =? DQUOTE)%N && match r with d :: _ => isSentenceEnd d | [] => false end)
  | [] => false
  end.

(** Source text of several lines: the lines joined by line feeds. *)
Fixpoint lines (ls : list string) : jsstring :=
  match ls with
  | [] => []
  | [l] => str l
  | l :: ls' => str l ++ LF :: lines ls'
  end.

(** A number inside a template literal. *)
Definition ofNat (n : nat) : jsstring := str (NilZero.string_of_uint (Nat.to_uint n)).

End JS.
Import JS.

(** ** Data model ([src/types.ts], [BookLayout.tsx]) *)

Inductive Tone := brave | cautious | witty | romantic | aggressive | neutral.

Record Choice := { choiceId : jsstring; choiceText : jsstring; tone : Tone }.

Inductive GameMode := INTERACTIVE | LINEAR.

Definition isInteractive (m : GameMode) : bool :=
  match m with INTERACTIVE => true | LINEAR => false end.

(** The fields of [StoryNode] the layout reads. *)
Record StoryNode := {
  nodeId : jsstring;
  nodeChapterTitle : jsstring;
  nodeContent : jsstring;
  nodeChoices : list Choice;
  backgroundImagePrompt : option jsstring
}.

Inductive PageType := TEXT | IMAGE_AND_TEXT | FULL_IMAGE.

(** [BookPage]; an optional property that is left out or set to [undefined]
    is [None]. *)
Record BookPage := {
  id : jsstring;
  type : PageType;
  content : jsstring;
  imagePrompt : option jsstring;
  choices : option (list Choice);
  pageNumber : nat;
  chapterTitle : option jsstring;
  isChapterStart : option bool
}.

Definition WORDS_PER_PAGE : nat := 130.

(** A string used as a condition: the empty string is falsy. *)
Definition truthy (s : jsstring) : bool :=
  match s with [] => false | _ :: _ => true end.

Definition truthyOpt (o : option jsstring) : bool :=
  match o with Some s => truthy s | None => false end.

(** ** ChapterSplitter: the [sections] of one node *)

Record ChapterSection := {
  title : jsstring;
  body : jsstring;
  isNewChapter : bool
}.

(** The callback of [rawSections.map]; [None] is the [null] it returns for an
    empty first piece. *)
Definition toSection (node : StoryNode) (idx : nat) (sectionText : jsstring)
  : option ChapterSection :=
  if (idx =? 0) && negb (truthy (trim sectionText)) then None
  else
    let firstNewLine := indexOf LF sectionText in
    let '(title, body, isNewChapter) :=
      if (0 <? idx)
         || ((idx =? 0) && startsWith (str "##") (trim (nodeContent node)))
      then
        match firstNewLine with
        | Some k => (trim (take k sectionText), trim (drop k sectionText), true)
        | None => (trim sectionText, [], true)
        end
      else (nodeChapterTitle node, sectionText, false) in
    Some {| title := stripHashes title; body := body;
            isNewChapter := isNewChapter |}.

(** The predicate of [.filter]: the [null]s are gone after [omap]. *)
Definition keepSection (s : ChapterSection) : bool :=
  (0 <? length (body s)) || isNewChapter s.

Definition rawSections (node : StoryNode) : list jsstring :=
  splitMarkers (LF :: nodeContent node).

Definition sections (node : StoryNode) : list ChapterSection :=
  filter (fun s => keepSection s = true)
         (omap (fun s => s) (imap (toSection node) (rawSections node))).

Definition mkNode (i t c : jsstring) (ch : list Choice) (img : option jsstring)
  : StoryNode :=
  {| nodeId := i; nodeChapterTitle := t; nodeContent := c; nodeChoices := ch;
     backgroundImagePrompt := img |}.

(** ** Paginator: the [pages] memo of [BookLayout] *)

(** The two variables of the closure: [generatedPages] and
    [globalPageCount]. *)
Record PagState := {
  generatedPages : list BookPage;
  globalPageCount : nat
}.

(** [generatedPages.push({..., pageNumber: globalPageCount++, ...})]: the page
    is built from the current counter, which is then incremented. *)
Definition push (mk : nat -> BookPage) (st : PagState) : PagState :=
  {| generatedPages := generatedPages st ++ [mk (globalPageCount st)];
     globalPageCount := S (globalPageCount st) |}.

Definition visualPage (node : StoryNode) (prompt : option jsstring) (n : nat)
  : BookPage :=
  {| id := nodeId node ++ str "-visual";
     type := FULL_IMAGE;
     content := [];
     imagePrompt := prompt;
     choices := None;
     pageNumber := n;
     chapterTitle := Some (nodeChapterTitle node);
     isChapterStart := None |}.

(** The page pushed inside the [for] loop. *)
Definition closedPage (node : StoryNode) (section : ChapterSection) (sIdx : nat)
    (currentChunk : list jsstring) (isFirstPageOfSection : bool) (n : nat)
  : BookPage :=
  {| id := nodeId node ++ str "-sec" ++ ofNat sIdx ++ str "-pg" ++ ofNat n;
     type := TEXT;
     content := joinSpace currentChunk;
     imagePrompt := None;
     choices := None;
     pageNumber := n;
     chapterTitle := Some (title section);
     isChapterStart := Some (isFirstPageOfSection && isNewChapter section) |}.

(** The page pushed after the [for] loop. *)
Definition endPage (node : StoryNode) (section : ChapterSection) (sIdx : nat)
    (isLastSection : bool)
    (currentChunk : list jsstring) (isFirstPageOfSection : bool) (n : nat)
  : BookPage :=
  {| id := nodeId node ++ str "-sec" ++ ofNat sIdx ++ str "-end";
     type := TEXT;
     content := joinSpace currentChunk;
     imagePrompt := None;
     choices := if isLastSection then Some (nodeChoices node) else None;
     pageNumber := n;
     chapterTitle := Some (title section);
     isChapterStart := Some (isFirstPageOfSection && isNewChapter section) |}.

Definition fillerPage (n : nat) : BookPage :=
  {| id := str "filler-end";
     type := TEXT;
     content := [];
     imagePrompt := None;
     choices := None;
     pageNumber := n;
     chapterTitle := Some [];
     isChapterStart := None |}.

(** The variables of one [sections.forEach] callback. *)
Record LoopState := {
  currentChunk : list jsstring;
  isFirstPageOfSection : bool;
  pag : PagState
}.

Definition limitOf (isFirst : bool) (section : ChapterSection) : nat :=
  if isFirst && isNewChapter section then WORDS_PER_PAGE - 50 else WORDS_PER_PAGE.

(** One iteration of [for (let i = 0; i < words.length; i++)]. *)
Definition loopBody (node : StoryNode) (section : ChapterSection) (sIdx : nat)
    (ls : LoopState) (word : jsstring) : LoopState :=
  let chunk := currentChunk ls ++ [word] in
  let limit := limitOf (isFirstPageOfSection ls) section in
  if (limit <=? length chunk)
     && (endsSentence word || (limit + 20 <? length chunk))
  then {| currentChunk := [];
          isFirstPageOfSection := false;
          pag := push (closedPage node section sIdx chunk (isFirstPageOfSection ls))
                      (pag ls) |}
  else {| currentChunk := chunk;
          isFirstPageOfSection := isFirstPageOfSection ls;
          pag := pag ls |}.

(** The callback of [sections.forEach((section, sIdx) => ...)];
    [nSections] is [sections.length]. *)
Definition packSection (node : StoryNode) (nSections : nat)
    (st : PagState) (section : ChapterSection) (sIdx : nat) : PagState :=
  let words := splitSpace (body section) in
  let ls := foldl (loopBody node section sIdx)
                  {| currentChunk := []; isFirstPageOfSection := true; pag := st |}
                  words in
  if (0 <? length (currentChunk ls))
     || (isFirstPageOfSection ls && isNewChapter section)
  then
    let isLastSection := sIdx =? nSections - 1 in
    push (endPage node section sIdx isLastSection (currentChunk ls)
                  (isFirstPageOfSection ls))
         (pag ls)
  else pag ls.

(** [l.forEach((x, i) => ...)] with the state the callback updates passed
    along. *)
Fixpoint forEachFrom {A St : Type} (f : St -> A -> nat -> St) (i : nat)
    (l : list A) (st : St) : St :=
  match l with
  | [] => st
  | x :: l' => forEachFrom f (S i) l' (f st x i)
  end.

Definition forEach {A St : Type} (f : St -> A -> nat -> St) (l : list A)
    (st : St) : St :=
  forEachFrom f 0 l st.

(** The callback of [effectiveHistory.forEach((node, nodeIndex) => ...)]. *)
Definition processNode (gameMode : GameMode) (st : PagState) (node : StoryNode)
    (nodeIndex : nat) : PagState :=
  let st1 :=
    if truthyOpt (backgroundImagePrompt node)
       && ((nodeIndex =? 0) || isInteractive gameMode)
    then push (visualPage node (backgroundImagePrompt node)) st
    else st in
  let secs := sections node in
  forEach (packSection node (length secs)) secs st1.

Definition effectiveHistory (currentNode : StoryNode) (storyHistory : list StoryNode)
  : list StoryNode :=
  if 0 <? length storyHistory then storyHistory else [currentNode].

Definition initialState : PagState :=
  {| generatedPages := []; globalPageCount := 1 |}.

(** The state after [effectiveHistory.forEach], before the parity padding. *)
Definition generated (gameMode : GameMode) (history : list StoryNode) : PagState :=
  forEach (processNode gameMode) history initialState.

(** The final [if (generatedPages.length % 2 !== 0)]. *)
Definition padEven (st : PagState) : PagState :=
  if negb (length (generatedPages st) mod 2 =? 0) then push fillerPage st else st.

(** The value of the memo over an effective history. *)
Definition paginate (gameMode : GameMode) (history : list StoryNode)
  : list BookPage :=
  generatedPages (padEven (generated gameMode history)).

(** [pages], as the component computes it from its props. *)
Definition pages (gameMode : GameMode) (currentNode : StoryNode)
    (storyHistory : list StoryNode) : list BookPage :=
  paginate gameMode (effectiveHistory currentNode storyHistory).

Definition aChoice (i : string) : Choice :=
  {| choiceId := str i; choiceText := str i; tone := neutral |}.

(** ** SpreadNavigator: [handleNextFlip], [handlePrevFlip], [jumpToPage] *)

Module Navigator.

(** [currentPageIndex] after [handleNextFlip], for [pages.length = pagesLength]. *)
Definition handleNextFlip (pagesLength currentPageIndex : Z) : Z :=
  if (currentPageIndex <? pagesLength - 2)%Z then (currentPageIndex + 2)%Z
  else currentPageIndex.

Definition handlePrevFlip (currentPageIndex : Z) : Z :=
  if (currentPageIndex >? 0)%Z then (currentPageIndex - 2)%Z
  else currentPageIndex.

Definition jumpToPage (index : Z) : Z :=
  if (index mod 2 =? 0)%Z then index else (index - 1)%Z.

End Navigator.
Import Navigator.

(** ** Character merge: [updateCharacters] of [App.tsx] *)

Module Characters.

(** A property of an object of type [Partial<Character>]: left out, present
    with the value [undefined], or present with a value. *)
Inductive Field (A : Type) := Absent | Undefined | Value (a : A).
Arguments Absent {A}.
Arguments Undefined {A}.
Arguments Value {A} a.

(** Reading the property: [None] is [undefined]. *)
Definition get {A : Type} (f : Field A) : option A :=
  match f with Value a => Some a | _ => None end.

(** The objects of the collection and of the update list. *)
Record Character := {
  name : Field jsstring;
  role : Field jsstring;
  affinity : Field Z;
  status : Field jsstring;
  description : Field jsstring
}.

(** One property of [{ ...a, ...b }]: an own property of [b] wins, also when
    its value is [undefined]. *)
Definition over {A : Type} (a b : Field A) : Field A :=
  match b with Absent => a | _ => b end.

(** [{ ...c, ...update }] *)
Definition spread (c update : Character) : Character :=
  {| name := over (name c) (name update);
     role := over (role c) (role update);
     affinity := over (affinity c) (affinity update);
     status := over (status c) (status update);
     description := over (description c) (description update) |}.

(** [c.name === update.name] *)
Definition sameName (update c : Character) : bool :=
  bool_decide (get (name c) = get (name update)).

(** [l.findIndex(p)]; [None] is [-1]. *)
Fixpoint findIndex {A : Type} (p : A -> bool) (l : list A) : option nat :=
  match l with
  | [] => None
  | x :: l' => if p x then Some 0 else S <$> findIndex p l'
  end.

(** [update.name && update.role && update.affinity !== undefined] *)
Definition canCreate (update : Character) : bool :=
  truthyOpt (get (name update)) && truthyOpt (get (role update))
  && bool_decide (get (affinity update) <> None).

(** The callback of [updates.forEach]. *)
Definition applyUpdate (newChars : list Character) (update : Character)
  : list Character :=
  match findIndex (sameName update) newChars with
  | Some existingIndex =>
      match newChars !! existingIndex with
      | Some c => <[existingIndex := spread c update]> newChars
      | None => newChars
      end
  | None => if canCreate update then newChars ++ [update] else newChars
  end.

Definition updateCharacters (currentChars updates : list Character)
  : list Character :=
  foldl applyUpdate currentChars updates.

End Characters.
Import Characters.

Definition aCharacter (n r : string) (a : Z) : Character :=
  {| name := Value (str n); role := Value (str r); affinity := Value a;
     status := Value (str "ok"); description := Value (str "-") |}.

(** ** Views of the paginator used by the statements *)

(** The buffers of the packing loop alone: the chunks closed inside the
    [for] loop, then the buffer and the flag left when it ends. *)
Fixpoint chunker (section : ChapterSection) (isFirst : bool)
    (chunk words : list jsstring)
  : list (list jsstring) * (list jsstring * bool) :=
  match words with
  | [] => ([], (chunk, isFirst))
  | word :: rest =>
      let chunk' := chunk ++ [word] in
      let limit := limitOf isFirst section in
      if (limit <=? length chunk')
         && (endsSentence word || (limit + 20 <? length chunk'))
      then
        let r := chunker section false [] rest in
        (chunk' :: r.1, r.2)
      else chunker section isFirst chunk' rest
  end.

Definition closedChunks (section : ChapterSection) : list (list jsstring) :=
  (chunker section true [] (splitSpace (body section))).1.

Definition leftover (section : ChapterSection) : list jsstring :=
  (chunker section true [] (splitSpace (body section))).2.1.

(** The pages of the closed chunks, numbered from [n]. *)
Fixpoint closedPages (node : StoryNode) (section : ChapterSection) (sIdx : nat)
    (isFirst : bool) (n : nat) (chunks : list (list jsstring)) : list BookPage :=
  match chunks with
  | [] => []
  | c :: cs =>
      closedPage node section sIdx c isFirst n
      :: closedPages node section sIdx false (S n) cs
  end.

(** The budget of the [i]-th page of a section. *)
Definition budget (section : ChapterSection) (i : nat) : nat :=
  if isNewChapter section && (i =? 0) then WORDS_PER_PAGE - 50 else WORDS_PER_PAGE.

(** A buffer that has reached the budget [b] and may close: its last token
    ends a sentence, or it overran the budget by more than 20 tokens. *)
Definition closes (b : nat) (c : list jsstring) : Prop :=
  b <= length c
  /\ (endsSentence (default [] (last c)) = true \/ b + 20 < length c).

(** The pages one section adds when the counter is [n]. *)
Definition sectionPages (node : StoryNode) (nSections : nat)
    (section : ChapterSection) (sIdx n : nat) : list BookPage :=
  generatedPages
    (packSection node nSections {| generatedPages := []; globalPageCount := n |}
                 section sIdx).

(** The pages one node adds when the counter is [n]. *)
Definition nodePages (gameMode : GameMode) (node : StoryNode) (nodeIndex n : nat)
  : list BookPage :=
  generatedPages
    (processNode gameMode {| generatedPages := []; globalPageCount := n |}
                 node nodeIndex).

(** The pages of each node of a history, in order: the node at position [i]
    of [history] has index [nodeIndex + i] and starts at the counter reached
    after the pages of the nodes before it. *)
Fixpoint fragmentsFrom (gameMode : GameMode) (nodeIndex n : nat)
    (history : list StoryNode) : list (list BookPage) :=
  match history with
  | [] => []
  | node :: history' =>
      let ps := nodePages gameMode node nodeIndex n in
      ps :: fragmentsFrom gameMode (S nodeIndex) (n + length ps) history'
  end.

Definition fragments (gameMode : GameMode) (history : list StoryNode)
  : list (list BookPage) :=
  fragmentsFrom gameMode 0 1 history.

Definition isText (p : BookPage) : bool :=
  match type p with TEXT => true | _ => false end.

(** The words on the text pages of [ps], in page order. *)
Definition textWords (ps : list BookPage) : list jsstring :=
  mjoin (map (fun p => splitSpace (content p))
             (filter (fun p => isText p = true) ps)).

(** The words of the section bodies of a node, in order. *)
Definition sectionWords (node : StoryNode) : list jsstring :=
  mjoin (map (fun s => splitSpace (body s)) (sections node)).

(** What the renderer tests before it shows choices:
    [page.choices && page.choices.length > 0]. *)
Definition carriesChoices (p : BookPage) : bool :=
  match choices p with Some (_ :: _) => true | _ => false end.

(** Some position of [s] matches the start of a chapter marker. *)
Fixpoint hasMarker (s : jsstring) : bool :=
  match s with
  | [] => false
  | _ :: s' => markerAt s || hasMarker s'
  end.

(** [s.includes(p)] *)
Fixpoint includes (p s : jsstring) : bool :=
  startsWith p s || match s with [] => false | _ :: s' => includes p s' end.

(** The pages an operation adds when it starts from an empty list with the
    counter at [n]. *)
Definition out (f : PagState -> PagState) (n : nat) : list BookPage :=
  generatedPages (f {| generatedPages := []; globalPageCount := n |}).

(** An operation grows the state when it only appends pages, the pages
    depend on the counter alone, the counter advances by their number, and
    they are numbered from the counter on. *)
Definition grows (f : PagState -> PagState) : Prop :=
  forall st,
    generatedPages (f st) = generatedPages st ++ out f (globalPageCount st)
    /\ globalPageCount (f st)
       = globalPageCount st + length (out f (globalPageCount st))
    /\ map pageNumber (out f (globalPageCount st))
       = seq (globalPageCount st) (length (out f (globalPageCount st))).

(** The budget in force for the [i]-th chunk when the loop is entered with
    the flag [isFirst]. *)
Definition budgetFrom (section : ChapterSection) (isFirst : bool) (i : nat) : nat :=
  if i =? 0 then limitOf isFirst section else limitOf false section.

(** The page pushed after the loop, as the final [if] of the callback
    decides it from the buffers the loop leaves. *)
Definition endPages (node : StoryNode) (nSections : nat)
    (section : ChapterSection) (sIdx n : nat) : list BookPage :=
  let r := chunker section true [] (splitSpace (body section)) in
  if (0 <? length r.2.1) || (r.2.2 && isNewChapter section)
  then [endPage node section sIdx (sIdx =? nSections - 1) r.2.1 r.2.2
                (n + length r.1)]
  else [].

(** The end page of a section, when the buffer is not empty. *)
Definition lastPages (node : StoryNode) (nSections : nat)
    (section : ChapterSection) (sIdx n : nat) : list BookPage :=
  match leftover section with
  | [] => []
  | _ :: _ =>
      [endPage node section sIdx (sIdx =? nSections - 1) (leftover section)
               (length (closedChunks section) =? 0)
               (n + length (closedChunks section))]
  end.

(** The illustration page of a node, if it has one. *)
Definition visualPages (gameMode : GameMode) (node : StoryNode)
    (nodeIndex n : nat) : list BookPage :=
  if truthyOpt (backgroundImagePrompt node)
     && ((nodeIndex =? 0) || isInteractive gameMode)
  then [visualPage node (backgroundImagePrompt node) n]
  else [].

(** The pages of the sections [secs], the first of which has index [sIdx]. *)
Fixpoint sectionsPagesFrom (node : StoryNode) (nSections sIdx n : nat)
    (secs : list ChapterSection) : list BookPage :=
  match secs with
  | [] => []
  | s :: secs' =>
      let ps := sectionPages node nSections s sIdx n in
      ps ++ sectionsPagesFrom node nSections (S sIdx) (n + length ps) secs'
  end.

(** What holds of the choices on the pages [ps] of a node. *)
Definition choicesAtEnd (node : StoryNode) (ps : list BookPage) : Prop :=
  (forall j p, ps !! j = Some p -> choices p <> None ->
     S j = length ps /\ choices p = Some (nodeChoices node))
  /\ (forall section,
        last (sections node) = Some section -> leftover section <> [] ->
        exists p, last ps = Some p /\ choices p = Some (nodeChoices node)).

(** ** The statements of the specification that the code does not meet *)

(** Choice placement as the specification states it, for the history
    [earlier ++ [fn]]: one page holds the choices of [fn] and no other page
    shows choices. *)
Definition choicePlacementClaim (gameMode : GameMode)
    (earlier : list StoryNode) (fn : StoryNode) : Prop :=
  nodeChoices fn <> [] ->
  let ps := paginate gameMode (earlier ++ [fn]) in
  exists i p,
    ps !! i = Some p
    /\ choices p = Some (nodeChoices fn)
    /\ forall j q, ps !! j = Some q -> j <> i -> carriesChoices q = false.

(** The continuation rule as the specification states it: the marker is the
    literal line feed, two hashes and a space, and the title is the chapter
    title of the fragment as it is. *)
Definition continuationClaim (node : StoryNode) : Prop :=
  (includes (LF :: str "## ") (nodeContent node) = false ->
   truthy (trim (nodeContent node)) = true ->
   startsWith (str "##") (nodeContent node) = false ->
   exists s, sections node = [s]
             /\ title s = nodeChapterTitle node
             /\ isNewChapter s = false)
  /\ (startsWith (str "##") (nodeContent node) = true ->
      forall piece s, toSection node 0 piece = Some s -> isNewChapter s = true).

(** Degradation on empty input as the specification states it, for the
    fragments of a history: a fragment whose content is empty or all white
    space still gets a page. *)
Definition degradationClaim (gameMode : GameMode) (history : list StoryNode)
  : Prop :=
  Forall2 (fun node ps => forallb isSpace (nodeContent node) = true -> ps <> [])
          history (fragments gameMode history).

(** ** SpreadNavigator: the effect on history growth and the actions *)


(** What the reader can do to the index: the two flip buttons and a bookmark
    of the menu, which calls [jumpToPage] with the index of its page. *)
Inductive NavAction := NextFlip | PrevFlip | JumpTo (index : Z).

Definition navStep (pagesLength : Z) (currentPageIndex : Z) (a : NavAction) : Z :=
  match a with
  | NextFlip => handleNextFlip pagesLength currentPageIndex
  | PrevFlip => handlePrevFlip currentPageIndex
  | JumpTo index => jumpToPage index
  end.

(** A jump that the bookmark menu can make: to the index of a page. *)
Definition inBook (pagesLength : Z) (a : NavAction) : Prop :=
  match a with
  | JumpTo index => (0 <= index < pagesLength)%Z
  | _ => True
  end.

(** [leftPage] and [rightPage] of the render. *)
Definition leftPage (pages : list BookPage) (currentPageIndex : Z) : option BookPage :=
  if (currentPageIndex <? 0)%Z then None else pages !! Z.to_nat currentPageIndex.

Definition rightPage (pages : list BookPage) (currentPageIndex : Z) : option BookPage :=
  if (currentPageIndex + 1 <? 0)%Z then None else pages !! Z.to_nat (currentPageIndex + 1).

(** A valid index of the left page: even, from 0 to the last spread. *)
Definition validIndex (pagesLength i : Z) : Prop :=
  Z.even i = true /\ (0 <= i <= pagesLength - 2)%Z.

(** ** Views of the book used by the further properties *)

(** The test of the bookmark menu, [if (p.isChapterStart)]. *)
Definition isBookmark (p : BookPage) : bool :=
  match isChapterStart p with Some true => true | _ => false end.

Definition isImage (p : BookPage) : bool :=
  match type p with FULL_IMAGE => true | _ => false end.

(** The number of tokens on a page. *)
Definition wordCount (p : BookPage) : nat := length (splitSpace (content p)).

(** The titles that the bookmark menu lists, in order. *)
Definition chapterTitles (ps : list BookPage) : list (option jsstring) :=
  map chapterTitle (filter (fun p => isBookmark p = true) ps).

(** The titles of the sections that open a chapter, in order. *)
Definition newChapterTitles (secs : list ChapterSection) : list (option jsstring) :=
  map (fun s => Some (title s)) (filter (fun s => isNewChapter s = true) secs).

(** The illustration pages of a book. *)
Definition imagePages (ps : list BookPage) : list BookPage :=
  filter (fun p => isImage p = true) ps.

(** [c.name], as the merge reads it. *)
Definition nameOf (c : Character) : option jsstring := get (name c).

(** ** The ids of the pages *)

Definition HYPHEN : jschar := 45%N.

(** What a page id holds after the id of its node. *)
Inductive PageKey :=
  | KeyVisual
  | KeyPage (sIdx n : nat)
  | KeyEnd (sIdx : nat).

Definition keySuffix (k : PageKey) : jsstring :=
  match k with
  | KeyVisual => str "-visual"
  | KeyPage sIdx n => str "-sec" ++ ofNat sIdx ++ str "-pg" ++ ofNat n
  | KeyEnd sIdx => str "-sec" ++ ofNat sIdx ++ str "-end"
  end.

Definition keySection (k : PageKey) : option nat :=
  match k with
  | KeyVisual => None
  | KeyPage sIdx _ | KeyEnd sIdx => Some sIdx
  end.

(** A hyphen inside the text is followed by [p] or [e]. *)
Definition hyphensInside (body : jsstring) : Prop :=
  forall u r, body = u ++ HYPHEN :: r ->
              exists x r', r = x :: r' /\ (x = 112%N \/ x = 101%N).

(** The text starts with [v] or [s]. *)
Definition startsKey (body : jsstring) : Prop :=
  exists x t, body = x :: t /\ (x = 118%N \/ x = 115%N).

Definition keyedId (node : StoryNode) (k : PageKey) : jsstring :=
  nodeId node ++ keySuffix k.

(** ** The generation service ([src/services/geminiService.ts]) *)

Module Gemini.

(** The [error] a call rejects with, as the retry logic reads it.  [status]
    and [code] are compared with [===] to 429, 500 and 503 only, so any value
    that is not an integer is [None]; [message] is a string or missing. *)
Record ApiError := {
  errStatus : option Z;
  errCode : option Z;
  errMessage : option jsstring
}.

(** [error.message && error.message.includes(needle)] *)
Definition messageIncludes (needle : string) (e : ApiError) : bool :=
  match errMessage e with
  | Some m => truthy m && includes (str needle) m
  | None => false
  end.

Definition isNumber (n : Z) (v : option Z) : bool :=
  match v with Some x => (x =? n)%Z | None => false end.

Definition isQuota (e : ApiError) : bool :=
  isNumber 429 (errStatus e) || isNumber 429 (errCode e)
  || messageIncludes "429" e || messageIncludes "quota" e.

Definition isServer (e : ApiError) : bool :=
  isNumber 503 (errStatus e) || isNumber 503 (errCode e)
  || isNumber 500 (errStatus e) || isNumber 500 (errCode e).

(** What one call of [ai.models.generateContent] does. *)
Inductive Outcome (R : Type) := Resolved (r : R) | Rejected (e : ApiError).
Arguments Resolved {R} r.
Arguments Rejected {R} e.

(** How [generateWithRetry] ends: it returns a response, rethrows the error
    of a call, or throws its own error after the loop. *)
Inductive Final (R : Type) :=
  | Returned (r : R)
  | Threw (e : ApiError)
  | ThrewMaxRetries
  | OutOfFuel.
Arguments Returned {R} r.
Arguments Threw {R} e.
Arguments ThrewMaxRetries {R}.
Arguments OutOfFuel {R}.

(** A run: how it ends, how many calls it made and the delays it waited, in
    order. *)
Record Run (R : Type) := {
  final : Final R;
  calls : nat;
  sleeps : list Z
}.
Arguments final {R} _.
Arguments calls {R} _.
Arguments sleeps {R} _.

(** The [while (attempt <= retries)] loop.  [api k] is what the [k]-th call
    does; [made] counts the calls made and [slept] holds the delays waited. *)
Fixpoint retryLoop {R : Type} (api : nat -> Outcome R) (retries : Z)
    (fuel : nat) (attempt delay : Z) (made : nat) (slept : list Z) : Run R :=
  match fuel with
  | 0 => {| final := OutOfFuel; calls := made; sleeps := slept |}
  | S fuel' =>
      if (attempt <=? retries)%Z then
        match api made with
        | Resolved r => {| final := Returned r; calls := S made; sleeps := slept |}
        | Rejected e =>
            if (isQuota e || isServer e) && (attempt <? retries)%Z
            then retryLoop api retries fuel' (attempt + 1) (delay * 2)
                           (S made) (slept ++ [delay])
            else {| final := Threw e; calls := S made; sleeps := slept |}
        end
      else {| final := ThrewMaxRetries; calls := made; sleeps := slept |}
  end.

(** [generateWithRetry(params, retries, initialDelay)]; the callers leave
    the defaults, 5 and 2000. *)
Definition generateWithRetry {R : Type} (api : nat -> Outcome R)
    (retries initialDelay : Z) : Run R :=
  retryLoop api retries (S (Z.to_nat (retries + 1))) 0 initialDelay 0 [].

End Gemini.
Import Gemini.

(** The delays of the first [k] retries: each twice the one before. *)
Definition backoff (initialDelay : Z) (k : nat) : list Z :=
  map (fun i => (initialDelay * 2 ^ Z.of_nat i)%Z) (seq 0 k).

Definition retryable (e : ApiError) : bool := isQuota e || isServer e.

Definition sumZ (l : list Z) : Z := foldr Z.add 0%Z l.

(** A number inside a template literal. *)
Definition ofZ (z : Z) : jsstring := str (NilZero.string_of_int (Z.to_int z)).

(** [Math.ceil(a / b)] for integers [a] and [b > 0]. *)
Definition ceilDiv (a b : Z) : Z := (- ((- a) / b))%Z.

Definition wordsPerBatch : Z := 1000.

(** [Math.max(1, Math.ceil(storyLength / wordsPerBatch))], for a story
    length that is an integer. *)
Definition totalBatches (storyLength : Z) : Z :=
  Z.max 1 (ceilDiv storyLength wordsPerBatch).

(** The part a batch writes: the branches of the [if] cascade of the batch
    loop, in the order they are tested, and the part that none of them
    takes. *)
Inductive PartKind := TheBeginning | TheConclusion | TheMidpoint | TheClimaxBegins
                    | MiddlePart.

Definition partKind (total i : Z) : PartKind :=
  if (i =? 0)%Z then TheBeginning
  else if (i =? total - 1)%Z then TheConclusion
  else if (i =? total / 2)%Z then TheMidpoint
  else if (i =? total - 2)%Z then TheClimaxBegins
  else MiddlePart.

Definition partType (k : PartKind) : jsstring :=
  match k with
  | TheBeginning => str "The Beginning"
  | TheConclusion => str "The Conclusion"
  | TheMidpoint => str "The Midpoint"
  | TheClimaxBegins => str "The Climax Begins"
  | MiddlePart => str "Middle Part"
  end.

Definition partInstruction (k : PartKind) : jsstring :=
  match k with
  | TheBeginning =>
      str "Establish the world, introduce characters, and trigger the inciting incident."
  | TheConclusion =>
      str "Bring the story to a satisfying climax and resolution. Tie up all loose ends."
  | TheMidpoint =>
      str "A major turning point, revelation, or point of no return."
  | TheClimaxBegins =>
      str "The point of highest tension. The final confrontation draws near."
  | MiddlePart =>
      str "Continue the story, deepening the plot and developing character arcs."
  end.

Record BatchPrompt := { range : jsstring; instruction : jsstring }.

(** The prompt pushed at index [i] of the batch loop. *)
Definition partPrompt (total : Z) (i : nat) : BatchPrompt :=
  let k := partKind total (Z.of_nat i) in
  {| range := str "Part " ++ ofZ (Z.of_nat i + 1) ++ str "/" ++ ofZ total
              ++ str ": " ++ partType k;
     instruction := partInstruction k ++ str " Write approximately "
                    ++ ofZ wordsPerBatch ++ str " words for this section." |}.

(** [batchPrompts] of the [LINEAR] branch of [startStory]. *)
Definition batchPrompts (storyLength : Z) : list BatchPrompt :=
  let total := totalBatches storyLength in
  if (total =? 1)%Z then
    [ {| range := str "Full Story";
         instruction :=
           str "Write the COMPLETE story in one response. Target approximately "
           ++ ofZ storyLength
           ++ str " words. Structure it with appropriate chapters." |} ]
  else map (partPrompt total) (seq 0 (Z.to_nat total)).

(** The parts of the batches, in order, when there is more than one. *)
Definition batchKinds (storyLength : Z) : list PartKind :=
  map (fun i => partKind (totalBatches storyLength) (Z.of_nat i))
      (seq 0 (Z.to_nat (totalBatches storyLength))).

(** ** [StoryNode] in full and the [LINEAR] branch of [startStory] *)

Record StoryStats := { tension : Z; mystery : Z; romance : Z; hope : Z }.

(** [StoryNode] with all its fields; [layout] holds the fields that
    [BookLayout] reads. *)
Record StoryNodeFull := {
  layout : StoryNode;
  characterUpdates : list Character;
  stats : StoryStats;
  summary : jsstring
}.

(** What one batch of the loop comes to: the response parsed, a response
    without text, or an error thrown by the call or by [JSON.parse]. *)
Inductive BatchResult (E : Type) :=
  | Parsed (data : StoryNodeFull)
  | NoText
  | BatchFailed (e : E).
Arguments Parsed {E} data.
Arguments NoText {E}.
Arguments BatchFailed {E} e.

(** The variables the batch loop updates. *)
Record LinearState := {
  fullStoryContent : jsstring;
  finalStats : StoryStats;
  finalCharUpdates : list Character;
  firstImagePrompt : jsstring;
  overallTitle : jsstring;
  previousSummary : jsstring
}.

Definition defaultImagePrompt : jsstring :=
  str "A mysterious scene in black and white".

(** The body of [if (text) { ... }]. *)
Definition absorb (st : LinearState) (data : StoryNodeFull) : LinearState :=
  {| fullStoryContent :=
       fullStoryContent st
       ++ (if truthy (fullStoryContent st) then [LF; LF] else [])
       ++ nodeContent (layout data);
     finalStats := stats data;
     finalCharUpdates := characterUpdates data;
     previousSummary := summary data;
     firstImagePrompt :=
       if truthy (firstImagePrompt st) then firstImagePrompt st
       else if truthyOpt (backgroundImagePrompt (layout data))
            then default [] (backgroundImagePrompt (layout data))
            else defaultImagePrompt;
     overallTitle :=
       if truthy (firstImagePrompt st) then overallTitle st
       else if truthy (nodeChapterTitle (layout data))
            then nodeChapterTitle (layout data)
            else overallTitle st |}.

(** [for (const batch of batchPrompts)], over what the batches come to; a
    failure ends the loop only while no content has been written. *)
Fixpoint linearLoop {E : Type} (st : LinearState) (results : list (BatchResult E))
  : LinearState + E :=
  match results with
  | [] => inl st
  | Parsed data :: rest => linearLoop (absorb st data) rest
  | NoText :: rest => linearLoop st rest
  | BatchFailed e :: rest =>
      if truthy (fullStoryContent st) then linearLoop st rest else inr e
  end.

Definition initialLinearState (category protagonist : jsstring) : LinearState :=
  {| fullStoryContent := [];
     finalStats := {| tension := 50; mystery := 50; romance := 50; hope := 50 |};
     finalCharUpdates := [];
     firstImagePrompt := [];
     overallTitle := str "The " ++ category ++ str " of " ++ protagonist;
     previousSummary := str "None yet." |}.

Definition finalNode (storyLength : Z) (st : LinearState) : StoryNodeFull :=
  {| layout :=
       {| nodeId := str "root-linear-full";
          nodeChapterTitle := overallTitle st;
          nodeContent := fullStoryContent st;
          nodeChoices := [];
          backgroundImagePrompt := Some (firstImagePrompt st) |};
     characterUpdates := finalCharUpdates st;
     stats := finalStats st;
     summary := str "A complete " ++ ofZ storyLength ++ str " word story." |}.

(** The [LINEAR] branch of [startStory]: [respond i] is what batch [i] comes
    to. *)
Definition startStoryLinear {E : Type} (category protagonist : jsstring)
    (storyLength : Z) (respond : nat -> BatchResult E) : StoryNodeFull + E :=
  match linearLoop (initialLinearState category protagonist)
                   (map respond (seq 0 (length (batchPrompts storyLength)))) with
  | inl st => inl (finalNode storyLength st)
  | inr e => inr e
  end.

(** The contents of the batches that were parsed, in order. *)
Definition parsedNodes {E : Type} (results : list (BatchResult E))
  : list StoryNodeFull :=
  omap (fun r => match r with Parsed d => Some d | _ => None end) results.

(** A batch that leaves the content empty: no text, or empty content. *)
Definition quiet {E : Type} (r : BatchResult E) : Prop :=
  match r with
  | Parsed d => nodeContent (layout d) = []
  | NoText => True
  | BatchFailed _ => False
  end.

(** Pieces of text with a blank line between them. *)
Fixpoint joinBlankLine (l : list jsstring) : jsstring :=
  match l with
  | [] => []
  | [x] => x
  | x :: l' => x ++ [LF; LF] ++ joinBlankLine l'
  end.

Fixpoint dropEmpty (l : list jsstring) : list jsstring :=
  match l with
  | [] :: l' => dropEmpty l'
  | _ => l
  end.

(** ** The ids of the nodes of a story *)

(** [data.id] of [continueStory]: the id of the last node, a hyphen and the
    id of the choice. *)
Definition continueId (lastId choiceId : jsstring) : jsstring :=
  lastId ++ str "-" ++ choiceId.

(** [data.id = ...]: the parsed response with its id overwritten. *)
Definition withId (i : jsstring) (n : StoryNode) : StoryNode :=
  {| nodeId := i; nodeChapterTitle := nodeChapterTitle n;
     nodeContent := nodeContent n; nodeChoices := nodeChoices n;
     backgroundImagePrompt := backgroundImagePrompt n |}.

(** The history after [handleChoice] has appended the node that
    [continueStory] returns for the choice [choiceId]; [data] is the parsed
    response.  [None] stands for the [TypeError] of reading the id of
    [history[history.length - 1]] on an empty history. *)
Definition continueHistory (history : list StoryNode) (choiceId : jsstring)
    (data : StoryNode) : option (list StoryNode) :=
  match last history with
  | Some lastNode =>
      Some (history ++ [withId (continueId (nodeId lastNode) choiceId) data])
  | None => None
  end.

(** The histories the application builds: a start node, then one node for
    each choice made. *)
Inductive Played : list StoryNode -> Prop :=
  | played_start (startNode : StoryNode) : Played [startNode]
  | played_choice history choiceId data history' :
      Played history ->
      continueHistory history choiceId data = Some history' ->
      Played history'.

(** ** The application state ([src/types.ts], [src/App.tsx]) *)

(** [s.replace(pat, rep)] for a pattern that is a string: the first
    occurrence is replaced. *)
Fixpoint replaceFirst (pat rep s : jsstring) : jsstring :=
  if startsWith pat s then rep ++ drop (length pat) s
  else match s with
       | [] => []
       | c :: s' => c :: replaceFirst pat rep s'
       end.

Inductive ViewState :=
  MENU | MODE_SELECTION | GENRE | CHARACTERS | LOADING | GAME | EXIT.

Inductive Genre :=
  Fantasy | SciFi | Mystery | Horror | Romance | Supernatural | Thriller
  | Philosophy.

Record GenreOption := { category : Genre; subGenre : option jsstring }.

Record CharacterSetupData := {
  protagonists : list jsstring;
  antagonists : list jsstring;
  support : list jsstring
}.

Module Game.

Record GameState := {
  currentView : ViewState;
  gameMode : GameMode;
  selectedGenre : option GenreOption;
  characterSetup : CharacterSetupData;
  storyHistory : list StoryNodeFull;
  characters : list Character;
  isLoading : bool;
  error : option jsstring;
  isGameOver : bool;
  statsHistory : list StoryStats;
  storyLength : Z;
  customPrompt : jsstring
}.

Definition INITIAL_STATE : GameState :=
  {| currentView := MENU;
     gameMode := INTERACTIVE;
     selectedGenre := None;
     characterSetup := {| protagonists := [[]]; antagonists := []; support := [] |};
     storyHistory := [];
     characters := [];
     isLoading := false;
     error := None;
     isGameOver := false;
     statsHistory := [];
     storyLength := 5000;
     customPrompt := [] |}.

End Game.

Module Saves.

Record SavedStory := {
  id : jsstring;
  title : jsstring;
  date : jsstring;
  genre : option GenreOption;
  history : list StoryNodeFull;
  characters : list Character;
  statsHistory : list StoryStats;
  gameMode : GameMode
}.

End Saves.

Module App.

Import Game.

(** [handleStartGame] up to the [await]: an alert and nothing else, the way
    back to the genre view, or the loading view with the blank protagonists
    removed. *)
Inductive StartCheck :=
  | AlertNoProtagonist
  | BackToGenre (next : GameState)
  | StartLoading (next : GameState).

Definition handleStartGame_begin (gameState : GameState) : StartCheck :=
  let prots := filter (fun p => truthy (trim p) = true)
                      (protagonists (characterSetup gameState)) in
  if length prots =? 0 then AlertNoProtagonist
  else match selectedGenre gameState with
       | None =>
           BackToGenre
             {| currentView := GENRE;
                gameMode := gameMode gameState;
                selectedGenre := selectedGenre gameState;
                characterSetup := characterSetup gameState;
                storyHistory := storyHistory gameState;
                characters := characters gameState;
                isLoading := isLoading gameState;
                error := error gameState;
                isGameOver := isGameOver gameState;
                statsHistory := statsHistory gameState;
                storyLength := storyLength gameState;
                customPrompt := customPrompt gameState |}
       | Some _ =>
           StartLoading
             {| currentView := LOADING;
                gameMode := gameMode gameState;
                selectedGenre := selectedGenre gameState;
                characterSetup :=
                  {| protagonists := prots;
                     antagonists := antagonists (characterSetup gameState);
                     support := support (characterSetup gameState) |};
                storyHistory := storyHistory gameState;
                characters := characters gameState;
                isLoading := isLoading gameState;
                error := None;
                isGameOver := isGameOver gameState;
                statsHistory := statsHistory gameState;
                storyLength := storyLength gameState;
                customPrompt := customPrompt gameState |}
       end.

(** The state update of [handleStartGame] once [startStory] has resolved. *)
Definition handleStartGame_resolved (startNode : StoryNodeFull) (prev : GameState)
  : GameState :=
  {| currentView := GAME;
     gameMode := gameMode prev;
     selectedGenre := selectedGenre prev;
     characterSetup := characterSetup prev;
     storyHistory := [startNode];
     characters := updateCharacters (characters prev) (characterUpdates startNode);
     isLoading := false;
     error := error prev;
     isGameOver := isGameOver prev;
     statsHistory := [stats startNode];
     storyLength := storyLength prev;
     customPrompt := customPrompt prev |}.

(** [e.message?.includes('429') || e.status === 429] *)
Definition is429 (e : ApiError) : bool :=
  match errMessage e with Some m => includes (str "429") m | None => false end
  || isNumber 429 (errStatus e).

(** The state update of the [catch] of [handleStartGame]. *)
Definition handleStartGame_rejected (e : ApiError) (prev : GameState) : GameState :=
  {| currentView := CHARACTERS;
     gameMode := gameMode prev;
     selectedGenre := selectedGenre prev;
     characterSetup := characterSetup prev;
     storyHistory := storyHistory prev;
     characters := characters prev;
     isLoading := false;
     error :=
       Some (if is429 e
             then str "Gemini API Quota Exceeded. Please try again in a minute."
             else str "Failed to generate story. Please check your API Key or connection.");
     isGameOver := isGameOver prev;
     statsHistory := statsHistory prev;
     storyLength := storyLength prev;
     customPrompt := customPrompt prev |}.

(** [handleChoice]: the update before the [await], the update once
    [continueStory] has resolved, and the update of the [catch]. *)
Definition handleChoice_begin (prev : GameState) : GameState :=
  {| currentView := currentView prev;
     gameMode := gameMode prev;
     selectedGenre := selectedGenre prev;
     characterSetup := characterSetup prev;
     storyHistory := storyHistory prev;
     characters := characters prev;
     isLoading := true;
     error := None;
     isGameOver := isGameOver prev;
     statsHistory := statsHistory prev;
     storyLength := storyLength prev;
     customPrompt := customPrompt prev |}.

Definition handleChoice_resolved (nextNode : StoryNodeFull) (prev : GameState)
  : GameState :=
  let isEnded := length (nodeChoices (layout nextNode)) =? 0 in
  {| currentView := currentView prev;
     gameMode := gameMode prev;
     selectedGenre := selectedGenre prev;
     characterSetup := characterSetup prev;
     storyHistory := storyHistory prev ++ [nextNode];
     characters := updateCharacters (characters prev) (characterUpdates nextNode);
     isLoading := false;
     error := error prev;
     isGameOver := isEnded;
     statsHistory := statsHistory prev ++ [stats nextNode];
     storyLength := storyLength prev;
     customPrompt := customPrompt prev |}.

Definition handleChoice_rejected (e : ApiError) (prev : GameState) : GameState :=
  {| currentView := currentView prev;
     gameMode := gameMode prev;
     selectedGenre := selectedGenre prev;
     characterSetup := characterSetup prev;
     storyHistory := storyHistory prev;
     characters := characters prev;
     isLoading := false;
     error :=
       Some (if is429 e
             then str "Rate limit hit. Please wait a moment."
             else str "Failed to continue story. Please try again.");
     isGameOver := isGameOver prev;
     statsHistory := statsHistory prev;
     storyLength := storyLength prev;
     customPrompt := customPrompt prev |}.

(** [handleSaveStory]: the new list of saved stories.  [now] is
    [Date.now().toString()] and [today] is [new Date().toLocaleDateString()]. *)
Definition handleSaveStory (now today : jsstring) (gameState : GameState)
    (savedStories : list Saves.SavedStory) : list Saves.SavedStory :=
  match storyHistory gameState with
  | [] => savedStories
  | first :: _ =>
      let title :=
        if truthy (nodeChapterTitle (layout first))
        then nodeChapterTitle (layout first) else str "Untitled Story" in
      {| Saves.id := now;
         Saves.title := trim (replaceFirst (str "Chapter 1:") [] title);
         Saves.date := today;
         Saves.genre := selectedGenre gameState;
         Saves.history := storyHistory gameState;
         Saves.characters := characters gameState;
         Saves.statsHistory := statsHistory gameState;
         Saves.gameMode := gameMode gameState |}
      :: savedStories
  end.

(** [savedStories.find(s => s.id === id)] *)
Definition findStory (id : jsstring) (savedStories : list Saves.SavedStory)
  : option Saves.SavedStory :=
  snd <$> list_find (fun s => Saves.id s = id) savedStories.

(** [handleLoadStory]: the state after it.  [None] stands for the
    [TypeError] of reading [choices] of the last node of an empty history. *)
Definition handleLoadStory (id : jsstring) (savedStories : list Saves.SavedStory)
    (prev : GameState) : option GameState :=
  match findStory id savedStories with
  | None => Some prev
  | Some story =>
      match last (Saves.history story) with
      | None => None
      | Some lastNode =>
          Some
            {| currentView := GAME;
               gameMode := Saves.gameMode story;
               selectedGenre := Saves.genre story;
               characterSetup := characterSetup prev;
               storyHistory := Saves.history story;
               characters := Saves.characters story;
               isLoading := isLoading prev;
               error := error prev;
               isGameOver := length (nodeChoices (layout lastNode)) =? 0;
               statsHistory := Saves.statsHistory story;
               storyLength := storyLength prev;
               customPrompt := customPrompt prev |}
      end
  end.

(** What happens to the game state and the saved stories. *)
Inductive Event :=
  | StartResolved (startNode : StoryNodeFull)
  | StartRejected (e : ApiError)
  | ChoiceBegin
  | ChoiceResolved (nextNode : StoryNodeFull)
  | ChoiceRejected (e : ApiError)
  | SaveStory (now today : jsstring)
  | LoadStory (id : jsstring)
  | Reset.

Definition step (st : GameState * list Saves.SavedStory) (ev : Event)
  : option (GameState * list Saves.SavedStory) :=
  let '(gs, saves) := st in
  match ev with
  | StartResolved n => Some (handleStartGame_resolved n gs, saves)
  | StartRejected e => Some (handleStartGame_rejected e gs, saves)
  | ChoiceBegin => Some (handleChoice_begin gs, saves)
  | ChoiceResolved n => Some (handleChoice_resolved n gs, saves)
  | ChoiceRejected e => Some (handleChoice_rejected e gs, saves)
  | SaveStory now today => Some (gs, handleSaveStory now today gs saves)
  | LoadStory id => (fun gs' => (gs', saves)) <$> handleLoadStory id saves gs
  | Reset => Some (INITIAL_STATE, saves)
  end.

(** The stats history lists the stats of the nodes of the history. *)
Definition aligned (history : list StoryNodeFull) (statsHistory : list StoryStats)
  : Prop :=
  statsHistory = map stats history.

Definition consistent (st : GameState * list Saves.SavedStory) : Prop :=
  aligned (storyHistory (fst st)) (statsHistory (fst st))
  /\ Forall (fun s => aligned (Saves.history s) (Saves.statsHistory s)
                      /\ Saves.history s <> [])
            (snd st).

(** A sequence of events; [None] when one of them fails. *)
Fixpoint run (st : GameState * list Saves.SavedStory) (evs : list Event)
  : option (GameState * list Saves.SavedStory) :=
  match evs with
  | [] => Some st
  | ev :: evs' =>
      match step st ev with
      | Some st' => run st' evs'
      | None => None
      end
  end.

End App.

Module Stats.







End Stats.

(** A node with contents [c] and choices [ch], for the instances. *)
Definition aNode (i c : string) (ch : list Choice) : StoryNodeFull :=
  {| layout := mkNode (str i) (str "Chapter 1: Dawn") (str c) ch None;
     characterUpdates := [];
     stats := {| tension := 1; mystery := 2; romance := 3; hope := 4 |};
     summary := [] |}.


Module LoadingBar.

Import QArith Qminmax Qround.
Local Open Scope Q_scope.

(** ** The loading bar ([src/App.tsx]) *)




End LoadingBar.

(** * Examples *)

Example sections_two_chapters :
  sections (mkNode (str "n1") (str "T")
                   (lines ["## Chapter 1: Dawn"; "alpha beta"; "## Two"; "gamma"]%string)
                   [] None)
  = [ {| title := str "Chapter 1: Dawn"; body := str "alpha beta"; isNewChapter := true |};
      {| title := str "Two"; body := str "gamma"; isNewChapter := true |} ].
Proof. vm_compute. reflexivity. Qed.

Example sections_leading_text :
  sections (mkNode (str "n1") (str "T") (lines ["intro"; "## Two"]%string) [] None)
  = [ {| title := str "T"; body := LF :: str "intro"; isNewChapter := false |};
      {| title := str "Two"; body := []; isNewChapter := true |} ].
Proof. vm_compute. reflexivity. Qed.

Example pages_small :
  map (fun p => (pageNumber p, content p, choices p))
      (paginate INTERACTIVE
         [ mkNode (str "a") (str "T") (str "One two.") [aChoice "x"] None;
           mkNode (str "b") (str "T") (lines ["## Ch"; "Three four."]%string) [aChoice "y"] None;
           mkNode (str "c") (str "T") (str "five") [aChoice "z"] None ])
  = [ (1, LF :: str "One two.", Some [aChoice "x"]);
      (2, str "Three four.", Some [aChoice "y"]);
      (3, LF :: str "five", Some [aChoice "z"]);
      (4, [], None) ].
Proof. vm_compute. reflexivity. Qed.

(** The example of the specification: a chapter of 140 words without any
    sentence end.  The first page has the reduced budget of 80 and closes at
    101 tokens, the first length more than 20 over the budget; the second
    page takes the other 39; only the first is a chapter start. *)
Example pages_chapter_140_words :
  map (fun p => (pageNumber p, length (splitSpace (content p)), isChapterStart p,
                 chapterTitle p))
      (paginate LINEAR
         [ mkNode (str "n") (str "T")
             (str "## Chapter 1: Dawn" ++ LF :: joinSpace (replicate 140 (str "Word")))
             [] None ])
  = [ (1, 101, Some true, Some (str "Chapter 1: Dawn"));
      (2, 39, Some false, Some (str "Chapter 1: Dawn")) ].
Proof. vm_compute. reflexivity. Qed.

(** A sentence end at the budget closes the page at once. *)
Example pages_sentence_at_budget :
  map (fun p => length (splitSpace (content p)))
      (paginate LINEAR
         [ mkNode (str "n") (str "T")
             (str "## A" ++ LF :: joinSpace (replicate 79 (str "w") ++ [str "end."]
                                           ++ replicate 5 (str "w")))
             [] None ])
  = [ 80; 5 ].
Proof. vm_compute. reflexivity. Qed.

(** Two short fragments fill two pages; a third one brings a filler page. *)
Example pages_two_short_fragments :
  map (fun p => id p) (paginate INTERACTIVE
            [ mkNode (str "a") (str "T") (str "One.") [] None;
              mkNode (str "b") (str "T") (str "Two.") [] None ])
  = [ str "a-sec0-end"; str "b-sec0-end" ].
Proof. vm_compute. reflexivity. Qed.

Example pages_three_short_fragments :
  map (fun p => id p) (paginate INTERACTIVE
            [ mkNode (str "a") (str "T") (str "One.") [] None;
              mkNode (str "b") (str "T") (str "Two.") [] None;
              mkNode (str "c") (str "T") (str "Three.") [] None ])
  = [ str "a-sec0-end"; str "b-sec0-end"; str "c-sec0-end"; str "filler-end" ].
Proof. vm_compute. reflexivity. Qed.

(** An illustration page comes first; in [LINEAR] mode only the first node
    gets one.  A long section has pages closed inside the loop, whose ids
    hold the page number. *)
Example pages_ids :
  map (fun p => id p) (paginate LINEAR
            [ mkNode (str "a") (str "T")
                (joinSpace (replicate 131 (str "w."))) [] (Some (str "castle"));
              mkNode (str "b") (str "T") (str "Two.") [] (Some (str "forest")) ])
  = [ str "a-visual"; str "a-sec0-pg2"; str "a-sec0-end"; str "b-sec0-end" ].
Proof. vm_compute. reflexivity. Qed.

(** When the last token of the last section closes a page, the buffer is
    empty after the loop, no end page is pushed, and no page of the fragment
    holds its choices. *)
Example choices_without_end_page :
  map (fun p => (id p, choices p))
      (paginate INTERACTIVE
         [ mkNode (str "a") (str "T")
             (joinSpace (replicate 129 (str "w") ++ [str "end."]))
             [aChoice "x"] None ])
  = [ (str "a-sec0-pg1", None); (str "filler-end", None) ].
Proof. vm_compute. reflexivity. Qed.

(** White space before the hashes: the content does not start with two
    hashes, its trimmed form does, and the piece is a new chapter without a
    title. *)
Example sections_indented_hashes :
  sections (mkNode (str "n") (str "T") (str " ##x") [] None)
  = [ {| title := []; body := str "##x"; isNewChapter := true |} ].
Proof. vm_compute. reflexivity. Qed.

(** A tab after the hashes is a marker as well. *)
Example sections_tab_marker :
  sections (mkNode (str "n") (str "T") (str "a" ++ LF :: str "##" ++ 9%N :: str "B") [] None)
  = [ {| title := str "T"; body := LF :: str "a"; isNewChapter := false |};
      {| title := str "B"; body := []; isNewChapter := true |} ].
Proof. vm_compute. reflexivity. Qed.

(** The white space of a marker takes the line feed of a marker that
    follows it at once, whose hashes then start the next piece. *)
Example sections_marker_after_marker :
  sections (mkNode (str "n") (str "T") (lines ["## "; "## B"]%string) [] None)
  = [ {| title := str "B"; body := []; isNewChapter := true |} ].
Proof. vm_compute. reflexivity. Qed.

Example endsSentence_cases :
  map endsSentence [str "end."; str "end!"; str "end?"; str "end"; str "a.b"; []]
  = [true; true; true; false; false; false]
  /\ endsSentence (str "end." ++ [DQUOTE]) = true
  /\ endsSentence (str "end" ++ [DQUOTE]) = false.
Proof. vm_compute. auto. Qed.

(** An update of an existing character, an update that creates one, and two
    updates that are dropped: one without a role, one with an empty name. *)
Example updateCharacters_run :
  updateCharacters
    [ aCharacter "Ann" "hero" 50 ]
    [ {| name := Value (str "Ann"); role := Absent; affinity := Value 70%Z;
         status := Absent; description := Absent |};
      {| name := Value (str "Bob"); role := Value (str "rival");
         affinity := Value 0%Z; status := Absent; description := Absent |};
      {| name := Value (str "Cy"); role := Absent; affinity := Value 10%Z;
         status := Absent; description := Absent |};
      {| name := Value []; role := Value (str "ghost"); affinity := Value 10%Z;
         status := Absent; description := Absent |} ]
  = [ aCharacter "Ann" "hero" 70;
      {| name := Value (str "Bob"); role := Value (str "rival");
         affinity := Value 0%Z; status := Absent; description := Absent |} ].
Proof. vm_compute. reflexivity. Qed.

(** * Properties *)

(** ** The state only grows *)

Lemma loop_chunker node section sIdx words :
  forall chunk isFirst gp n,
    foldl (loopBody node section sIdx)
          {| currentChunk := chunk; isFirstPageOfSection := isFirst;
             pag := {| generatedPages := gp; globalPageCount := n |} |}
          words
    = let r := chunker section isFirst chunk words in
      {| currentChunk := r.2.1; isFirstPageOfSection := r.2.2;
         pag := {| generatedPages :=
                     gp ++ closedPages node section sIdx isFirst n r.1;
                   globalPageCount := n + length r.1 |} |}.
Proof.
  induction words as [|w ws IH]; intros chunk isFirst gp n; simpl.
  - rewrite app_nil_r, Nat.add_0_r. reflexivity.
  - unfold loopBody at 2. simpl.
    destruct ((limitOf isFirst section <=? length (chunk ++ [w]))
              && (endsSentence w
                  || (limitOf isFirst section + 20 <? length (chunk ++ [w])))).
    + unfold push. simpl. rewrite IH. simpl.
      rewrite <- app_assoc. simpl. rewrite Nat.add_succ_r. reflexivity.
    + rewrite IH. reflexivity.
Qed.

Lemma grows_skip : grows (fun st => st).
Proof.
  intros [gp n]; unfold out; simpl.
  rewrite app_nil_r, Nat.add_0_r. auto.
Qed.

Lemma grows_push mk : (forall n, pageNumber (mk n) = n) -> grows (push mk).
Proof.
  intros Hmk [gp n]; unfold out, push; simpl.
  rewrite Hmk, Nat.add_1_r. auto.
Qed.

Lemma out_seq f g n :
  grows f -> grows g ->
  out (fun st => g (f st)) n = out f n ++ out g (n + length (out f n)).
Proof.
  intros Hf Hg. unfold out at 1.
  destruct (Hf {| generatedPages := []; globalPageCount := n |}) as (Hp & Hc & _).
  destruct (Hg (f {| generatedPages := []; globalPageCount := n |})) as (Hp' & _).
  simpl in *. rewrite Hp', Hp, Hc. reflexivity.
Qed.

Lemma grows_seq f g : grows f -> grows g -> grows (fun st => g (f st)).
Proof.
  intros Hf Hg st.
  rewrite out_seq by assumption.
  destruct (Hf st) as (Hp & Hc & Hn).
  destruct (Hg (f st)) as (Hp' & Hc' & Hn').
  rewrite Hc in Hp', Hc', Hn'.
  rewrite Hp', Hp, Hc', length_app, map_app, Hn, Hn', seq_app, app_assoc.
  split; [reflexivity|]. split; [lia|reflexivity].
Qed.

Lemma grows_ext f g : (forall st, f st = g st) -> grows f -> grows g.
Proof.
  intros E Hf st. unfold out. rewrite <- !E. apply Hf.
Qed.

Lemma grows_forEachFrom {A} (f : PagState -> A -> nat -> PagState) l :
  (forall x i, grows (fun st => f st x i)) ->
  forall i, grows (forEachFrom f i l).
Proof.
  intros Hf. induction l as [|x l IH]; intros i; simpl.
  - apply grows_skip.
  - apply (grows_seq (fun st => f st x i) (forEachFrom f (S i) l)); auto.
Qed.

Lemma out_forEachFrom_cons {A} (f : PagState -> A -> nat -> PagState) x l i n :
  (forall x i, grows (fun st => f st x i)) ->
  out (forEachFrom f i (x :: l)) n
  = out (fun st => f st x i) n
    ++ out (forEachFrom f (S i) l) (n + length (out (fun st => f st x i) n)).
Proof.
  intros Hf.
  apply (out_seq (fun st => f st x i) (forEachFrom f (S i) l)); auto.
  apply grows_forEachFrom; auto.
Qed.

Lemma closedPages_numbers node section sIdx chunks :
  forall isFirst n,
    map pageNumber (closedPages node section sIdx isFirst n chunks)
    = seq n (length chunks).
Proof.
  induction chunks as [|c cs IH]; intros isFirst n; simpl; [reflexivity|].
  rewrite IH. reflexivity.
Qed.

Lemma closedPages_length node section sIdx chunks :
  forall isFirst n,
    length (closedPages node section sIdx isFirst n chunks) = length chunks.
Proof.
  induction chunks as [|c cs IH]; intros isFirst n; simpl; auto.
Qed.

Lemma packSection_eq node nSections section sIdx gp n :
  packSection node nSections {| generatedPages := gp; globalPageCount := n |}
              section sIdx
  = {| generatedPages :=
         gp ++ closedPages node section sIdx true n (closedChunks section)
            ++ endPages node nSections section sIdx n;
       globalPageCount :=
         n + length (closedPages node section sIdx true n (closedChunks section)
                     ++ endPages node nSections section sIdx n) |}.
Proof.
  unfold packSection, endPages, closedChunks.
  rewrite loop_chunker. simpl.
  destruct (chunker section true [] (splitSpace (body section)))
    as [cs [rest f]]; simpl.
  rewrite length_app, closedPages_length.
  destruct ((0 <? length rest) || (f && isNewChapter section)); simpl.
  - unfold push; simpl. rewrite <- app_assoc.
    f_equal. lia.
  - rewrite app_nil_r. f_equal. lia.
Qed.

Lemma sectionPages_eq node nSections section sIdx n :
  sectionPages node nSections section sIdx n
  = closedPages node section sIdx true n (closedChunks section)
    ++ endPages node nSections section sIdx n.
Proof.
  unfold sectionPages. rewrite packSection_eq. reflexivity.
Qed.

Lemma grows_packSection node nSections section sIdx :
  grows (fun st => packSection node nSections st section sIdx).
Proof.
  intros [gp n]. unfold out. rewrite !packSection_eq. simpl.
  split; [reflexivity|]. split; [reflexivity|].
  rewrite map_app, closedPages_numbers, length_app, closedPages_length, seq_app.
  f_equal. unfold endPages.
  destruct (_ || _); reflexivity.
Qed.

Lemma grows_processNode gameMode node nodeIndex :
  grows (fun st => processNode gameMode st node nodeIndex).
Proof.
  unfold processNode.
  set (c := truthyOpt (backgroundImagePrompt node)
            && ((nodeIndex =? 0) || isInteractive gameMode)).
  apply (grows_seq
           (fun st => if c then push (visualPage node (backgroundImagePrompt node)) st
                      else st)
           (forEach (packSection node (length (sections node))) (sections node))).
  - destruct c; [apply grows_push; reflexivity | apply grows_skip].
  - apply grows_forEachFrom. intros; apply grows_packSection.
Qed.

Lemma out_generated gameMode history :
  forall nodeIndex n,
    out (forEachFrom (processNode gameMode) nodeIndex history) n
    = mjoin (fragmentsFrom gameMode nodeIndex n history).
Proof.
  induction history as [|node h IH]; intros nodeIndex n.
  - reflexivity.
  - rewrite out_forEachFrom_cons by (intros; apply grows_processNode).
    simpl. rewrite IH. reflexivity.
Qed.

(** The pages before the padding are the pages of the nodes, in order, and
    the counter is one more than their number. *)
Lemma generated_eq gameMode history :
  generated gameMode history
  = {| generatedPages := mjoin (fragments gameMode history);
       globalPageCount := S (length (mjoin (fragments gameMode history))) |}.
Proof.
  unfold generated, forEach, fragments.
  pose proof (grows_forEachFrom (processNode gameMode) history
                (fun x i => grows_processNode gameMode x i) 0 initialState)
    as (Hp & Hc & _).
  rewrite out_generated in Hp, Hc. simpl in Hp, Hc.
  destruct (forEachFrom _ _ _ _) as [gp c]; simpl in *; subst. reflexivity.
Qed.

Lemma generated_numbers gameMode history :
  map pageNumber (mjoin (fragments gameMode history))
  = seq 1 (length (mjoin (fragments gameMode history))).
Proof.
  pose proof (grows_forEachFrom (processNode gameMode) history
                (fun x i => grows_processNode gameMode x i) 0 initialState)
    as (_ & _ & Hn).
  rewrite out_generated in Hn. exact Hn.
Qed.

(** ** Parity padding and numbering *)

Lemma paginate_cases gameMode history :
  let g := mjoin (fragments gameMode history) in
  (length g mod 2 = 0 /\ paginate gameMode history = g)
  \/ (length g mod 2 = 1
      /\ paginate gameMode history = g ++ [fillerPage (S (length g))]).
Proof.
  unfold paginate, padEven. rewrite generated_eq. cbn [generatedPages].
  destruct (Nat.eqb_spec (length (mjoin (fragments gameMode history)) mod 2) 0)
    as [E|E]; cbn [negb].
  - left. auto.
  - right. split; [|reflexivity].
    pose proof (Nat.mod_upper_bound
                  (length (mjoin (fragments gameMode history))) 2).
    lia.
Qed.

(** C3 (evenness): the number of pages is even for every history; the pages
    are those generated for the nodes, followed, exactly when their number is
    odd, by one filler page with empty content, empty chapter title and the
    next page number. *)
Theorem pages_even gameMode currentNode storyHistory :
  let ps := pages gameMode currentNode storyHistory in
  let g := generatedPages
             (generated gameMode (effectiveHistory currentNode storyHistory)) in
  length ps mod 2 = 0
  /\ (length g mod 2 = 0 -> ps = g)
  /\ (length g mod 2 <> 0 ->
      exists filler,
        ps = g ++ [filler]
        /\ content filler = []
        /\ chapterTitle filler = Some []
        /\ choices filler = None
        /\ pageNumber filler = S (length g)).
Proof.
  unfold pages. set (h := effectiveHistory currentNode storyHistory).
  rewrite generated_eq. cbn [generatedPages].
  destruct (paginate_cases gameMode h) as [[E ->]|[E ->]].
  - split; [exact E|]. split; [reflexivity|]. intros; lia.
  - split.
    + rewrite length_app. cbn [length].
      rewrite Nat.Div0.add_mod, E. reflexivity.
    + split; [intros; lia|]. intros _.
      exists (fillerPage (S (length (mjoin (fragments gameMode h))))).
      repeat split; reflexivity.
Qed.

(** C4 (monotonic numbering): the page numbers of the output are
    1, 2, 3, ... in output order, whatever produced the pages. *)
Theorem pages_numbered gameMode currentNode storyHistory :
  map pageNumber (pages gameMode currentNode storyHistory)
  = seq 1 (length (pages gameMode currentNode storyHistory)).
Proof.
  unfold pages. set (h := effectiveHistory currentNode storyHistory).
  destruct (paginate_cases gameMode h) as [[_ ->]|[_ ->]].
  - apply generated_numbers.
  - rewrite map_app, length_app, seq_app, generated_numbers. reflexivity.
Qed.

(** ** The packing loop *)

Lemma closes_snoc b chunk w :
  (b <=? length (chunk ++ [w]))
  && (endsSentence w || (b + 20 <? length (chunk ++ [w]))) = true
  <-> closes b (chunk ++ [w]).
Proof.
  unfold closes. rewrite last_snoc. simpl.
  rewrite andb_true_iff, orb_true_iff, Nat.leb_le, Nat.ltb_lt. reflexivity.
Qed.

Lemma chunker_greedy section words :
  forall isFirst chunk,
    (forall k, 0 < k <= length chunk ->
               ~ closes (limitOf isFirst section) (take k chunk)) ->
    let r := chunker section isFirst chunk words in
    mjoin r.1 ++ r.2.1 = chunk ++ words
    /\ (forall i c, r.1 !! i = Some c ->
          closes (budgetFrom section isFirst i) c
          /\ forall k, 0 < k < length c ->
                       ~ closes (budgetFrom section isFirst i) (take k c))
    /\ (forall k, 0 < k <= length r.2.1 ->
          ~ closes (budgetFrom section isFirst (length r.1)) (take k r.2.1))
    /\ r.2.2 = (if length r.1 =? 0 then isFirst else false).
Proof.
  induction words as [|w ws IH]; intros isFirst chunk Hinv; simpl.
  - rewrite app_nil_r. split; [reflexivity|]. split; [|split; [|reflexivity]].
    + intros i c Hi. rewrite lookup_nil in Hi. discriminate.
    + intros k Hk. apply Hinv, Hk.
  - destruct ((limitOf isFirst section <=? length (chunk ++ [w]))
              && (endsSentence w
                  || (limitOf isFirst section + 20 <? length (chunk ++ [w]))))
      eqn:Hc.
    + apply closes_snoc in Hc.
      destruct (IH false []) as (Hcat & Hclosed & Hrest & Hflag).
      { intros k Hk. simpl in Hk. lia. }
      simpl. split; [|split; [|split]].
      * rewrite <- !app_assoc. rewrite Hcat. reflexivity.
      * intros [|i] c Hi; simpl in Hi.
        -- injection Hi as <-. split; [exact Hc|].
           intros k Hk. rewrite length_app in Hk. simpl in Hk.
           rewrite take_app_le by lia. apply Hinv. lia.
        -- apply Hclosed in Hi. destruct i; exact Hi.
      * intros k Hk. specialize (Hrest k Hk).
        unfold budgetFrom in *. simpl.
        destruct (length (chunker section false [] ws).1); exact Hrest.
      * rewrite Hflag. destruct (length (chunker section false [] ws).1); reflexivity.
    + assert (Hn : ~ closes (limitOf isFirst section) (chunk ++ [w])).
      { intros H. apply closes_snoc in H. congruence. }
      destruct (IH isFirst (chunk ++ [w])) as (Hcat & Hclosed & Hrest & Hflag).
      { intros k Hk. rewrite length_app in Hk. simpl in Hk.
        destruct (decide (k <= length chunk)).
        - rewrite take_app_le by lia. apply Hinv. lia.
        - rewrite take_ge by (rewrite length_app; simpl; lia). exact Hn. }
      rewrite <- app_assoc in Hcat. auto.
Qed.

(** Every token of [s.split(' ')] is free of spaces, there is at least one
    token, and joining them gives [s] back. *)
Lemma splitSpace_not_nil s : splitSpace s <> [].
Proof.
  destruct s as [|c s]; simpl; [discriminate|].
  destruct (c =? SP)%N; [discriminate|].
  destruct (splitSpace s); discriminate.
Qed.

Lemma splitSpace_no_space s : Forall (fun w => SP ∉ w) (splitSpace s).
Proof.
  induction s as [|c s IH]; simpl.
  - constructor; [apply not_elem_of_nil | constructor].
  - destruct (N.eqb_spec c SP) as [E|E].
    + constructor; [apply not_elem_of_nil | exact IH].
    + destruct (splitSpace s) as [|w ws]; simpl.
      * constructor; [|constructor]. rewrite elem_of_cons. intros [H|H]; [congruence|].
        revert H. apply not_elem_of_nil.
      * inversion IH as [|? ? Hw Hws]; subst. constructor; [|exact Hws].
        rewrite elem_of_cons. intros [H|H]; [congruence|auto].
Qed.

Lemma splitSpace_app_space w s :
  SP ∉ w -> splitSpace (w ++ SP :: s) = w :: splitSpace s.
Proof.
  induction w as [|c w IH]; intros Hw; simpl.
  - reflexivity.
  - rewrite not_elem_of_cons in Hw. destruct Hw as [Hc Hw].
    destruct (N.eqb_spec c SP) as [E|E]; [congruence|].
    rewrite IH by exact Hw. reflexivity.
Qed.

Lemma splitSpace_word w : SP ∉ w -> splitSpace w = [w].
Proof.
  induction w as [|c w IH]; intros Hw; simpl.
  - reflexivity.
  - rewrite not_elem_of_cons in Hw. destruct Hw as [Hc Hw].
    destruct (N.eqb_spec c SP) as [E|E]; [congruence|].
    rewrite IH by exact Hw. reflexivity.
Qed.

(** [chunk.join(' ').split(' ')] gives a non-empty chunk of tokens back. *)
Lemma splitSpace_joinSpace ws :
  ws <> [] -> Forall (fun w => SP ∉ w) ws -> splitSpace (joinSpace ws) = ws.
Proof.
  induction ws as [|w ws IH]; intros Hne Hws; [congruence|].
  inversion Hws as [|? ? Hw Hws']; subst.
  destruct ws as [|w' ws].
  - simpl. apply splitSpace_word, Hw.
  - change (joinSpace (w :: w' :: ws)) with (w ++ SP :: joinSpace (w' :: ws)).
    rewrite splitSpace_app_space by exact Hw.
    rewrite IH; [reflexivity|discriminate|exact Hws'].
Qed.

Lemma joinSpace_splitSpace s : joinSpace (splitSpace s) = s.
Proof.
  induction s as [|c s IH]; simpl; [reflexivity|].
  destruct (N.eqb_spec c SP) as [E|E].
  - pose proof (splitSpace_not_nil s) as Hne.
    destruct (splitSpace s) as [|w ws] eqn:Es; [congruence|].
    change (joinSpace ([] :: w :: ws)) with (SP :: joinSpace (w :: ws)).
    rewrite IH, E. reflexivity.
  - pose proof (splitSpace_not_nil s) as Hne.
    destruct (splitSpace s) as [|w ws] eqn:Es; [congruence|].
    destruct ws as [|w' ws]; simpl in *; rewrite <- IH; reflexivity.
Qed.

Lemma budget_budgetFrom section i : budgetFrom section true i = budget section i.
Proof.
  unfold budgetFrom, budget, limitOf.
  destruct i, (isNewChapter section); reflexivity.
Qed.

(** The chunks of a section: the greedy rule, from the first page on. *)
Lemma chunks_of_section section :
  mjoin (closedChunks section) ++ leftover section = splitSpace (body section)
  /\ (forall i c, closedChunks section !! i = Some c ->
        closes (budget section i) c
        /\ forall k, 0 < k < length c -> ~ closes (budget section i) (take k c))
  /\ (forall k, 0 < k <= length (leftover section) ->
        ~ closes (budget section (length (closedChunks section)))
                 (take k (leftover section)))
  /\ (chunker section true [] (splitSpace (body section))).2.2
     = (length (closedChunks section) =? 0).
Proof.
  unfold closedChunks, leftover.
  destruct (chunker_greedy section (splitSpace (body section)) true [])
    as (Hcat & Hclosed & Hrest & Hflag).
  { intros k Hk. simpl in Hk. lia. }
  split; [exact Hcat|]. split; [|split].
  - intros i c Hi. rewrite <- budget_budgetFrom. apply Hclosed, Hi.
  - intros k Hk. rewrite <- budget_budgetFrom. apply Hrest, Hk.
  - rewrite Hflag.
    destruct (length (chunker section true [] (splitSpace (body section))).1);
      reflexivity.
Qed.

Lemma budget_pos section i : 0 < budget section i.
Proof.
  unfold budget, WORDS_PER_PAGE. destruct (_ && _); simpl; lia.
Qed.

Lemma closedChunks_not_nil section c : c ∈ closedChunks section -> c <> [].
Proof.
  intros Hc. apply list_elem_of_lookup in Hc as [i Hi].
  destruct (chunks_of_section section) as (_ & Hclosed & _).
  destruct (Hclosed i c Hi) as [[Hlen _] _].
  pose proof (budget_pos section i). intros ->. simpl in Hlen. lia.
Qed.

(** When nothing is left in the buffer a page was closed, so the flag is
    down: the second test of the final [if] never decides. *)
Lemma leftover_nil section :
  leftover section = [] -> closedChunks section <> [].
Proof.
  intros Hr Hcs.
  destruct (chunks_of_section section) as (Hcat & _).
  rewrite Hr, Hcs in Hcat. simpl in Hcat.
  symmetry in Hcat. exact (splitSpace_not_nil _ Hcat).
Qed.

Lemma endPages_eq node nSections section sIdx n :
  endPages node nSections section sIdx n = lastPages node nSections section sIdx n.
Proof.
  unfold endPages, lastPages.
  destruct (chunks_of_section section) as (_ & _ & _ & Hflag).
  fold (leftover section). fold (closedChunks section). rewrite Hflag.
  destruct (leftover section) as [|w r] eqn:Hr; simpl.
  - apply leftover_nil in Hr.
    destruct (closedChunks section); [congruence|reflexivity].
  - reflexivity.
Qed.

Lemma sectionPages_shape node nSections section sIdx n :
  sectionPages node nSections section sIdx n
  = closedPages node section sIdx true n (closedChunks section)
    ++ lastPages node nSections section sIdx n.
Proof. rewrite sectionPages_eq, endPages_eq. reflexivity. Qed.

Lemma closedPages_content node section sIdx chunks :
  forall isFirst n,
    map content (closedPages node section sIdx isFirst n chunks)
    = map joinSpace chunks.
Proof.
  induction chunks as [|c cs IH]; intros isFirst n; simpl; [reflexivity|].
  rewrite IH. reflexivity.
Qed.

Lemma packSection_pages node nSections st section sIdx :
  generatedPages (packSection node nSections st section sIdx)
  = generatedPages st
    ++ sectionPages node nSections section sIdx (globalPageCount st).
Proof.
  destruct (grows_packSection node nSections section sIdx st) as (H & _).
  exact H.
Qed.

(** C2 (greedy packing rule): the pages a section adds hold, in order, the
    chunks of its tokens (the body split on single spaces) cut by this rule:
    the budget is 130, and 80 for the first page of a new chapter; a chunk
    closes at the first token at which the buffer has reached the budget and
    either the token ends in a full stop, exclamation or question mark with
    an optional closing quote, or the buffer is more than 20 tokens over the
    budget; the buffer left at the end never met that test. *)
Theorem greedy_packing node nSections st section sIdx :
  exists (chunks : list (list jsstring)) (rest : list jsstring),
    mjoin chunks ++ rest = splitSpace (body section)
    /\ map content
           (drop (length (generatedPages st))
                 (generatedPages (packSection node nSections st section sIdx)))
       = map joinSpace (chunks ++ match rest with [] => [] | _ => [rest] end)
    /\ (forall i c, chunks !! i = Some c ->
          closes (budget section i) c
          /\ forall k, 0 < k < length c ->
                       ~ closes (budget section i) (take k c))
    /\ (forall k, 0 < k <= length rest ->
          ~ closes (budget section (length chunks)) (take k rest))
    /\ budget section 0
       = (if isNewChapter section then WORDS_PER_PAGE - 50 else WORDS_PER_PAGE)
    /\ (forall i, 0 < i -> budget section i = WORDS_PER_PAGE)
    /\ WORDS_PER_PAGE = 130.
Proof.
  exists (closedChunks section), (leftover section).
  destruct (chunks_of_section section) as (Hcat & Hclosed & Hrest & _).
  split; [exact Hcat|]. split; [|split; [exact Hclosed|split; [exact Hrest|]]].
  - rewrite packSection_pages, drop_app_length, sectionPages_shape.
    rewrite !map_app, closedPages_content. f_equal.
    unfold lastPages. destruct (leftover section); reflexivity.
  - split; [|split; [|reflexivity]].
    + unfold budget. destruct (isNewChapter section); reflexivity.
    + intros i Hi. unfold budget. destruct i; [lia|].
      destruct (isNewChapter section); reflexivity.
Qed.

(** ** The pages of one node *)

Lemma out_sections node nSections secs :
  forall sIdx n,
    out (forEachFrom (packSection node nSections) sIdx secs) n
    = sectionsPagesFrom node nSections sIdx n secs.
Proof.
  induction secs as [|s secs IH]; intros sIdx n.
  - reflexivity.
  - rewrite out_forEachFrom_cons by (intros; apply grows_packSection).
    simpl. rewrite IH. reflexivity.
Qed.

Lemma nodePages_eq gameMode node nodeIndex n :
  nodePages gameMode node nodeIndex n
  = visualPages gameMode node nodeIndex n
    ++ sectionsPagesFrom node (length (sections node)) 0
         (n + length (visualPages gameMode node nodeIndex n)) (sections node).
Proof.
  unfold nodePages, processNode, visualPages.
  set (c := truthyOpt (backgroundImagePrompt node)
            && ((nodeIndex =? 0) || isInteractive gameMode)).
  pose proof (out_seq
           (fun st => if c then push (visualPage node (backgroundImagePrompt node)) st
                      else st)
           (forEach (packSection node (length (sections node))) (sections node)) n)
    as H.
  unfold out at 1 in H. cbv beta in H. rewrite H; clear H.
  - unfold forEach. rewrite out_sections. destruct c; reflexivity.
  - destruct c; [apply grows_push; reflexivity | apply grows_skip].
  - apply grows_forEachFrom. intros; apply grows_packSection.
Qed.

(** ** No word is lost *)

Lemma textWords_app ps qs : textWords (ps ++ qs) = textWords ps ++ textWords qs.
Proof.
  unfold textWords. rewrite filter_app, map_app. apply join_app.
Qed.

Lemma textWords_one p :
  isText p = true -> textWords [p] = splitSpace (content p).
Proof.
  intros Hp. unfold textWords. rewrite filter_cons_True by exact Hp.
  simpl. apply app_nil_r.
Qed.

Lemma textWords_closed node section sIdx chunks :
  Forall (fun c => c <> [] /\ Forall (fun w => SP ∉ w) c) chunks ->
  forall isFirst n,
    textWords (closedPages node section sIdx isFirst n chunks) = mjoin chunks.
Proof.
  induction 1 as [|c cs [Hne Hsp] _ IH]; intros isFirst n; [reflexivity|].
  change (closedPages node section sIdx isFirst n (c :: cs))
    with ([closedPage node section sIdx c isFirst n]
            ++ closedPages node section sIdx false (S n) cs).
  rewrite textWords_app, IH, textWords_one by reflexivity.
  change (splitSpace (joinSpace c) ++ mjoin cs = c ++ mjoin cs).
  rewrite splitSpace_joinSpace by assumption. reflexivity.
Qed.

Lemma Forall_mjoin {A} (P : A -> Prop) (ls : list (list A)) :
  Forall P (mjoin ls) -> Forall (Forall P) ls.
Proof.
  induction ls as [|l ls IH]; simpl; intros H; [constructor|].
  apply Forall_app in H as [H1 H2]. constructor; auto.
Qed.

Lemma textWords_section node nSections section sIdx n :
  textWords (sectionPages node nSections section sIdx n)
  = splitSpace (body section).
Proof.
  rewrite sectionPages_shape, textWords_app.
  destruct (chunks_of_section section) as (Hcat & _).
  pose proof (splitSpace_no_space (body section)) as Hsp.
  rewrite <- Hcat in Hsp. apply Forall_app in Hsp as [Hcs Hrest].
  apply Forall_mjoin in Hcs.
  rewrite textWords_closed.
  - rewrite <- Hcat. f_equal. unfold lastPages.
    destruct (leftover section) as [|w r] eqn:Hr; [reflexivity|].
    rewrite textWords_one by reflexivity.
    change (splitSpace (joinSpace (w :: r)) = w :: r).
    apply splitSpace_joinSpace; [discriminate|exact Hrest].
  - apply Forall_forall. intros c Hc. split.
    + exact (closedChunks_not_nil section c Hc).
    + rewrite Forall_forall in Hcs. apply Hcs, Hc.
Qed.

(** Joined by single spaces, the words on the pages of a section are its
    body. *)
Lemma section_text_restored node nSections section sIdx n :
  joinSpace (textWords (sectionPages node nSections section sIdx n))
  = body section.
Proof. rewrite textWords_section. apply joinSpace_splitSpace. Qed.

Lemma textWords_sections node nSections secs :
  forall sIdx n,
    textWords (sectionsPagesFrom node nSections sIdx n secs)
    = mjoin (map (fun s => splitSpace (body s)) secs).
Proof.
  induction secs as [|s secs IH]; intros sIdx n; simpl; [reflexivity|].
  rewrite textWords_app, textWords_section, IH. reflexivity.
Qed.

Lemma textWords_node gameMode node nodeIndex n :
  textWords (nodePages gameMode node nodeIndex n) = sectionWords node.
Proof.
  rewrite nodePages_eq, textWords_app, textWords_sections.
  unfold visualPages. destruct (_ && _); reflexivity.
Qed.

Lemma fragments_words gameMode history :
  forall nodeIndex n,
    Forall2 (fun node ps => textWords ps = sectionWords node)
            history (fragmentsFrom gameMode nodeIndex n history).
Proof.
  induction history as [|node h IH]; intros nodeIndex n; simpl; constructor.
  - apply textWords_node.
  - apply IH.
Qed.

(** C1 (no word loss): the output is the pages of the fragments of the
    history, in order, followed by at most one page, the filler, whose content
    is empty; and for every fragment the words on its text pages, in page
    order, are the words of its section bodies in their original order. *)
Theorem no_word_loss gameMode currentNode storyHistory :
  let history := effectiveHistory currentNode storyHistory in
  exists filler,
    pages gameMode currentNode storyHistory
    = mjoin (fragments gameMode history) ++ filler
    /\ (filler = []
        \/ exists n, filler = [fillerPage n] /\ content (fillerPage n) = [])
    /\ Forall2 (fun node ps => textWords ps = sectionWords node)
               history (fragments gameMode history).
Proof.
  intros history. unfold pages. fold history.
  destruct (paginate_cases gameMode history) as [[_ ->]|[_ ->]].
  - exists []. rewrite app_nil_r. split; [reflexivity|]. split; [left; reflexivity|].
    apply fragments_words.
  - eexists. split; [reflexivity|]. split.
    + right. eexists. split; reflexivity.
    + apply fragments_words.
Qed.

(** ** History growth *)

Lemma fragmentsFrom_snoc gameMode history f :
  forall nodeIndex n,
    fragmentsFrom gameMode nodeIndex n (history ++ [f])
    = fragmentsFrom gameMode nodeIndex n history
      ++ [nodePages gameMode f (nodeIndex + length history)
            (n + length (mjoin (fragmentsFrom gameMode nodeIndex n history)))].
Proof.
  induction history as [|node h IH]; intros nodeIndex n; simpl.
  - rewrite !Nat.add_0_r. reflexivity.
  - rewrite IH, length_app, Nat.add_assoc, Nat.add_succ_r. reflexivity.
Qed.

(** C10 (prefix stability): for a fixed game mode and a history [history],
    the pages of [history] without the filler page are an initial segment of
    the pages of [history ++ [f]], field by field (id, number, content,
    choices and all others); the filler page is the only page of [history]
    that is not kept.  The same holds of the pages the component computes
    from a story history that is not empty, whatever its current node. *)
Theorem prefix_stable gameMode history f :
  let g := generatedPages (generated gameMode history) in
  take (length g) (paginate gameMode (history ++ [f])) = g
  /\ (exists filler,
        paginate gameMode history = g ++ filler
        /\ (filler = [] \/ filler = [fillerPage (S (length g))]))
  /\ (forall node rest currentNode currentNode',
        history = node :: rest ->
        pages gameMode currentNode history = paginate gameMode history
        /\ pages gameMode currentNode' (history ++ [f])
           = paginate gameMode (history ++ [f])).
Proof.
  rewrite generated_eq. cbn [generatedPages]. split; [|split].
  - assert (E : exists tail,
               paginate gameMode (history ++ [f])
               = mjoin (fragments gameMode history) ++ tail).
    { destruct (paginate_cases gameMode (history ++ [f])) as [[_ ->]|[_ ->]];
        unfold fragments; rewrite fragmentsFrom_snoc, join_app;
        [|rewrite <- app_assoc]; eexists; reflexivity. }
    destruct E as [tail ->]. apply take_app_length.
  - destruct (paginate_cases gameMode history) as [[_ ->]|[_ ->]].
    + exists []. rewrite app_nil_r. auto.
    + eexists. split; [reflexivity|]. right. reflexivity.
  - intros node rest currentNode currentNode' ->. split; reflexivity.
Qed.

(** ** Choices *)

Lemma closedPages_choices node section sIdx chunks :
  forall isFirst n p,
    p ∈ closedPages node section sIdx isFirst n chunks -> choices p = None.
Proof.
  induction chunks as [|c cs IH]; intros isFirst n p Hp; simpl in Hp.
  - apply elem_of_nil in Hp. contradiction.
  - apply elem_of_cons in Hp as [->|Hp]; [reflexivity|]. eapply IH, Hp.
Qed.

Lemma lastPages_choices node nSections section sIdx n p :
  p ∈ lastPages node nSections section sIdx n ->
  choices p = if sIdx =? nSections - 1 then Some (nodeChoices node) else None.
Proof.
  unfold lastPages. destruct (leftover section); intros Hp.
  - apply elem_of_nil in Hp. contradiction.
  - apply list_elem_of_singleton in Hp as ->. reflexivity.
Qed.

(** In the pages of the sections of a node, a page with a [choices] value
    is the last of them and holds the choices of the node. *)
Lemma sectionsPages_choices node nSections secs :
  forall sIdx n j p,
    nSections = sIdx + length secs ->
    sectionsPagesFrom node nSections sIdx n secs !! j = Some p ->
    choices p <> None ->
    S j = length (sectionsPagesFrom node nSections sIdx n secs)
    /\ choices p = Some (nodeChoices node).
Proof.
  induction secs as [|s secs IH]; intros sIdx n j p HnS Hj Hp; simpl in *.
  - rewrite lookup_nil in Hj. discriminate.
  - rewrite length_app. apply lookup_app_Some in Hj as [Hj|[Hge Hj]].
    + rewrite sectionPages_shape in Hj.
      apply lookup_app_Some in Hj as [Hj|[Hge Hj]].
      * apply list_elem_of_lookup_2, closedPages_choices in Hj. congruence.
      * pose proof Hj as Hin. apply list_elem_of_lookup_2 in Hin.
        apply lastPages_choices in Hin.
        destruct (Nat.eqb_spec sIdx (nSections - 1)) as [E|E]; [|congruence].
        split; [|exact Hin].
        assert (secs = []) as -> by (destruct secs; [reflexivity|simpl in HnS; lia]).
        simpl. rewrite sectionPages_shape, length_app.
        apply lookup_lt_Some in Hj.
        assert (length (lastPages node nSections s sIdx n) <= 1)
          by (unfold lastPages; destruct (leftover s); simpl; lia).
        lia.
    + eapply IH in Hj; [|lia|exact Hp]. destruct Hj as [Hlen Hc].
      split; [lia|exact Hc].
Qed.

Lemma sectionsPages_last node nSections secs :
  forall sIdx n section,
    nSections = sIdx + length secs ->
    last secs = Some section ->
    leftover section <> [] ->
    exists p, last (sectionsPagesFrom node nSections sIdx n secs) = Some p
              /\ choices p = Some (nodeChoices node)
              /\ content p = joinSpace (leftover section).
Proof.
  induction secs as [|s secs IH]; intros sIdx n section HnS Hlast Hrest.
  - discriminate.
  - destruct secs as [|s' secs].
    + simpl in Hlast. injection Hlast as ->. simpl. rewrite app_nil_r.
      rewrite sectionPages_shape. unfold lastPages.
      destruct (leftover section) as [|w r] eqn:Hr; [congruence|].
      rewrite last_snoc. eexists. split; [reflexivity|]. simpl.
      replace (sIdx =? nSections - 1) with true
        by (symmetry; apply Nat.eqb_eq; simpl in HnS; lia).
      split; reflexivity.
    + change (last (s :: s' :: secs)) with (last (s' :: secs)) in Hlast.
      destruct (IH (S sIdx) (n + length (sectionPages node nSections s sIdx n))
                   section) as (p & Hp & Hc); [simpl in *; lia|exact Hlast|exact Hrest|].
      exists p. split; [|exact Hc].
      change (sectionsPagesFrom node nSections sIdx n (s :: s' :: secs))
        with (sectionPages node nSections s sIdx n
              ++ sectionsPagesFrom node nSections (S sIdx)
                   (n + length (sectionPages node nSections s sIdx n)) (s' :: secs)).
      rewrite last_app, Hp. reflexivity.
Qed.

Lemma nodePages_choices gameMode node nodeIndex n :
  choicesAtEnd node (nodePages gameMode node nodeIndex n).
Proof.
  rewrite nodePages_eq. split.
  - intros j p Hj Hp. rewrite length_app.
    apply lookup_app_Some in Hj as [Hj|[Hge Hj]].
    + unfold visualPages in Hj. destruct (_ && _).
      * apply list_lookup_singleton_Some in Hj as [_ <-]. simpl in Hp. congruence.
      * rewrite lookup_nil in Hj. discriminate.
    + eapply sectionsPages_choices in Hj; [|reflexivity|exact Hp].
      destruct Hj as [Hlen Hc]. split; [lia|exact Hc].
  - intros section Hlast Hrest.
    destruct (sectionsPages_last node (length (sections node)) (sections node) 0
                (n + length (visualPages gameMode node nodeIndex n)) section)
      as (p & Hp & Hc & _); [reflexivity|exact Hlast|exact Hrest|].
    exists p. split; [|exact Hc]. rewrite last_app, Hp. reflexivity.
Qed.

Lemma fragments_choices gameMode history :
  forall nodeIndex n,
    Forall2 choicesAtEnd history (fragmentsFrom gameMode nodeIndex n history).
Proof.
  induction history as [|node h IH]; intros nodeIndex n; simpl; constructor.
  - apply nodePages_choices.
  - apply IH.
Qed.

(** Counterexample to the stated choice placement: with two fragments that
    both have choices, the page of the first fragment still carries its
    choices. *)
Lemma choice_placement_counterexample :
  ~ choicePlacementClaim INTERACTIVE
      [mkNode (str "a") (str "T") (str "One.") [aChoice "x"] None]
      (mkNode (str "b") (str "T") (str "Two.") [aChoice "y"] None).
Proof.
  intros H. destruct H as (i & p & Hi & Hp & Hother); [discriminate|].
  destruct i as [|[|i]].
  - vm_compute in Hi. injection Hi as <-. vm_compute in Hp. discriminate.
  - specialize (Hother 0 _ eq_refl). vm_compute in Hother.
    specialize (Hother ltac:(discriminate)). discriminate.
  - vm_compute in Hi. destruct i; discriminate.
Qed.

(** C5 (choice placement, amended): for every fragment of the history,
    whether the most recent or not, a page produced from it that has a
    [choices] value is the last page produced from it and holds the choices
    of that fragment; that page is produced whenever the packing of the last
    section of the fragment leaves a non-empty buffer.  The filler page has no
    choices. *)
Theorem choice_placement gameMode currentNode storyHistory :
  let history := effectiveHistory currentNode storyHistory in
  Forall2 choicesAtEnd history (fragments gameMode history)
  /\ exists filler,
       pages gameMode currentNode storyHistory
       = mjoin (fragments gameMode history) ++ filler
       /\ Forall (fun p => choices p = None) filler.
Proof.
  intros history. split; [apply fragments_choices|].
  unfold pages. fold history.
  destruct (paginate_cases gameMode history) as [[_ ->]|[_ ->]].
  - exists []. rewrite app_nil_r. split; [reflexivity|constructor].
  - eexists. split; [reflexivity|]. repeat constructor.
Qed.

(** ** ChapterSplitter *)

Lemma splitMarkersFrom_no_marker s :
  forall cur,
    hasMarker s = false -> splitMarkersFrom false cur s = [reverse cur ++ s].
Proof.
  induction s as [|c s IH]; intros cur H.
  - simpl. rewrite app_nil_r. reflexivity.
  - cbn [hasMarker] in H. apply orb_false_iff in H as [Hm Hs].
    cbn [splitMarkersFrom andb]. rewrite Hm, IH by exact Hs.
    rewrite reverse_cons, <- app_assoc. reflexivity.
Qed.

(** The white space of a separator is skipped up to the first character
    that is not white space. *)
Lemma splitMarkersFrom_separator ws rest cur :
  forallb isSpace ws = true ->
  match rest with [] => True | c :: _ => isSpace c = false end ->
  splitMarkersFrom true cur (ws ++ rest) = splitMarkersFrom false cur rest.
Proof.
  intros Hws Hrest. induction ws as [|w ws IH].
  - destruct rest as [|c rest]; [reflexivity|].
    cbn [app splitMarkersFrom]. rewrite Hrest. reflexivity.
  - cbn [forallb] in Hws. apply andb_true_iff in Hws as [Hw Hws].
    cbn [app splitMarkersFrom]. rewrite Hw. cbn [andb]. apply IH, Hws.
Qed.

(** The equation of [split]: the first piece is the text before the leftmost
    match of the marker, and the rest is split from the end of that match,
    which takes all the white space after the hashes. *)
Lemma splitMarkersFrom_leftmost pre :
  forall cur w ws rest,
    (forall k, k < length pre ->
       markerAt (drop k (pre ++ LF :: HASH :: HASH :: w :: ws ++ rest)) = false) ->
    isSpace w = true ->
    forallb isSpace ws = true ->
    match rest with [] => True | c :: _ => isSpace c = false end ->
    splitMarkersFrom false cur (pre ++ LF :: HASH :: HASH :: w :: ws ++ rest)
    = (reverse cur ++ pre) :: splitMarkersFrom false [] rest.
Proof.
  induction pre as [|c pre IH]; intros cur w ws rest Hpre Hw Hws Hrest.
  - cbn [app splitMarkersFrom andb markerAt]. rewrite Hw.
    change ((LF =? LF)%N && (HASH =? HASH)%N && (HASH =? HASH)%N && true)
      with true. cbv iota.
    rewrite app_nil_r, splitMarkersFrom_separator by assumption. reflexivity.
  - pose proof (Hpre 0 ltac:(simpl; lia)) as H0. rewrite drop_0 in H0.
    change ((c :: pre) ++ LF :: HASH :: HASH :: w :: ws ++ rest)
      with (c :: (pre ++ LF :: HASH :: HASH :: w :: ws ++ rest)) in *.
    cbn [splitMarkersFrom andb]. rewrite H0.
    rewrite IH; [|intros k Hk; apply (Hpre (S k)); simpl; lia|assumption..].
    rewrite reverse_cons, <- app_assoc. reflexivity.
Qed.

Lemma trim_LF s : trim (LF :: s) = trim s.
Proof. reflexivity. Qed.

Lemma dropSpaces_app l x c :
  isSpace c = false -> exists l', dropSpaces (l ++ c :: x) = l' ++ c :: x.
Proof.
  intros Hc. induction l as [|d l IH]; simpl.
  - exists []. rewrite Hc. reflexivity.
  - destruct IH as [l' IH]. destruct (isSpace d).
    + exists l'. exact IH.
    + exists (d :: l). reflexivity.
Qed.

(** Content that starts with [##] still does after [trim]. *)
Lemma startsWith_hashes_trim s :
  startsWith (str "##") s = true -> startsWith (str "##") (trim s) = true.
Proof.
  change (str "##") with [HASH; HASH].
  destruct s as [|a [|b s]]; cbn [startsWith]; intros H;
    [discriminate H | rewrite andb_false_r in H; discriminate H |].
  revert H.
  destruct (N.eqb_spec HASH a) as [<-|]; [|discriminate].
  destruct (N.eqb_spec HASH b) as [<-|]; [|discriminate].
  intros _. unfold trim. cbn [dropSpaces]. change (isSpace HASH) with false. cbv iota.
  rewrite !reverse_cons, <- app_assoc.
  change ([HASH] ++ [HASH]) with (HASH :: [HASH]).
  destruct (dropSpaces_app (reverse s) [HASH] HASH eq_refl) as [l' ->].
  rewrite reverse_app. reflexivity.
Qed.

Lemma stripHashes_id t : startsWith [HASH] t = false -> stripHashes t = t.
Proof. unfold stripHashes. intros ->. reflexivity. Qed.

(** Counterexample to the stated continuation rule: the title of the
    continuation section is the chapter title of the fragment without its
    leading hashes. *)
Lemma continuation_counterexample :
  ~ continuationClaim (mkNode (str "n") (str "#1 Dawn") (str "hello") [] None).
Proof.
  intros [H _].
  destruct (H eq_refl eq_refl eq_refl) as (s & Hs & Ht & _).
  vm_compute in Hs. injection Hs as <-. vm_compute in Ht. discriminate.
Qed.

(** C6 (continuation rule, amended): when no position of the content, with a
    line feed put in front, matches a line feed, two hashes and a white-space
    character, the content is not all white space, and the trimmed content
    does not start with two hashes, there is exactly one section; it is a
    continuation, its body is the content after a line feed, and its title is
    the chapter title of the fragment with leading hashes and the white space
    after them removed (the chapter title itself when it starts with no hash).
    When the trimmed content starts with two hashes, which is so when the
    content does, a zeroth piece that is kept is a new chapter. *)
Theorem continuation_rule node :
  (hasMarker (LF :: nodeContent node) = false ->
   truthy (trim (nodeContent node)) = true ->
   startsWith (str "##") (trim (nodeContent node)) = false ->
   sections node
   = [ {| title := stripHashes (nodeChapterTitle node);
          body := LF :: nodeContent node;
          isNewChapter := false |} ])
  /\ (startsWith [HASH] (nodeChapterTitle node) = false ->
      stripHashes (nodeChapterTitle node) = nodeChapterTitle node)
  /\ (startsWith (str "##") (nodeContent node) = true ->
      startsWith (str "##") (trim (nodeContent node)) = true)
  /\ (startsWith (str "##") (trim (nodeContent node)) = true ->
      forall piece s, toSection node 0 piece = Some s -> isNewChapter s = true).
Proof.
  split; [|split; [apply stripHashes_id|split; [apply startsWith_hashes_trim|]]].
  - intros Hm Ht Hs.
    unfold sections, rawSections, splitMarkers.
    rewrite splitMarkersFrom_no_marker by exact Hm.
    cbn [reverse rev_append app imap omap].
    unfold toSection. rewrite trim_LF, Ht, Hs. reflexivity.
  - intros Hs piece s. unfold toSection. rewrite Hs.
    cbn [Nat.eqb Nat.ltb Nat.leb andb orb].
    destruct (negb (truthy (trim piece))); [discriminate|].
    destruct (indexOf LF piece); intros [= <-]; reflexivity.
Qed.

(** ** Empty input *)

Lemma isSpace_not_hash c : isSpace c = true -> (c =? HASH)%N = false.
Proof.
  intros Hc. destruct (N.eqb_spec c HASH) as [->|]; [discriminate Hc|reflexivity].
Qed.

Lemma hasMarker_spaces s :
  forallb isSpace s = true -> forall c, hasMarker (c :: s) = false.
Proof.
  induction s as [|b s IH]; intros Hs c.
  - reflexivity.
  - cbn [forallb] in Hs. apply andb_true_iff in Hs as [Hb Hs].
    change (hasMarker (c :: b :: s))
      with (markerAt (c :: b :: s) || hasMarker (b :: s)).
    rewrite (IH Hs b), orb_false_r.
    unfold markerAt. destruct s as [|b2 [|b3 s]]; try reflexivity.
    rewrite (isSpace_not_hash b Hb), andb_false_r. reflexivity.
Qed.

Lemma dropSpaces_spaces s : forallb isSpace s = true -> dropSpaces s = [].
Proof.
  induction s as [|c s IH]; simpl; [reflexivity|].
  intros H. apply andb_true_iff in H as [-> Hs]. auto.
Qed.

Lemma trim_spaces s : forallb isSpace s = true -> trim s = [].
Proof.
  intros H. unfold trim. rewrite (dropSpaces_spaces s H). reflexivity.
Qed.

Lemma sections_blank node :
  forallb isSpace (nodeContent node) = true -> sections node = [].
Proof.
  intros H. unfold sections, rawSections, splitMarkers.
  rewrite splitMarkersFrom_no_marker by (apply hasMarker_spaces, H).
  cbn [reverse rev_append app imap omap].
  unfold toSection. rewrite trim_LF, trim_spaces by exact H. reflexivity.
Qed.

Lemma sectionPages_not_nil node nSections section sIdx n :
  sectionPages node nSections section sIdx n <> [].
Proof.
  rewrite sectionPages_shape. unfold lastPages.
  destruct (leftover section) as [|w r] eqn:Hr.
  - apply leftover_nil in Hr.
    destruct (closedChunks section); [congruence|discriminate].
  - intros H. apply app_eq_nil in H as [_ H]. discriminate.
Qed.

(** Counterexample to the stated degradation: a fragment with empty content
    and no illustration prompt produces no page at all, and the book of that
    single fragment is empty. *)
Lemma degradation_counterexample :
  ~ degradationClaim INTERACTIVE [mkNode (str "n") (str "T") [] [] None].
Proof.
  intros H. inversion H as [|? ? ? ? Hps _]; subst.
  apply Hps; reflexivity.
Qed.

(** C7 (degradation on empty input, amended): pagination and splitting are
    total functions of the content.  A fragment whose content is empty or all
    white space has no section and produces no text page, only its
    illustration page if it has one; every section that is kept, a chapter
    start with an empty body included, produces at least one page, and the
    page of a section with an empty body is blank. *)
Theorem degradation_on_empty gameMode node nodeIndex n :
  (forallb isSpace (nodeContent node) = true ->
   sections node = []
   /\ nodePages gameMode node nodeIndex n = visualPages gameMode node nodeIndex n
   /\ Forall (fun p => type p = FULL_IMAGE)
             (nodePages gameMode node nodeIndex n))
  /\ (forall section sIdx m,
        sectionPages node (length (sections node)) section sIdx m <> [])
  /\ (forall section sIdx m,
        body section = [] ->
        map content (sectionPages node (length (sections node)) section sIdx m)
        = [[]]).
Proof.
  split; [|split].
  - intros H. pose proof (sections_blank node H) as Hs.
    split; [exact Hs|].
    assert (E : nodePages gameMode node nodeIndex n
                = visualPages gameMode node nodeIndex n).
    { rewrite nodePages_eq, Hs. simpl. apply app_nil_r. }
    split; [exact E|]. rewrite E. unfold visualPages.
    destruct (_ && _); repeat constructor.
  - intros. apply sectionPages_not_nil.
  - intros section sIdx m Hb.
    rewrite sectionPages_shape. unfold lastPages, closedChunks, leftover.
    rewrite Hb. cbn [splitSpace chunker app length].
    unfold limitOf, WORDS_PER_PAGE.
    destruct (isNewChapter section); reflexivity.
Qed.

(** ** SpreadNavigator *)

Lemma next_fixed pageCount m :
  Nat.iter m (handleNextFlip pageCount) (pageCount - 2)%Z = (pageCount - 2)%Z.
Proof.
  induction m as [|m IH]; simpl; [reflexivity|].
  rewrite IH. unfold handleNextFlip. rewrite Z.ltb_irrefl. reflexivity.
Qed.

Lemma prev_fixed m : Nat.iter m handlePrevFlip 0%Z = 0%Z.
Proof.
  induction m as [|m IH]; simpl; [reflexivity|]. rewrite IH. reflexivity.
Qed.

Lemma next_converges pageCount d :
  forall cur m,
    (pageCount - 2 - cur = 2 * Z.of_nat d)%Z -> d <= m ->
    Nat.iter m (handleNextFlip pageCount) cur = (pageCount - 2)%Z.
Proof.
  induction d as [|d IH]; intros cur m Hd Hm.
  - replace cur with (pageCount - 2)%Z by lia. apply next_fixed.
  - destruct m as [|m]; [lia|].
    rewrite Nat.iter_succ_r. unfold handleNextFlip at 2.
    destruct (Z.ltb_spec cur (pageCount - 2)); [|lia].
    apply IH; lia.
Qed.

Lemma prev_converges d :
  forall cur m,
    (cur = 2 * Z.of_nat d)%Z -> d <= m -> Nat.iter m handlePrevFlip cur = 0%Z.
Proof.
  induction d as [|d IH]; intros cur m Hd Hm.
  - replace cur with 0%Z by lia. apply prev_fixed.
  - destruct m as [|m]; [lia|].
    rewrite Nat.iter_succ_r. unfold handlePrevFlip at 2.
    destruct (Z.gtb_spec cur 0); [|lia].
    apply IH; lia.
Qed.

(** C8 (navigator bounds): [handleNextFlip] adds 2 exactly when the index is
    below [pageCount - 2] and [handlePrevFlip] subtracts 2 exactly when it is
    above 0, each doing nothing otherwise; so from an even index between 0 and
    [pageCount - 2], for an even positive [pageCount], enough advances reach
    [pageCount - 2] and every further one stays there, and enough retreats
    reach 0 and stay there. *)
Theorem navigator_bounds (pageCount cur : Z) :
  (0 < pageCount)%Z -> Z.even pageCount = true ->
  Z.even cur = true -> (0 <= cur <= pageCount - 2)%Z ->
  (forall c, (c < pageCount - 2)%Z -> handleNextFlip pageCount c = (c + 2)%Z)
  /\ (forall c, ~ (c < pageCount - 2)%Z -> handleNextFlip pageCount c = c)
  /\ (forall c, (c > 0)%Z -> handlePrevFlip c = (c - 2)%Z)
  /\ (forall c, ~ (c > 0)%Z -> handlePrevFlip c = c)
  /\ (exists k, forall m, k <= m ->
        Nat.iter m (handleNextFlip pageCount) cur = (pageCount - 2)%Z)
  /\ (exists k, forall m, k <= m -> Nat.iter m handlePrevFlip cur = 0%Z).
Proof.
  intros Hpos Hpc Hcur Hrange.
  apply Z.even_spec in Hpc as [a Ha]. apply Z.even_spec in Hcur as [b Hb].
  repeat apply conj.
  - intros c Hc. unfold handleNextFlip.
    destruct (Z.ltb_spec c (pageCount - 2)); [reflexivity|lia].
  - intros c Hc. unfold handleNextFlip.
    destruct (Z.ltb_spec c (pageCount - 2)); [lia|reflexivity].
  - intros c Hc. unfold handlePrevFlip.
    destruct (Z.gtb_spec c 0); [reflexivity|lia].
  - intros c Hc. unfold handlePrevFlip.
    destruct (Z.gtb_spec c 0); [lia|reflexivity].
  - exists (Z.to_nat (a - 1 - b)). intros m Hm.
    apply (next_converges pageCount (Z.to_nat (a - 1 - b))); [lia|exact Hm].
  - exists (Z.to_nat b). intros m Hm.
    apply (prev_converges (Z.to_nat b)); [lia|exact Hm].
Qed.

Lemma navigator_bounds_witness :
  (exists k, forall m, k <= m -> Nat.iter m (handleNextFlip 6) 2%Z = 4%Z)
  /\ (exists k, forall m, k <= m -> Nat.iter m handlePrevFlip 2%Z = 0%Z).
Proof.
  destruct (navigator_bounds 6 2) as (_ & _ & _ & _ & Hn & Hp);
    [lia | reflexivity | reflexivity | lia |].
  split; [exact Hn | exact Hp].
Defined.

(** ** Character merge *)

Lemma findIndex_Some {A} (p : A -> bool) l i :
  findIndex p l = Some i <->
  (exists c, l !! i = Some c /\ p c = true)
  /\ (forall j c', j < i -> l !! j = Some c' -> p c' = false).
Proof.
  revert i. induction l as [|x l IH]; intros i; simpl.
  - split; [discriminate|]. intros [(c & Hc & _) _]. discriminate.
  - destruct (p x) eqn:Hx.
    + split.
      * intros [= <-]. split; [exists x; auto|]. intros j c' Hj. lia.
      * intros [(c & Hc & Hpc) Hmin]. destruct i as [|i]; [reflexivity|].
        specialize (Hmin 0 x ltac:(lia) eq_refl). congruence.
    + rewrite fmap_Some. split.
      * intros (k & Hk & ->). apply IH in Hk as [Hex Hmin]. split; [exact Hex|].
        intros [|j] c' Hj Hc'; simpl in Hc'; [congruence|].
        apply (Hmin j); [lia|exact Hc'].
      * intros [(c & Hc & Hpc) Hmin]. destruct i as [|i]; simpl in Hc.
        -- congruence.
        -- exists i. split; [|reflexivity].
           apply IH. split; [exists c; auto|].
           intros j c' Hj Hc'. apply (Hmin (S j)); [lia|exact Hc'].
Qed.

Lemma findIndex_None {A} (p : A -> bool) l :
  findIndex p l = None <-> forall c, c ∈ l -> p c = false.
Proof.
  induction l as [|x l IH]; simpl.
  - split; [|reflexivity]. intros _ c Hc. apply elem_of_nil in Hc. contradiction.
  - destruct (p x) eqn:Hx.
    + split; [discriminate|]. intros H. rewrite (H x) in Hx; [discriminate|].
      apply elem_of_cons. auto.
    + rewrite fmap_None, IH. split.
      * intros H c Hc. apply elem_of_cons in Hc as [->|Hc]; [exact Hx|auto].
      * intros H c Hc. apply H, elem_of_cons. auto.
Qed.

Lemma sameName_spec u c : sameName u c = true <-> get (name c) = get (name u).
Proof. unfold sameName. apply bool_decide_eq_true. Qed.

Lemma sameName_false u c : sameName u c = false <-> get (name c) <> get (name u).
Proof. unfold sameName. apply bool_decide_eq_false. Qed.

Lemma canCreate_spec u :
  canCreate u = true <->
  exists n r a,
    get (name u) = Some n /\ n <> []
    /\ get (role u) = Some r /\ r <> []
    /\ get (affinity u) = Some a.
Proof.
  unfold canCreate. split.
  - intros H. apply andb_true_iff in H as [H Ha].
    apply andb_true_iff in H as [Hn Hr]. apply bool_decide_eq_true in Ha.
    destruct (get (name u)) as [[|x n]|]; try discriminate.
    destruct (get (role u)) as [[|y r]|]; try discriminate.
    destruct (get (affinity u)) as [a|]; [|congruence].
    exists (x :: n), (y :: r), a. repeat split; discriminate.
  - intros (n & r & a & -> & Hn & -> & Hr & ->).
    destruct n; [congruence|]. destruct r; [congruence|]. reflexivity.
Qed.

Lemma applyUpdate_existing cs u i c :
  cs !! i = Some c ->
  get (name c) = get (name u) ->
  (forall j c', j < i -> cs !! j = Some c' -> get (name c') <> get (name u)) ->
  applyUpdate cs u = <[i := spread c u]> cs.
Proof.
  intros Hi Hc Hmin. unfold applyUpdate.
  assert (E : findIndex (sameName u) cs = Some i).
  { apply findIndex_Some. split.
    - exists c. split; [exact Hi|]. apply sameName_spec, Hc.
    - intros j c' Hj Hc'. apply sameName_false. eapply Hmin; eauto. }
  rewrite E, Hi. reflexivity.
Qed.

Lemma applyUpdate_new cs u :
  (forall c, c ∈ cs -> get (name c) <> get (name u)) ->
  applyUpdate cs u = if canCreate u then cs ++ [u] else cs.
Proof.
  intros Hno. unfold applyUpdate.
  assert (E : findIndex (sameName u) cs = None).
  { apply findIndex_None. intros c Hc. apply sameName_false, Hno, Hc. }
  rewrite E. reflexivity.
Qed.

Lemma canCreate_missing u :
  get (name u) = None \/ get (role u) = None \/ get (affinity u) = None ->
  canCreate u = false.
Proof.
  intros H. destruct (canCreate u) eqn:E; [|reflexivity].
  apply canCreate_spec in E as (n & r & a & Hn & _ & Hr & _ & Ha).
  destruct H as [H|[H|H]]; congruence.
Qed.

(** C9 (character merge): the updates are applied one after the other, in
    order.  When a character with the name of the update exists, the first
    such entry is replaced by the shallow merge of the update over it, in
    which every property present in the update wins and every other property
    is kept.  Otherwise a new entry is appended only when the update supplies
    a name, a role and a defined affinity; an update that misses one of the
    three leaves the collection as it is.  The merge is a total function. *)
Theorem character_merge (currentChars : list Character) (update : Character)
    (updates : list Character) :
  updateCharacters currentChars [] = currentChars
  /\ updateCharacters currentChars (update :: updates)
     = updateCharacters (applyUpdate currentChars update) updates
  /\ (forall i c,
        currentChars !! i = Some c ->
        get (name c) = get (name update) ->
        (forall j c', j < i -> currentChars !! j = Some c' ->
                      get (name c') <> get (name update)) ->
        applyUpdate currentChars update = <[i := spread c update]> currentChars
        /\ get (name (spread c update)) = get (name c))
  /\ (forall c,
        spread c update
        = {| name := over (name c) (name update);
             role := over (role c) (role update);
             affinity := over (affinity c) (affinity update);
             status := over (status c) (status update);
             description := over (description c) (description update) |})
  /\ (forall (A : Type) (a b : Field A),
        (b = Absent -> over a b = a) /\ (b <> Absent -> over a b = b))
  /\ ((forall c, c ∈ currentChars -> get (name c) <> get (name update)) ->
      (applyUpdate currentChars update = currentChars ++ [update]
       \/ applyUpdate currentChars update = currentChars)
      /\ (applyUpdate currentChars update <> currentChars ->
          exists n r a,
            get (name update) = Some n /\ n <> []
            /\ get (role update) = Some r /\ r <> []
            /\ get (affinity update) = Some a)
      /\ (get (name update) = None \/ get (role update) = None
          \/ get (affinity update) = None ->
          applyUpdate currentChars update = currentChars)
      /\ (canCreate update = true ->
          applyUpdate currentChars update = currentChars ++ [update])).
Proof.
  split; [reflexivity|]. split; [reflexivity|]. split; [|split; [|split]].
  - intros i c Hi Hc Hmin. split; [apply applyUpdate_existing; assumption|].
    unfold spread; cbn [name]. unfold over.
    destruct (name update), (name c); simpl in *; congruence.
  - reflexivity.
  - intros A a b. split; [intros ->; reflexivity|].
    intros Hb. destruct b; [congruence|reflexivity|reflexivity].
  - intros Hno. rewrite (applyUpdate_new _ _ Hno).
    split; [destruct (canCreate update); auto|]. split; [|split].
    + destruct (canCreate update) eqn:E; [|congruence].
      intros _. apply canCreate_spec, E.
    + intros H. rewrite (canCreate_missing _ H). reflexivity.
    + intros ->. reflexivity.
Qed.

(** ** Instances *)

(** The continuation rule at a fragment without any marker. *)
Lemma continuation_rule_witness :
  sections (mkNode (str "n") (str "Dawn") (str "hello there") [] None)
  = [ {| title := str "Dawn"; body := LF :: str "hello there";
         isNewChapter := false |} ].
Proof.
  exact (proj1 (continuation_rule
                  (mkNode (str "n") (str "Dawn") (str "hello there") [] None))
               eq_refl eq_refl eq_refl).
Defined.

(** Degradation at a fragment of three white-space characters with an
    illustration prompt: no section, and the illustration page alone. *)
Lemma degradation_on_empty_witness :
  let node := mkNode (str "n") (str "T") [SP; LF; 9%N] [] (Some (str "castle")) in
  sections node = []
  /\ nodePages INTERACTIVE node 0 1 = [visualPage node (Some (str "castle")) 1].
Proof.
  intros node.
  destruct (proj1 (degradation_on_empty INTERACTIVE node 0 1) eq_refl)
    as (Hs & Hp & _).
  split; [exact Hs | exact Hp].
Defined.

(** The merge at an update of the only character of the collection. *)
Lemma character_merge_witness :
  let ann := aCharacter "Ann" "hero" 50 in
  let update := {| name := Value (str "Ann"); role := Absent;
                   affinity := Value 70%Z; status := Undefined;
                   description := Absent |} in
  applyUpdate [ann] update
  = [ {| name := Value (str "Ann"); role := Value (str "hero");
         affinity := Value 70%Z; status := Undefined;
         description := Value (str "-") |} ].
Proof.
  intros ann update.
  destruct (character_merge [ann] update []) as (_ & _ & H & _).
  destruct (H 0 ann eq_refl eq_refl) as [E _]; [intros j c' Hj; lia|].
  exact E.
Defined.

(** * Further properties *)

(** ** The navigator over a book *)

Lemma handleNextFlip_valid len i :
  Z.even len = true -> validIndex len i -> validIndex len (handleNextFlip len i).
Proof.
  intros Hlen [Hi Hr]. unfold handleNextFlip.
  destruct (Z.ltb_spec i (len - 2)); [|split; assumption].
  apply Z.even_spec in Hlen as [a ->]. apply Z.even_spec in Hi as [b ->].
  split; [|lia]. replace (2 * b + 2)%Z with (2 * (b + 1))%Z by lia.
  apply Z.even_spec. eexists; reflexivity.
Qed.

Lemma handlePrevFlip_valid len i :
  validIndex len i -> validIndex len (handlePrevFlip i).
Proof.
  intros [Hi Hr]. unfold handlePrevFlip.
  destruct (Z.gtb_spec i 0); [|split; assumption].
  apply Z.even_spec in Hi as [b ->].
  split; [|lia]. replace (2 * b - 2)%Z with (2 * (b - 1))%Z by lia.
  apply Z.even_spec. eexists; reflexivity.
Qed.

Lemma jumpToPage_spread index :
  Z.even (jumpToPage index) = true
  /\ (jumpToPage index <= index <= jumpToPage index + 1)%Z.
Proof.
  unfold jumpToPage.
  destruct (Z.eqb_spec (index mod 2) 0) as [E|E].
  - split; [|lia]. apply Z.even_spec. exists (index / 2)%Z.
    pose proof (Z.div_mod index 2). lia.
  - split; [|lia]. apply Z.even_spec. exists (index / 2)%Z.
    pose proof (Z.div_mod index 2). pose proof (Z.mod_pos_bound index 2). lia.
Qed.

Lemma jumpToPage_valid len index :
  Z.even len = true -> (0 <= index < len)%Z -> validIndex len (jumpToPage index).
Proof.
  intros Hlen Hr. destruct (jumpToPage_spread index) as [He Hs].
  split; [exact He|].
  apply Z.even_spec in Hlen as [a ->]. apply Z.even_spec in He as [b Hb].
  lia.
Qed.

(** [index % 2 === 0] of JavaScript takes the sign of [index]; the test
    against zero is the test of [Z.modulo]. *)
Lemma rem_zero_mod_zero index :
  (Z.rem index 2 =? 0)%Z = (index mod 2 =? 0)%Z.
Proof.
  destruct (Z.eqb_spec (Z.rem index 2) 0) as [E|E];
    destruct (Z.eqb_spec (index mod 2) 0) as [F|F]; try reflexivity; exfalso.
  - apply F. apply Z.rem_divide in E; [|lia]. apply Z.mod_divide in E; lia.
  - apply E. apply Z.mod_divide in F; [|lia]. apply Z.rem_divide; [lia|exact F].
Qed.

Lemma navStep_valid len i a :
  Z.even len = true -> validIndex len i -> inBook len a ->
  validIndex len (navStep len i a).
Proof.
  intros Hlen Hi Ha. destruct a as [| |index]; simpl.
  - apply handleNextFlip_valid; assumption.
  - apply handlePrevFlip_valid; assumption.
  - apply jumpToPage_valid; assumption.
Qed.

(** X1 (navigator invariant): in a book with an even number of pages, from
    an even index between 0 and the last spread, every run of flips and of
    jumps to pages of the book leaves the index even and between 0 and the
    last spread. *)
Theorem navigator_run_valid (pagesLength cur : Z) (actions : list NavAction) :
  Z.even pagesLength = true ->
  validIndex pagesLength cur ->
  Forall (inBook pagesLength) actions ->
  validIndex pagesLength (foldl (navStep pagesLength) cur actions).
Proof.
  intros Hlen Hcur Hacts. revert cur Hcur.
  induction Hacts as [|a actions Ha _ IH]; intros cur Hcur; simpl.
  - exact Hcur.
  - apply IH, navStep_valid; assumption.
Qed.

Lemma navigator_run_valid_witness :
  validIndex 6 (foldl (navStep 6) 2%Z [NextFlip; NextFlip; JumpTo 3; PrevFlip; PrevFlip]).
Proof.
  apply navigator_run_valid.
  - reflexivity.
  - split; [reflexivity|lia].
  - repeat constructor; simpl; lia.
Defined.

(** X2 (flips undo each other): a flip forward that moves is undone by a
    flip back, and a flip back that moves is undone by a flip forward. *)
Theorem flips_undo (pagesLength c : Z) :
  ((0 <= c < pagesLength - 2)%Z ->
   handlePrevFlip (handleNextFlip pagesLength c) = c)
  /\ ((0 < c <= pagesLength - 2)%Z ->
      handleNextFlip pagesLength (handlePrevFlip c) = c).
Proof.
  unfold handleNextFlip, handlePrevFlip. split; intros H.
  - destruct (Z.ltb_spec c (pagesLength - 2)); [|lia].
    destruct (Z.gtb_spec (c + 2) 0); lia.
  - destruct (Z.gtb_spec c 0); [|lia].
    destruct (Z.ltb_spec (c - 2) (pagesLength - 2)); lia.
Qed.

Lemma paginate_length_even gameMode history :
  Z.even (Z.of_nat (length (paginate gameMode history))) = true.
Proof.
  assert (E : length (paginate gameMode history) mod 2 = 0).
  { destruct (paginate_cases gameMode history) as [[E ->]|[E ->]]; [exact E|].
    rewrite length_app. cbn [length]. rewrite Nat.Div0.add_mod, E. reflexivity. }
  apply Z.even_spec. exists (Z.of_nat (length (paginate gameMode history) / 2)).
  pose proof (Nat.div_mod_eq (length (paginate gameMode history)) 2). lia.
Qed.

Lemma paginate_numbers gameMode history :
  map pageNumber (paginate gameMode history)
  = seq 1 (length (paginate gameMode history)).
Proof.
  destruct (paginate_cases gameMode history) as [[_ ->]|[_ ->]].
  - apply generated_numbers.
  - rewrite map_app, length_app, seq_app, generated_numbers. reflexivity.
Qed.

Lemma page_number_at gameMode history i p :
  paginate gameMode history !! i = Some p -> pageNumber p = S i.
Proof.
  intros Hp.
  assert (H : map pageNumber (paginate gameMode history) !! i = Some (pageNumber p))
    by (rewrite list_lookup_fmap, Hp; reflexivity).
  rewrite paginate_numbers in H. apply lookup_seq in H as [H _]. lia.
Qed.

(** X3 (a spread has two pages): at every even index from 0 to the last
    spread, the book has a left and a right page, numbered index + 1 and
    index + 2. *)
Theorem spread_has_two_pages gameMode history (cur : Z) :
  validIndex (Z.of_nat (length (paginate gameMode history))) cur ->
  exists l r,
    leftPage (paginate gameMode history) cur = Some l
    /\ rightPage (paginate gameMode history) cur = Some r
    /\ Z.of_nat (pageNumber l) = (cur + 1)%Z
    /\ Z.of_nat (pageNumber r) = (cur + 2)%Z.
Proof.
  intros [_ Hr]. unfold leftPage, rightPage.
  destruct (Z.ltb_spec cur 0); [lia|]. destruct (Z.ltb_spec (cur + 1) 0); [lia|].
  destruct (lookup_lt_is_Some_2 (paginate gameMode history) (Z.to_nat cur))
    as [l Hl]; [lia|].
  destruct (lookup_lt_is_Some_2 (paginate gameMode history) (Z.to_nat (cur + 1)))
    as [r Hrr]; [lia|].
  exists l, r. split; [exact Hl|]. split; [exact Hrr|].
  apply page_number_at in Hl. apply page_number_at in Hrr. lia.
Qed.

Lemma spread_has_two_pages_witness :
  exists l r,
    leftPage (paginate INTERACTIVE
                [mkNode (str "a") (str "T") (str "One.") [] None;
                 mkNode (str "b") (str "T") (str "Two.") [] None]) 0 = Some l
    /\ rightPage (paginate INTERACTIVE
                [mkNode (str "a") (str "T") (str "One.") [] None;
                 mkNode (str "b") (str "T") (str "Two.") [] None]) 0 = Some r
    /\ Z.of_nat (pageNumber l) = 1%Z
    /\ Z.of_nat (pageNumber r) = 2%Z.
Proof.
  apply (spread_has_two_pages INTERACTIVE
           [mkNode (str "a") (str "T") (str "One.") [] None;
            mkNode (str "b") (str "T") (str "Two.") [] None] 0).
  split; [reflexivity|]. vm_compute. split; discriminate.
Defined.

(** X4 (a jump shows its page): a jump to the index of any page of the book
    sets an even index from 0 to the last spread, and the page is the left or
    the right page of that spread. *)
Theorem jump_shows_page gameMode history (i : nat) (p : BookPage) :
  paginate gameMode history !! i = Some p ->
  let target := jumpToPage (Z.of_nat i) in
  validIndex (Z.of_nat (length (paginate gameMode history))) target
  /\ (leftPage (paginate gameMode history) target = Some p
      \/ rightPage (paginate gameMode history) target = Some p).
Proof.
  intros Hp target.
  pose proof (lookup_lt_Some _ _ _ Hp) as Hlt.
  assert (Hv : validIndex (Z.of_nat (length (paginate gameMode history))) target).
  { apply jumpToPage_valid; [apply paginate_length_even|lia]. }
  split; [exact Hv|].
  destruct (jumpToPage_spread (Z.of_nat i)) as [_ Hs]. fold target in Hs.
  destruct Hv as [_ Hr]. unfold leftPage, rightPage.
  destruct (Z.ltb_spec target 0); [lia|].
  destruct (Z.ltb_spec (target + 1) 0); [lia|].
  destruct (Z.eq_dec target (Z.of_nat i)) as [E|E].
  - left. rewrite E, Nat2Z.id. exact Hp.
  - right. replace (target + 1)%Z with (Z.of_nat i) by lia.
    rewrite Nat2Z.id. exact Hp.
Qed.

Lemma jump_shows_page_witness :
  let ps := paginate INTERACTIVE
              [mkNode (str "a") (str "T") (str "One.") [] None;
               mkNode (str "b") (str "T") (str "Two.") [] None] in
  exists p, ps !! 1 = Some p
            /\ (leftPage ps (jumpToPage 1) = Some p
                \/ rightPage ps (jumpToPage 1) = Some p).
Proof.
  intros ps.
  assert (H : ps !! 1 = Some (nth 1 ps (fillerPage 0))) by reflexivity.
  exists (nth 1 ps (fillerPage 0)). split; [exact H|].
  exact (proj2 (jump_shows_page INTERACTIVE _ 1 _ H)).
Defined.


(** ** The pages of a section, one by one *)

Lemma closedPages_lookup node section sIdx chunks :
  forall isFirst n i p,
    closedPages node section sIdx isFirst n chunks !! i = Some p ->
    exists c, chunks !! i = Some c
              /\ p = closedPage node section sIdx c (isFirst && (i =? 0)) (n + i).
Proof.
  induction chunks as [|c cs IH]; intros isFirst n i p Hp; simpl in Hp.
  - rewrite lookup_nil in Hp. discriminate.
  - destruct i as [|i]; simpl in Hp.
    + injection Hp as <-. exists c. rewrite andb_true_r, Nat.add_0_r. auto.
    + apply IH in Hp as (c' & Hc' & ->). exists c'. split; [exact Hc'|].
      simpl. rewrite andb_false_r, Nat.add_succ_r. reflexivity.
Qed.

Lemma chunk_tokens section c :
  c ∈ closedChunks section \/ (c = leftover section /\ c <> []) ->
  splitSpace (joinSpace c) = c.
Proof.
  intros Hc.
  destruct (chunks_of_section section) as (Hcat & _).
  pose proof (splitSpace_no_space (body section)) as Hsp.
  rewrite <- Hcat in Hsp. apply Forall_app in Hsp as [Hcs Hrest].
  apply Forall_mjoin in Hcs. destruct Hc as [Hc|[-> Hne]].
  - apply splitSpace_joinSpace.
    + exact (closedChunks_not_nil section c Hc).
    + rewrite Forall_forall in Hcs. apply Hcs, Hc.
  - apply splitSpace_joinSpace; assumption.
Qed.

(** The [i]-th page of a section holds the [i]-th closed chunk, or, after
    the closed chunks, the buffer that was left. *)
Lemma sectionPages_lookup node nSections section sIdx n i p :
  sectionPages node nSections section sIdx n !! i = Some p ->
  isChapterStart p = Some (isNewChapter section && (i =? 0))
  /\ chapterTitle p = Some (title section)
  /\ type p = TEXT
  /\ ((exists c, closedChunks section !! i = Some c
                 /\ splitSpace (content p) = c)
      \/ (i = length (closedChunks section)
          /\ leftover section <> []
          /\ splitSpace (content p) = leftover section
          /\ S i = length (sectionPages node nSections section sIdx n))).
Proof.
  rewrite sectionPages_shape. intros Hp.
  apply lookup_app_Some in Hp as [Hp|[Hge Hp]].
  - apply closedPages_lookup in Hp as (c & Hc & ->). cbn [isChapterStart chapterTitle type content closedPage].
    split; [rewrite andb_comm; reflexivity|]. split; [reflexivity|]. split; [reflexivity|].
    left. exists c. split; [exact Hc|].
    apply (chunk_tokens section). left. eapply list_elem_of_lookup_2, Hc.
  - rewrite closedPages_length in Hge, Hp. unfold lastPages in *.
    destruct (leftover section) as [|w r] eqn:Hr.
    + rewrite lookup_nil in Hp. discriminate.
    + apply list_lookup_singleton_Some in Hp as [Hi <-].
      assert (i = length (closedChunks section)) as -> by lia.
      cbn [isChapterStart chapterTitle type content endPage].
      split; [rewrite andb_comm; reflexivity|]. split; [reflexivity|]. split; [reflexivity|].
      right. split; [reflexivity|]. split; [discriminate|]. split.
      * rewrite <- Hr. apply (chunk_tokens section). right. rewrite Hr.
        split; [reflexivity|discriminate].
      * rewrite length_app, closedPages_length. simpl. lia.
Qed.

Lemma closed_chunk_bounds section i c :
  closedChunks section !! i = Some c ->
  budget section i <= length c <= budget section i + 21.
Proof.
  intros Hc. destruct (chunks_of_section section) as (_ & Hclosed & _).
  destruct (Hclosed i c Hc) as [[Hge _] Hmin]. split; [exact Hge|].
  destruct (decide (length c <= budget section i + 21)) as [|Hgt]; [assumption|].
  exfalso. apply (Hmin (budget section i + 21)); [lia|].
  unfold closes. rewrite length_take. split; [lia|]. right. lia.
Qed.

Lemma leftover_bound section :
  length (leftover section)
  <= budget section (length (closedChunks section)) + 20.
Proof.
  destruct (chunks_of_section section) as (_ & _ & Hrest & _).
  set (b := budget section (length (closedChunks section))) in *.
  destruct (decide (length (leftover section) <= b + 20)) as [|Hgt]; [assumption|].
  exfalso. apply (Hrest (b + 21)); [lia|].
  unfold closes. rewrite length_take. split; [lia|]. right. lia.
Qed.

Lemma budget_le section i : budget section i <= WORDS_PER_PAGE.
Proof.
  unfold budget, WORDS_PER_PAGE. destruct (_ && _); simpl; lia.
Qed.

(** X6 (page size): the [i]-th page of a section has at least one token and
    at most 21 more than its budget (so never more than 151, and never more
    than 101 on the first page of a new chapter); every page but the last of
    the section has reached its budget. *)
Theorem page_word_bounds node nSections section sIdx n i p :
  sectionPages node nSections section sIdx n !! i = Some p ->
  1 <= wordCount p
  /\ wordCount p <= budget section i + 21
  /\ wordCount p <= 151
  /\ (isChapterStart p = Some true -> wordCount p <= 101)
  /\ (S i < length (sectionPages node nSections section sIdx n) ->
      budget section i <= wordCount p).
Proof.
  intros Hp. unfold wordCount.
  destruct (sectionPages_lookup _ _ _ _ _ _ _ Hp) as (Hstart & _ & _ & Hcases).
  assert (H : 1 <= length (splitSpace (content p)) <= budget section i + 21
              /\ (S i < length (sectionPages node nSections section sIdx n) ->
                  budget section i <= length (splitSpace (content p)))).
  { destruct Hcases as [(c & Hc & ->)|(-> & Hne & -> & Hlast)].
    - pose proof (closed_chunk_bounds section i c Hc).
      pose proof (budget_pos section i). split; [lia|]. intros _. lia.
    - pose proof (leftover_bound section). split; [|lia].
      destruct (leftover section); [congruence|simpl in *; lia]. }
  destruct H as [[H1 H2] H3]. pose proof (budget_le section i) as Hb.
  unfold WORDS_PER_PAGE in Hb.
  split; [exact H1|]. split; [exact H2|]. split; [lia|]. split; [|exact H3].
  rewrite Hstart. intros [= E]. apply andb_true_iff in E as [E1 E2].
  unfold budget, WORDS_PER_PAGE in H2. rewrite E1, E2 in H2. simpl in H2. lia.
Qed.

Lemma page_word_bounds_witness :
  let section := {| title := str "A"; body := str "x y z"; isNewChapter := true |} in
  let node := mkNode (str "n") (str "T") (lines ["## A"; "x y z"]%string) [] None in
  exists p, sectionPages node 1 section 0 1 !! 0 = Some p
            /\ 1 <= wordCount p /\ wordCount p <= 101.
Proof.
  intros section node.
  assert (H : sectionPages node 1 section 0 1 !! 0
              = Some (nth 0 (sectionPages node 1 section 0 1) (fillerPage 0)))
    by reflexivity.
  eexists. split; [exact H|].
  destruct (page_word_bounds node 1 section 0 1 0 _ H) as (H1 & _ & _ & H4 & _).
  split; [exact H1|]. apply H4. reflexivity.
Defined.

(** ** Bookmarks *)

Lemma chapterTitles_app ps qs :
  chapterTitles (ps ++ qs) = chapterTitles ps ++ chapterTitles qs.
Proof. unfold chapterTitles. rewrite filter_app, map_app. reflexivity. Qed.

Lemma chapterTitles_one p :
  chapterTitles [p] = if isBookmark p then [chapterTitle p] else [].
Proof.
  unfold chapterTitles. destruct (isBookmark p) eqn:E.
  - rewrite filter_cons_True by exact E. reflexivity.
  - rewrite filter_cons_False by congruence. reflexivity.
Qed.

Lemma chapterTitles_closed_later node section sIdx chunks :
  forall n, chapterTitles (closedPages node section sIdx false n chunks) = [].
Proof.
  induction chunks as [|c cs IH]; intros n; [reflexivity|].
  change (closedPages node section sIdx false n (c :: cs))
    with ([closedPage node section sIdx c false n]
            ++ closedPages node section sIdx false (S n) cs).
  rewrite chapterTitles_app, IH, chapterTitles_one. reflexivity.
Qed.

Lemma chapterTitles_section node nSections section sIdx n :
  chapterTitles (sectionPages node nSections section sIdx n)
  = if isNewChapter section then [Some (title section)] else [].
Proof.
  rewrite sectionPages_shape, chapterTitles_app. unfold lastPages.
  destruct (closedChunks section) as [|c cs] eqn:Hcs.
  - destruct (leftover section) as [|w r] eqn:Hr.
    + apply leftover_nil in Hr. congruence.
    + rewrite chapterTitles_one. unfold isBookmark. simpl.
      destruct (isNewChapter section); reflexivity.
  - change (closedPages node section sIdx true n (c :: cs))
      with ([closedPage node section sIdx c true n]
              ++ closedPages node section sIdx false (S n) cs).
    rewrite chapterTitles_app, chapterTitles_closed_later.
    assert (E : forall q, chapterTitles
                  (match leftover section with
                   | [] => []
                   | _ :: _ => [endPage node section sIdx (sIdx =? nSections - 1)
                                  (leftover section) (length (c :: cs) =? 0) q]
                   end) = []).
    { intros q. destruct (leftover section); [reflexivity|].
      rewrite chapterTitles_one. reflexivity. }
    rewrite E, !app_nil_r, chapterTitles_one. unfold isBookmark. simpl.
    destruct (isNewChapter section); reflexivity.
Qed.

Lemma chapterTitles_sections node nSections secs :
  forall sIdx n,
    chapterTitles (sectionsPagesFrom node nSections sIdx n secs)
    = newChapterTitles secs.
Proof.
  induction secs as [|s secs IH]; intros sIdx n; [reflexivity|].
  cbn [sectionsPagesFrom]. rewrite chapterTitles_app, chapterTitles_section, IH.
  unfold newChapterTitles. destruct (isNewChapter s) eqn:E.
  - rewrite filter_cons_True by exact E. reflexivity.
  - rewrite filter_cons_False by congruence. reflexivity.
Qed.

Lemma chapterTitles_node gameMode node nodeIndex n :
  chapterTitles (nodePages gameMode node nodeIndex n)
  = newChapterTitles (sections node).
Proof.
  rewrite nodePages_eq, chapterTitles_app, chapterTitles_sections.
  unfold visualPages. destruct (_ && _); reflexivity.
Qed.

Lemma chapterTitles_fragments gameMode history :
  forall nodeIndex n,
    chapterTitles (mjoin (fragmentsFrom gameMode nodeIndex n history))
    = mjoin (map (fun node => newChapterTitles (sections node)) history).
Proof.
  induction history as [|node h IH]; intros nodeIndex n; [reflexivity|].
  cbn [fragmentsFrom mjoin map]. simpl.
  rewrite chapterTitles_app, chapterTitles_node, IH. reflexivity.
Qed.

(** X7 (bookmarks are the chapters): the pages the bookmark menu lists are,
    in order, one page for each new-chapter section of the history, with the
    title of that section; continuation sections, illustration pages and the
    filler page give no bookmark. *)
Theorem bookmarks_are_chapters gameMode history :
  chapterTitles (paginate gameMode history)
  = mjoin (map (fun node => newChapterTitles (sections node)) history).
Proof.
  destruct (paginate_cases gameMode history) as [[_ ->]|[_ ->]].
  - apply chapterTitles_fragments.
  - unfold fragments. rewrite chapterTitles_app, chapterTitles_fragments.
    apply app_nil_r.
Qed.

(** ** Illustration pages *)

Lemma imagePages_app ps qs : imagePages (ps ++ qs) = imagePages ps ++ imagePages qs.
Proof. apply filter_app. Qed.

Lemma imagePages_text ps : Forall (fun p => type p = TEXT) ps -> imagePages ps = [].
Proof.
  induction 1 as [|p ps Hp _ IH]; [reflexivity|].
  unfold imagePages. rewrite filter_cons_False; [exact IH|].
  unfold isImage. rewrite Hp. discriminate.
Qed.

Lemma sectionPages_text node nSections section sIdx n :
  Forall (fun p => type p = TEXT) (sectionPages node nSections section sIdx n).
Proof.
  apply Forall_lookup. intros i p Hp.
  apply sectionPages_lookup in Hp as (_ & _ & Ht & _). exact Ht.
Qed.

Lemma sectionsPages_text node nSections secs :
  forall sIdx n,
    Forall (fun p => type p = TEXT) (sectionsPagesFrom node nSections sIdx n secs).
Proof.
  induction secs as [|s secs IH]; intros sIdx n; simpl; [constructor|].
  apply Forall_app. split; [apply sectionPages_text|apply IH].
Qed.

Lemma imagePages_node gameMode node nodeIndex n :
  imagePages (nodePages gameMode node nodeIndex n)
  = visualPages gameMode node nodeIndex n.
Proof.
  rewrite nodePages_eq, imagePages_app.
  rewrite (imagePages_text (sectionsPagesFrom _ _ _ _ _)) by apply sectionsPages_text.
  rewrite app_nil_r. unfold visualPages. destruct (_ && _); reflexivity.
Qed.

Lemma imagePages_linear_later history :
  forall nodeIndex n,
    imagePages (mjoin (fragmentsFrom LINEAR (S nodeIndex) n history)) = [].
Proof.
  induction history as [|node h IH]; intros nodeIndex n; [reflexivity|].
  cbn [fragmentsFrom]. simpl. rewrite imagePages_app, imagePages_node, IH.
  unfold visualPages. simpl. rewrite andb_false_r. reflexivity.
Qed.

Lemma imagePages_interactive history :
  forall nodeIndex n,
    map imagePrompt (imagePages (mjoin (fragmentsFrom INTERACTIVE nodeIndex n history)))
    = map backgroundImagePrompt
          (filter (fun node => truthyOpt (backgroundImagePrompt node) = true) history).
Proof.
  induction history as [|node h IH]; intros nodeIndex n; [reflexivity|].
  cbn [fragmentsFrom]. simpl. rewrite imagePages_app, imagePages_node, map_app, IH.
  unfold visualPages. simpl. rewrite orb_true_r, andb_true_r.
  destruct (truthyOpt (backgroundImagePrompt node)) eqn:E.
  - rewrite filter_cons_True by exact E. reflexivity.
  - rewrite filter_cons_False by congruence. reflexivity.
Qed.

(** X8 (illustration pages): in [LINEAR] mode the only illustration page of
    a book is that of its first node, which is then page 1; in [INTERACTIVE]
    mode there is one illustration page for each node with a non-empty
    prompt, in order, holding that prompt. *)
Theorem illustration_pages (node : StoryNode) (rest history : list StoryNode) :
  imagePages (paginate LINEAR (node :: rest))
  = (if truthyOpt (backgroundImagePrompt node)
     then [visualPage node (backgroundImagePrompt node) 1] else [])
  /\ (truthyOpt (backgroundImagePrompt node) = true ->
      head (paginate LINEAR (node :: rest))
      = Some (visualPage node (backgroundImagePrompt node) 1))
  /\ map imagePrompt (imagePages (paginate INTERACTIVE history))
     = map backgroundImagePrompt
           (filter (fun node => truthyOpt (backgroundImagePrompt node) = true)
                   history).
Proof.
  split; [|split].
  - assert (E : imagePages (mjoin (fragments LINEAR (node :: rest)))
                = if truthyOpt (backgroundImagePrompt node)
                  then [visualPage node (backgroundImagePrompt node) 1] else []).
    { unfold fragments. cbn [fragmentsFrom]. simpl.
      rewrite imagePages_app, imagePages_node, imagePages_linear_later, app_nil_r.
      unfold visualPages. simpl. rewrite andb_true_r. reflexivity. }
    destruct (paginate_cases LINEAR (node :: rest)) as [[_ ->]|[_ ->]];
      [exact E|]. rewrite imagePages_app, E. apply app_nil_r.
  - intros Hp.
    assert (E : exists tail, paginate LINEAR (node :: rest)
                  = visualPage node (backgroundImagePrompt node) 1 :: tail).
    { destruct (paginate_cases LINEAR (node :: rest)) as [[_ ->]|[_ ->]];
        unfold fragments; cbn [fragmentsFrom]; simpl;
        rewrite nodePages_eq; unfold visualPages; simpl; rewrite Hp; simpl;
        eexists; reflexivity. }
    destruct E as [tail ->]. reflexivity.
  - destruct (paginate_cases INTERACTIVE history) as [[_ ->]|[_ ->]].
    + apply imagePages_interactive.
    + rewrite imagePages_app, map_app. unfold fragments.
      rewrite imagePages_interactive. apply app_nil_r.
Qed.

(** ** The shape of the sections of a node *)

Lemma splitMarkersFrom_not_nil s :
  forall inSep cur, splitMarkersFrom inSep cur s <> [].
Proof.
  induction s as [|c s IH]; intros inSep cur; cbn [splitMarkersFrom].
  - discriminate.
  - destruct (inSep && isSpace c); [apply IH|].
    destruct (markerAt (c :: s)); [|apply IH].
    destruct s as [|? [|? [|? ?]]]; discriminate.
Qed.

Lemma toSection_later node idx text s :
  0 < idx -> toSection node idx text = Some s -> isNewChapter s = true.
Proof.
  intros Hidx. unfold toSection.
  destruct idx as [|idx]; [lia|]. cbn [Nat.eqb andb Nat.ltb Nat.leb orb].
  destruct (indexOf LF text); intros [= <-]; reflexivity.
Qed.

Lemma toSection_first_continues node text s :
  toSection node 0 text = Some s -> isNewChapter s = false ->
  title s = stripHashes (nodeChapterTitle node) /\ body s = text.
Proof.
  unfold toSection. cbn [Nat.eqb Nat.ltb Nat.leb andb orb].
  destruct (negb (truthy (trim text))); [discriminate|].
  destruct (startsWith (str "##") (trim (nodeContent node))).
  - destruct (indexOf LF text); intros [= <-]; discriminate.
  - intros [= <-] _. split; reflexivity.
Qed.

Lemma omap_cons_eq {A B} (f : A -> option B) x l :
  omap f (x :: l)
  = match f x with Some y => y :: omap f l | None => omap f l end.
Proof. reflexivity. Qed.

Lemma later_sections_new node pieces :
  forall g : nat -> nat,
    (forall i, 0 < g i) ->
    Forall (fun s => isNewChapter s = true)
           (omap (fun s => s) (imap (fun i => toSection node (g i)) pieces)).
Proof.
  induction pieces as [|t pieces IH]; intros g Hg; [constructor|].
  rewrite imap_cons, omap_cons_eq.
  destruct (toSection node (g 0) t) as [s|] eqn:Es.
  - constructor; [eapply toSection_later; [apply Hg|exact Es]|].
    apply (IH (fun i => g (S i))). intros i; apply Hg.
  - apply (IH (fun i => g (S i))). intros i; apply Hg.
Qed.

(** X9 (only the first section continues): a section that is not a new
    chapter is the first section of its node; its body is not empty, it is the
    text before the first marker (with the line feed put in front), and its
    title is the chapter title of the node without leading hashes.  Every
    later section is a new chapter. *)
Theorem continuation_is_first node i s :
  sections node !! i = Some s ->
  isNewChapter s = false ->
  i = 0
  /\ body s <> []
  /\ head (rawSections node) = Some (body s)
  /\ title s = stripHashes (nodeChapterTitle node).
Proof.
  intros Hi Hs. unfold sections in Hi.
  pose proof (splitMarkersFrom_not_nil (LF :: nodeContent node) false []) as Hne.
  unfold rawSections, splitMarkers in *.
  destruct (splitMarkersFrom false [] (LF :: nodeContent node)) as [|t pieces];
    [congruence|]. clear Hne.
  rewrite imap_cons, omap_cons_eq in Hi.
  pose proof (later_sections_new node pieces S ltac:(intros; lia)) as Hlater.
  change (imap (toSection node ∘ S) pieces)
    with (imap (fun i => toSection node (S i)) pieces) in Hi.
  set (later := omap (fun s => s) (imap (fun i => toSection node (S i)) pieces)) in *.
  assert (Hnot : s ∉ filter (fun s => keepSection s = true) later).
  { intros Hin. apply list_elem_of_filter in Hin as [_ Hin].
    rewrite Forall_forall in Hlater. apply Hlater in Hin. congruence. }
  destruct (toSection node 0 t) as [s0|] eqn:E0.
  - destruct (decide (keepSection s0 = true)) as [Hk|Hk].
    + rewrite filter_cons_True in Hi by exact Hk.
      destruct i as [|i]; simpl in Hi.
      * injection Hi as ->.
        destruct (toSection_first_continues node t s E0 Hs) as [Ht Hb].
        split; [reflexivity|]. split; [|split; [simpl; congruence|exact Ht]].
        unfold keepSection in Hk. rewrite Hs, orb_false_r in Hk.
        apply Nat.ltb_lt in Hk. destruct (body s); [simpl in Hk; lia|discriminate].
      * exfalso. apply Hnot. eapply list_elem_of_lookup_2, Hi.
    + rewrite filter_cons_False in Hi by exact Hk.
      exfalso. apply Hnot. eapply list_elem_of_lookup_2, Hi.
  - exfalso. apply Hnot. eapply list_elem_of_lookup_2, Hi.
Qed.

Lemma continuation_is_first_witness :
  let node := mkNode (str "n") (str "# Dawn") (lines ["intro"; "## Two"; "text"]%string) [] None in
  exists s, sections node !! 0 = Some s
            /\ body s = LF :: str "intro" /\ title s = str "Dawn".
Proof.
  intros node.
  assert (H : sections node !! 0
              = Some {| title := str "Dawn"; body := LF :: str "intro";
                        isNewChapter := false |}) by reflexivity.
  eexists. split; [exact H|].
  destruct (continuation_is_first node 0 _ H eq_refl) as (_ & _ & _ & Ht).
  split; [reflexivity|exact Ht].
Defined.

(** ** More on the character merge *)

Lemma spread_same_name c u : nameOf c = nameOf u -> nameOf (spread c u) = nameOf c.
Proof.
  unfold nameOf, spread; cbn [name]. unfold over.
  destruct (name u), (name c); simpl; congruence.
Qed.

Lemma applyUpdate_cases cs u :
  (exists i c, cs !! i = Some c /\ nameOf c = nameOf u
               /\ (forall j c', j < i -> cs !! j = Some c' -> nameOf c' <> nameOf u)
               /\ applyUpdate cs u = <[i := spread c u]> cs)
  \/ ((forall c, c ∈ cs -> nameOf c <> nameOf u)
      /\ applyUpdate cs u = if canCreate u then cs ++ [u] else cs).
Proof.
  unfold applyUpdate. destruct (findIndex (sameName u) cs) as [i|] eqn:E.
  - left. apply findIndex_Some in E as [(c & Hc & Hs) Hmin].
    exists i, c. rewrite Hc. apply sameName_spec in Hs.
    split; [reflexivity|]. split; [exact Hs|]. split; [|reflexivity].
    intros j c' Hj Hc'. apply sameName_false. eapply Hmin; eauto.
  - right. split; [|reflexivity]. intros c Hc.
    apply sameName_false. eapply findIndex_None in E; eauto.
Qed.

Lemma applyUpdate_names cs u :
  map nameOf (applyUpdate cs u) = map nameOf cs
  \/ (map nameOf (applyUpdate cs u) = map nameOf cs ++ [nameOf u]
      /\ (nameOf u ∉ map nameOf cs)
      /\ canCreate u = true).
Proof.
  destruct (applyUpdate_cases cs u) as [(i & c & Hc & Hn & _ & ->)|[Hno ->]].
  - left. rewrite list_fmap_insert, spread_same_name by exact Hn.
    apply list_insert_id. rewrite list_lookup_fmap, Hc. reflexivity.
  - destruct (canCreate u) eqn:E; [right|left; reflexivity].
    split; [rewrite map_app; reflexivity|]. split; [|reflexivity].
    intros Hin. apply list_elem_of_fmap in Hin as (c & Hc & Hin).
    apply (Hno c Hin). congruence.
Qed.

(** X10 (names stay unique): when no two characters of the collection have
    the same name, no two characters of the merged collection do. *)
Theorem names_stay_unique (currentChars updates : list Character) :
  NoDup (map nameOf currentChars) ->
  NoDup (map nameOf (updateCharacters currentChars updates)).
Proof.
  revert currentChars. unfold updateCharacters.
  induction updates as [|u us IH]; intros cs Hcs; simpl; [exact Hcs|].
  apply IH. destruct (applyUpdate_names cs u) as [->|(-> & Hnew & _)].
  - exact Hcs.
  - apply NoDup_app. split; [exact Hcs|]. split; [|apply NoDup_singleton].
    intros x Hx Hin. apply list_elem_of_singleton in Hin as ->. contradiction.
Qed.

Lemma names_stay_unique_witness :
  NoDup (map nameOf
           (updateCharacters
              [aCharacter "Ann" "hero" 50; aCharacter "Bob" "rival" 10]
              [aCharacter "Bob" "friend" 60; aCharacter "Cy" "guide" 5;
               aCharacter "Cy" "ghost" 1])).
Proof.
  apply names_stay_unique.
  apply (bool_decide_unpack _). vm_compute. exact I.
Defined.

(** X11 (no character is lost): the merged collection keeps every entry of
    the collection at its position and with its name, and adds at its end at
    most one entry for each update; each added entry has the name of an
    update, which is not empty. *)
Theorem characters_only_grow (currentChars updates : list Character) :
  exists added,
    map nameOf (updateCharacters currentChars updates)
    = map nameOf currentChars ++ added
    /\ length added <= length updates
    /\ Forall (fun n => n ∈ map nameOf updates /\ exists s, n = Some s /\ s <> [])
              added.
Proof.
  revert currentChars. unfold updateCharacters.
  induction updates as [|u us IH]; intros cs; simpl.
  - exists []. rewrite app_nil_r. split; [reflexivity|].
    split; [apply Nat.le_refl|constructor].
  - destruct (IH (applyUpdate cs u)) as (added & E & Hlen & Hall).
    assert (Hlift : Forall (fun n => n ∈ nameOf u :: map nameOf us
                                     /\ exists s, n = Some s /\ s <> []) added).
    { eapply Forall_impl; [exact Hall|]. intros n [Hin Hs].
      split; [apply elem_of_cons; auto|exact Hs]. }
    destruct (applyUpdate_names cs u) as [En|(En & _ & Hc)]; rewrite En in E.
    + exists added. split; [exact E|]. split; [lia|exact Hlift].
    + exists (nameOf u :: added). rewrite <- app_assoc in E.
      split; [exact E|]. split; [simpl; lia|]. constructor; [|exact Hlift].
      split; [apply elem_of_cons; auto|].
      apply canCreate_spec in Hc as (n & _ & _ & Hn & Hne & _).
      exists n. split; [exact Hn|exact Hne].
Qed.

Lemma over_over {A} (a b : Field A) : over (over a b) b = over a b.
Proof. destruct b; reflexivity. Qed.

Lemma spread_spread c u : spread (spread c u) u = spread c u.
Proof. unfold spread; cbn. rewrite !over_over. reflexivity. Qed.

Lemma spread_self u : spread u u = u.
Proof.
  destruct u as [n r a s d]. unfold spread; cbn.
  destruct n, r, a, s, d; reflexivity.
Qed.

(** X12 (an update applied twice): applying an update a second time changes
    nothing. *)
Theorem applyUpdate_idempotent (chars : list Character) (update : Character) :
  applyUpdate (applyUpdate chars update) update = applyUpdate chars update.
Proof.
  destruct (applyUpdate_cases chars update)
    as [(i & c & Hc & Hn & Hmin & E)|[Hno E]]; rewrite E.
  - pose proof (lookup_lt_Some _ _ _ Hc) as Hlt.
    rewrite (applyUpdate_existing (<[i := spread c update]> chars) update i
               (spread c update)).
    + rewrite list_insert_insert_eq, spread_spread. reflexivity.
    + apply list_lookup_insert_eq. exact Hlt.
    + fold (nameOf (spread c update)). fold (nameOf update).
      rewrite spread_same_name; assumption.
    + intros j c' Hj Hc'. rewrite list_lookup_insert_ne in Hc' by lia.
      apply (Hmin j c' Hj Hc').
  - destruct (canCreate update) eqn:Ec.
    + rewrite (applyUpdate_existing (chars ++ [update]) update (length chars) update).
      * rewrite spread_self. apply list_insert_id.
        rewrite lookup_app_r, Nat.sub_diag by lia. reflexivity.
      * rewrite lookup_app_r, Nat.sub_diag by lia. reflexivity.
      * reflexivity.
      * intros j c' Hj Hc'. rewrite lookup_app_l in Hc' by lia.
        apply Hno. eapply list_elem_of_lookup_2, Hc'.
    + rewrite (applyUpdate_new _ _ Hno), Ec. reflexivity.
Qed.

(** ** The ids of the pages *)

(** *** Decimal numerals *)

Lemma str_inj s t : str s = str t -> s = t.
Proof.
  unfold str. revert t. induction s as [|a s IH]; intros [|b t]; simpl;
    try discriminate; [reflexivity|].
  intros [= Hab Hst]. f_equal; [|apply IH, Hst].
  rewrite <- (ascii_N_embedding a), <- (ascii_N_embedding b), Hab. reflexivity.
Qed.

Lemma to_uint_not_nil n : Nat.to_uint n <> Decimal.Nil.
Proof.
  pose proof (Unsigned.to_of (Nat.to_uint n)) as H.
  rewrite Unsigned.of_to in H. rewrite H. apply unorm_nonnil.
Qed.

Lemma ofNat_inj n m : ofNat n = ofNat m -> n = m.
Proof.
  unfold ofNat. intros H. apply str_inj in H.
  apply Unsigned.to_uint_inj.
  pose proof (to_uint_not_nil n) as Hn. pose proof (to_uint_not_nil m) as Hm.
  unfold NilZero.string_of_uint in H.
  assert (E : NilEmpty.string_of_uint (Nat.to_uint n)
              = NilEmpty.string_of_uint (Nat.to_uint m)).
  { destruct (Nat.to_uint n), (Nat.to_uint m); try congruence. }
  apply (f_equal NilEmpty.uint_of_string) in E.
  rewrite !NilEmpty.usu in E. congruence.
Qed.

Lemma str_cons a s : str (String a s) = N_of_ascii a :: str s.
Proof. reflexivity. Qed.

Lemma digits_no_hyphen d : HYPHEN ∉ str (NilEmpty.string_of_uint d).
Proof.
  induction d; cbn [NilEmpty.string_of_uint]; try apply not_elem_of_nil;
    (rewrite str_cons, not_elem_of_cons; split; [discriminate|exact IHd]).
Qed.

Lemma ofNat_no_hyphen n : HYPHEN ∉ ofNat n.
Proof.
  unfold ofNat, NilZero.string_of_uint.
  destruct (Nat.to_uint n) eqn:E; try (rewrite <- E; apply digits_no_hyphen).
  exfalso. exact (to_uint_not_nil n E).
Qed.

(** *** Hyphens in a page id *)

Ltac norm_str :=
  repeat match goal with
         | |- context [str ?s] =>
             let l := eval vm_compute in (str s) in change (str s) with l
         | H : context [str ?s] |- _ =>
             let l := eval vm_compute in (str s) in change (str s) with l in H
         end.

Lemma no_hyphen_list (l : jsstring) :
  forallb (fun c => negb (c =? HYPHEN)%N) l = true -> HYPHEN ∉ l.
Proof.
  induction l as [|c l IH]; simpl; intros H; [apply not_elem_of_nil|].
  apply andb_true_iff in H as [Hc Hl]. apply not_elem_of_cons. split; [|auto].
  intros <-. rewrite N.eqb_refl in Hc. discriminate.
Qed.

Lemma split_at_first {A} (c : A) l1 :
  forall u r1 r,
    c ∉ l1 ->
    l1 ++ c :: r1 = u ++ c :: r ->
    (u = l1 /\ r = r1) \/ (exists m, u = l1 ++ c :: m /\ r1 = m ++ c :: r).
Proof.
  induction l1 as [|a l1 IH]; intros u r1 r Hc E.
  - destruct u as [|b u]; simpl in E.
    + injection E as <-. left. auto.
    + injection E as <- ->. right. exists u. auto.
  - apply not_elem_of_cons in Hc as [Hne Hc].
    destruct u as [|b u]; simpl in E.
    + injection E as -> _. congruence.
    + injection E as <- E. destruct (IH u r1 r Hc E) as [[-> ->]|(m & -> & ->)].
      * left. auto.
      * right. exists m. auto.
Qed.

Lemma keySuffix_shape k :
  exists body,
    keySuffix k = HYPHEN :: body /\ startsKey body /\ hyphensInside body.
Proof.
  destruct k as [|sIdx n|sIdx]; cbn [keySuffix].
  - exists (str "visual"). split; [reflexivity|]. split.
    + norm_str. eexists _, _. split; [reflexivity|]. left. reflexivity.
    + intros u r E. exfalso.
      assert (H : HYPHEN ∈ str "visual")
        by (rewrite E; apply elem_of_app; right; apply elem_of_cons; auto).
      exact (no_hyphen_list (str "visual") eq_refl H).
  - exists ((str "sec" ++ ofNat sIdx) ++ HYPHEN :: (str "pg" ++ ofNat n)).
    split; [rewrite <- app_assoc; reflexivity|]. split.
    + norm_str. eexists _, _. split; [reflexivity|]. right. reflexivity.
    + intros u r E. apply split_at_first in E.
      * destruct E as [[_ ->]|(m & _ & E)].
        -- norm_str. eexists _, _. split; [reflexivity|]. left. reflexivity.
        -- exfalso. assert (H : HYPHEN ∈ str "pg" ++ ofNat n)
             by (rewrite E; apply elem_of_app; right; apply elem_of_cons; auto).
           apply elem_of_app in H as [H|H];
             [exact (no_hyphen_list (str "pg") eq_refl H)|].
           exact (ofNat_no_hyphen n H).
      * intros H. apply elem_of_app in H as [H|H];
          [exact (no_hyphen_list (str "sec") eq_refl H)|].
        exact (ofNat_no_hyphen sIdx H).
  - exists ((str "sec" ++ ofNat sIdx) ++ HYPHEN :: str "end").
    split; [rewrite <- app_assoc; reflexivity|]. split.
    + norm_str. eexists _, _. split; [reflexivity|]. right. reflexivity.
    + intros u r E. apply split_at_first in E.
      * destruct E as [[_ ->]|(m & _ & E)].
        -- norm_str. eexists _, _. split; [reflexivity|]. right. reflexivity.
        -- exfalso. assert (H : HYPHEN ∈ str "end")
             by (rewrite E; apply elem_of_app; right; apply elem_of_cons; auto).
           exact (no_hyphen_list (str "end") eq_refl H).
      * intros H. apply elem_of_app in H as [H|H];
          [exact (no_hyphen_list (str "sec") eq_refl H)|].
        exact (ofNat_no_hyphen sIdx H).
Qed.

Lemma keySuffix_not_inside k l body :
  l <> [] -> hyphensInside body -> HYPHEN :: body = l ++ keySuffix k -> False.
Proof.
  intros Hl Hin E.
  destruct (keySuffix_shape k) as (b & Ek & (x & t & -> & Hx) & _).
  rewrite Ek in E. destruct l as [|c l]; [congruence|].
  simpl in E. injection E as _ E.
  destruct (Hin l (x :: t) E) as (y & r' & [= <- <-] & Hy).
  destruct Hx as [->| ->], Hy as [Hy|Hy]; discriminate.
Qed.

(** An id is split in one way only into a node id and the text of a key. *)
Lemma id_split_unique a1 a2 k1 k2 :
  a1 ++ keySuffix k1 = a2 ++ keySuffix k2 ->
  a1 = a2 /\ keySuffix k1 = keySuffix k2.
Proof.
  intros E. apply app_eq_app in E as [l [[-> E]|[-> E]]].
  - destruct (decide (l = [])) as [->|Hl].
    + rewrite app_nil_r. auto.
    + exfalso. destruct (keySuffix_shape k2) as (b & Ek & _ & Hin).
      rewrite Ek in E. exact (keySuffix_not_inside k1 l b Hl Hin E).
  - destruct (decide (l = [])) as [->|Hl].
    + rewrite app_nil_r. auto.
    + exfalso. destruct (keySuffix_shape k1) as (b & Ek & _ & Hin).
      rewrite Ek in E. exact (keySuffix_not_inside k2 l b Hl Hin E).
Qed.

Lemma keySuffix_inj k1 k2 : keySuffix k1 = keySuffix k2 -> k1 = k2.
Proof.
  assert (Hsec : forall a b r1 r2,
             HYPHEN ∉ ofNat a ->
             str "-sec" ++ ofNat a ++ HYPHEN :: r1
             = str "-sec" ++ ofNat b ++ HYPHEN :: r2 ->
             a = b /\ r1 = r2).
  { intros a b r1 r2 Ha E. apply app_inv_head in E.
    apply split_at_first in E; [|exact Ha].
    destruct E as [[E ->]|(m & E & _)].
    - split; [apply ofNat_inj; congruence|reflexivity].
    - exfalso. apply (ofNat_no_hyphen b). rewrite E.
      apply elem_of_app. right. apply elem_of_cons. auto. }
  destruct k1 as [|s1 n1|s1], k2 as [|s2 n2|s2]; cbn [keySuffix]; intros E;
    try reflexivity;
    try (exfalso; revert E; norm_str; simpl; discriminate).
  - change (str "-pg") with (HYPHEN :: str "pg") in E.
    apply Hsec in E as [-> E]; [|apply ofNat_no_hyphen].
    apply app_inv_head in E. apply ofNat_inj in E. congruence.
  - change (str "-pg") with (HYPHEN :: str "pg") in E.
    change (str "-end") with (HYPHEN :: str "end") in E.
    apply Hsec in E as [_ E]; [|apply ofNat_no_hyphen].
    revert E. norm_str. simpl. discriminate.
  - change (str "-pg") with (HYPHEN :: str "pg") in E.
    change (str "-end") with (HYPHEN :: str "end") in E.
    apply Hsec in E as [_ E]; [|apply ofNat_no_hyphen].
    revert E. norm_str. simpl. discriminate.
  - change (str "-end") with (HYPHEN :: str "end") in E.
    apply Hsec in E as [-> _]; [|apply ofNat_no_hyphen]. reflexivity.
Qed.

Lemma filler_id_apart a k : a ++ keySuffix k <> str "filler-end".
Proof.
  intros E. destruct (keySuffix_shape k) as (b & Ek & (x & t & -> & Hx) & _).
  rewrite Ek in E.
  change (str "filler-end") with (str "filler" ++ HYPHEN :: str "end") in E.
  symmetry in E.
  apply split_at_first in E; [|exact (no_hyphen_list (str "filler") eq_refl)].
  destruct E as [[_ E]|(m & _ & E)].
  - revert E. norm_str. intros [= -> _]. destruct Hx; discriminate.
  - assert (H : HYPHEN ∈ str "end")
      by (rewrite E; apply elem_of_app; right; apply elem_of_cons; auto).
    exact (no_hyphen_list (str "end") eq_refl H).
Qed.

(** *** The keys of the pages of a node *)

Lemma keyedId_inj node k1 k2 : keyedId node k1 = keyedId node k2 -> k1 = k2.
Proof. unfold keyedId. intros E. apply app_inv_head in E. apply keySuffix_inj, E. Qed.

Lemma closedPages_keys node section sIdx chunks :
  forall isFirst n,
    map id (closedPages node section sIdx isFirst n chunks)
    = map (keyedId node) (map (KeyPage sIdx) (seq n (length chunks))).
Proof.
  induction chunks as [|c cs IH]; intros isFirst n; [reflexivity|].
  simpl. rewrite IH. reflexivity.
Qed.

Lemma sectionPages_keys node nSections section sIdx n :
  exists keys,
    map id (sectionPages node nSections section sIdx n) = map (keyedId node) keys
    /\ NoDup keys
    /\ Forall (fun k => keySection k = Some sIdx) keys.
Proof.
  rewrite sectionPages_shape, map_app, closedPages_keys.
  set (m := length (closedChunks section)).
  assert (Hnd : NoDup (map (KeyPage sIdx) (seq n m))).
  { apply NoDup_fmap_2; [intros x y [= E]; exact E|apply NoDup_seq]. }
  assert (Hall : Forall (fun k => keySection k = Some sIdx)
                        (map (KeyPage sIdx) (seq n m))).
  { apply Forall_fmap, Forall_forall. intros; reflexivity. }
  unfold lastPages. destruct (leftover section) as [|w rest].
  - exists (map (KeyPage sIdx) (seq n m)). rewrite app_nil_r. auto.
  - exists (map (KeyPage sIdx) (seq n m) ++ [KeyEnd sIdx]).
    split; [rewrite map_app; f_equal; unfold keyedId; cbn;
            rewrite <- !app_assoc; reflexivity|].
    split.
    + apply NoDup_app. split; [exact Hnd|]. split; [|apply NoDup_singleton].
      intros k Hk Hin. apply list_elem_of_singleton in Hin as ->.
      apply list_elem_of_fmap in Hk as (j & Hj & _). discriminate.
    + apply Forall_app. split; [exact Hall|]. repeat constructor.
Qed.

Lemma sectionsPages_keys node nSections secs :
  forall sIdx n,
    exists keys,
      map id (sectionsPagesFrom node nSections sIdx n secs) = map (keyedId node) keys
      /\ NoDup keys
      /\ Forall (fun k => exists j, keySection k = Some j /\ sIdx <= j) keys.
Proof.
  induction secs as [|s secs IH]; intros sIdx n.
  - exists []. split; [reflexivity|]. split; constructor.
  - cbn [sectionsPagesFrom].
    destruct (sectionPages_keys node nSections s sIdx n) as (ks & E1 & N1 & F1).
    destruct (IH (S sIdx) (n + length (sectionPages node nSections s sIdx n)))
      as (ks' & E2 & N2 & F2).
    exists (ks ++ ks'). rewrite !map_app, E1, E2. split; [reflexivity|]. split.
    + apply NoDup_app. split; [exact N1|]. split; [|exact N2].
      intros k Hk Hk'. rewrite Forall_forall in F1, F2.
      specialize (F1 k Hk). destruct (F2 k Hk') as (j & Hj & Hle).
      rewrite F1 in Hj. injection Hj as <-. lia.
    + apply Forall_app. split.
      * eapply Forall_impl; [exact F1|]. intros k Hk. exists sIdx. split; [exact Hk|lia].
      * eapply Forall_impl; [exact F2|]. intros k (j & Hj & Hle). exists j. split; [exact Hj|lia].
Qed.

Lemma nodePages_keys gameMode node nodeIndex n :
  exists keys,
    map id (nodePages gameMode node nodeIndex n) = map (keyedId node) keys
    /\ NoDup keys.
Proof.
  rewrite nodePages_eq, map_app.
  destruct (sectionsPages_keys node (length (sections node)) (sections node) 0
              (n + length (visualPages gameMode node nodeIndex n)))
    as (ks & E & Hnd & Hall).
  rewrite E. unfold visualPages. destruct (_ && _).
  - exists (KeyVisual :: ks). split; [reflexivity|].
    apply NoDup_cons. split; [|exact Hnd].
    intros Hin. rewrite Forall_forall in Hall.
    destruct (Hall _ Hin) as (j & Hj & _). discriminate.
  - exists ks. auto.
Qed.

Lemma fragments_ids gameMode history :
  forall nodeIndex n,
    NoDup (map nodeId history) ->
    NoDup (map id (mjoin (fragmentsFrom gameMode nodeIndex n history)))
    /\ forall x, x ∈ map id (mjoin (fragmentsFrom gameMode nodeIndex n history)) ->
                 exists node k, node ∈ history /\ x = keyedId node k.
Proof.
  induction history as [|node h IH]; intros nodeIndex n Hnd.
  - split; [constructor|]. intros x Hx. apply elem_of_nil in Hx. contradiction.
  - apply NoDup_cons in Hnd as [Hnew Hnd].
    cbn [fragmentsFrom mjoin]. simpl. rewrite map_app.
    destruct (nodePages_keys gameMode node nodeIndex n) as (ks & E & Hks).
    destruct (IH (S nodeIndex) (n + length (nodePages gameMode node nodeIndex n)) Hnd)
      as [Hrest Hfrom].
    rewrite E. split.
    + apply NoDup_app. split; [|split; [|exact Hrest]].
      * apply NoDup_fmap_2; [intros k1 k2; apply keyedId_inj|exact Hks].
      * intros x Hx Hx'. apply list_elem_of_fmap in Hx as (k & -> & _).
        destruct (Hfrom _ Hx') as (node' & k' & Hin & Ex).
        unfold keyedId in Ex. apply id_split_unique in Ex as [Ex _].
        apply Hnew. rewrite Ex. apply list_elem_of_fmap_2, Hin.
    + intros x Hx. apply elem_of_app in Hx as [Hx|Hx].
      * apply list_elem_of_fmap in Hx as (k & -> & _).
        exists node, k. split; [apply elem_of_cons; auto|reflexivity].
      * destruct (Hfrom _ Hx) as (node' & k' & Hin & Ex).
        exists node', k'. split; [apply elem_of_cons; auto|exact Ex].
Qed.

(** X13 (page ids are unique): when the nodes of the history have ids of
    their own, so do the pages of the book, the filler page included. *)
Theorem page_ids_unique gameMode history :
  NoDup (map nodeId history) ->
  NoDup (map id (paginate gameMode history)).
Proof.
  intros Hnd.
  destruct (fragments_ids gameMode history 0 1 Hnd) as [Hids Hfrom].
  fold (fragments gameMode history) in Hids, Hfrom.
  destruct (paginate_cases gameMode history) as [[_ ->]|[_ ->]]; [exact Hids|].
  rewrite map_app. apply NoDup_app. split; [exact Hids|].
  split; [|apply NoDup_singleton].
  intros x Hx Hin. apply list_elem_of_singleton in Hin. simpl in Hin. subst x.
  destruct (Hfrom _ Hx) as (node & k & _ & E).
  symmetry in E. exact (filler_id_apart _ _ E).
Qed.

Lemma page_ids_unique_witness :
  NoDup (map id (paginate INTERACTIVE
                   [ mkNode (str "root") (str "T") (str "One.") [] (Some (str "castle"));
                     mkNode (str "root-c1") (str "T") (str "Two.") [] None ])).
Proof.
  apply page_ids_unique.
  apply (bool_decide_unpack _). vm_compute. exact I.
Defined.

(** ** Retry with backoff *)

Lemma backoff_snoc d k : backoff d (S k) = backoff d k ++ [(d * 2 ^ Z.of_nat k)%Z].
Proof. unfold backoff. rewrite seq_S, map_app. reflexivity. Qed.

Lemma retryLoop_spec {R} (api : nat -> Outcome R) retries d fuel :
  forall made,
    (Z.of_nat made <= retries)%Z ->
    (retries - Z.of_nat made < Z.of_nat fuel)%Z ->
    let run := retryLoop api retries fuel (Z.of_nat made)
                         (d * 2 ^ Z.of_nat made) made (backoff d made) in
    exists k,
      made <= k /\ (Z.of_nat k <= retries)%Z
      /\ calls run = S k
      /\ sleeps run = backoff d k
      /\ (forall j, made <= j < k ->
            exists e, api j = Rejected e /\ retryable e = true)
      /\ match api k with
         | Resolved r => final run = Returned r
         | Rejected e =>
             final run = Threw e
             /\ (retryable e = false \/ Z.of_nat k = retries)
         end.
Proof.
  induction fuel as [|fuel IH]; intros made Hle Hfuel; [lia|].
  cbn [retryLoop]. destruct (Z.leb_spec (Z.of_nat made) retries); [|lia].
  destruct (api made) as [r|e] eqn:Eapi.
  - exists made. rewrite Eapi. cbn.
    split; [lia|]. split; [lia|]. split; [reflexivity|]. split; [reflexivity|].
    split; [intros j Hj; lia|]. reflexivity.
  - fold (retryable e). destruct (retryable e) eqn:Er; cbn [andb].
    + destruct (Z.ltb_spec (Z.of_nat made) retries) as [Hlt|Hge].
      * specialize (IH (S made) ltac:(lia) ltac:(lia)).
        replace (Z.of_nat made + 1)%Z with (Z.of_nat (S made)) by lia.
        replace (d * 2 ^ Z.of_nat made * 2)%Z with (d * 2 ^ Z.of_nat (S made))%Z
          by (rewrite Nat2Z.inj_succ, Z.pow_succ_r by lia; lia).
        rewrite <- backoff_snoc.
        destruct IH as (k & Hk & Hkr & Hc & Hs & Hprev & Hlast).
        exists k. split; [lia|]. split; [exact Hkr|]. split; [exact Hc|].
        split; [exact Hs|]. split; [|exact Hlast].
        intros j Hj. destruct (decide (j = made)) as [->|Hne].
        -- exists e. auto.
        -- apply Hprev. lia.
      * exists made. rewrite Eapi. cbn.
        split; [lia|]. split; [lia|]. split; [reflexivity|]. split; [reflexivity|].
        split; [intros j Hj; lia|].
        split; [reflexivity|]. right. lia.
    + exists made. rewrite Eapi. cbn.
      split; [lia|]. split; [lia|]. split; [reflexivity|]. split; [reflexivity|].
      split; [intros j Hj; lia|].
      split; [reflexivity|]. left. exact Er.
Qed.

Lemma sumZ_backoff d k : sumZ (backoff d k) = (d * (2 ^ Z.of_nat k - 1))%Z.
Proof.
  induction k as [|k IH]; [simpl; lia|].
  rewrite backoff_snoc. unfold sumZ in *. rewrite foldr_app. simpl.
  assert (E : forall l a, foldr Z.add a l = (foldr Z.add 0 l + a)%Z).
  { induction l as [|x l IHl]; intros a; simpl; [lia|]. rewrite IHl. lia. }
  rewrite E, IH, Nat2Z.inj_succ, Z.pow_succ_r by lia. lia.
Qed.

Lemma generateWithRetry_spec {R} (api : nat -> Outcome R) retries d :
  (0 <= retries)%Z ->
  exists k,
    (Z.of_nat k <= retries)%Z
    /\ calls (generateWithRetry api retries d) = S k
    /\ sleeps (generateWithRetry api retries d) = backoff d k
    /\ (forall j, j < k -> exists e, api j = Rejected e /\ retryable e = true)
    /\ match api k with
       | Resolved r => final (generateWithRetry api retries d) = Returned r
       | Rejected e =>
           final (generateWithRetry api retries d) = Threw e
           /\ (retryable e = false \/ Z.of_nat k = retries)
       end.
Proof.
  intros Hr.
  destruct (retryLoop_spec api retries d (S (Z.to_nat (retries + 1))) 0)
    as (k & _ & Hk & Hc & Hs & Hprev & Hlast); [lia|lia|].
  change (Z.of_nat 0) with 0%Z in *. rewrite Z.pow_0_r, Z.mul_1_r in *.
  change (backoff d 0) with (@nil Z) in *.
  exists k. split; [exact Hk|]. split; [exact Hc|]. split; [exact Hs|].
  split; [intros j Hj; apply Hprev; lia|exact Hlast].
Qed.

(** X14 (retry outcome): with [retries] at least 0, the run makes between 1
    and [retries + 1] calls; every call before the last was rejected with a
    quota or server error; the run returns the response of the last call when
    that call resolves, and otherwise rethrows its error, which is then not a
    quota or server error unless the last call was call number
    [retries + 1].  The error of the end of the function is never thrown, and
    the loop always ends. *)
Theorem retry_outcome {R} (api : nat -> Outcome R) (retries initialDelay : Z) :
  (0 <= retries)%Z ->
  let run := generateWithRetry api retries initialDelay in
  exists k,
    calls run = S k /\ (Z.of_nat k <= retries)%Z
    /\ (forall j, j < k -> exists e, api j = Rejected e /\ retryable e = true)
    /\ match api k with
       | Resolved r => final run = Returned r
       | Rejected e =>
           final run = Threw e
           /\ (retryable e = false \/ Z.of_nat k = retries)
       end
    /\ final run <> ThrewMaxRetries
    /\ final run <> OutOfFuel.
Proof.
  intros Hr run. subst run.
  destruct (generateWithRetry_spec api retries initialDelay Hr)
    as (k & Hk & Hc & _ & Hprev & Hlast).
  exists k. split; [exact Hc|]. split; [exact Hk|]. split; [exact Hprev|].
  split; [exact Hlast|].
  destruct (api k) as [r|e]; [rewrite Hlast|destruct Hlast as [-> _]];
    split; discriminate.
Qed.

Lemma retry_outcome_witness :
  let api := fun k : nat =>
    match k with
    | 0 => Rejected {| errStatus := Some 429%Z; errCode := None; errMessage := None |}
    | 1 => Rejected {| errStatus := None; errCode := None;
                       errMessage := Some (str "quota exceeded") |}
    | _ => Resolved 7
    end in
  final (generateWithRetry api 5 2000) = Returned 7
  /\ calls (generateWithRetry api 5 2000) = 3.
Proof.
  intros api.
  destruct (retry_outcome api 5 2000 ltac:(lia)) as (k & Hc & _ & Hprev & Hlast & _).
  split; reflexivity.
Defined.

(** X15 (backoff schedule): the delays waited are the initial delay, twice
    it, four times it and so on, one delay between two calls; with [retries]
    at least 0 and a delay that is not negative they add up to at most
    [initialDelay * (2 ^ retries - 1)], which is 62000 for the defaults. *)
Theorem retry_backoff {R} (api : nat -> Outcome R) (retries initialDelay : Z) :
  (0 <= retries)%Z -> (0 <= initialDelay)%Z ->
  let run := generateWithRetry api retries initialDelay in
  sleeps run = backoff initialDelay (calls run - 1)
  /\ sumZ (sleeps run) = (initialDelay * (2 ^ Z.of_nat (calls run - 1) - 1))%Z
  /\ (sumZ (sleeps run) <= initialDelay * (2 ^ retries - 1))%Z
  /\ (initialDelay = 2000%Z -> retries = 5%Z ->
      (sumZ (sleeps run) <= 62000)%Z).
Proof.
  intros Hr Hd run. subst run.
  destruct (generateWithRetry_spec api retries initialDelay Hr)
    as (k & Hk & Hc & Hs & _).
  rewrite Hc, Hs. replace (S k - 1) with k by lia.
  rewrite sumZ_backoff.
  assert (Hpow : (2 ^ Z.of_nat k <= 2 ^ retries)%Z)
    by (apply Z.pow_le_mono_r; lia).
  split; [reflexivity|]. split; [reflexivity|]. split; [nia|].
  intros -> ->. change (2 ^ 5)%Z with 32%Z in Hpow. lia.
Qed.

Lemma retry_backoff_witness :
  let api := fun k : nat =>
    match k with
    | 0 | 1 | 2 => @Rejected nat {| errStatus := Some 503%Z; errCode := None; errMessage := None |}
    | _ => Resolved 7
    end in
  sleeps (generateWithRetry api 5 2000) = [2000; 4000; 8000]%Z.
Proof.
  intros api.
  destruct (retry_backoff api 5 2000 ltac:(lia) ltac:(lia)) as (Hs & _).
  exact Hs.
Defined.

(** ** The batches of a long story *)

Lemma totalBatches_bounds storyLength :
  (1 <= totalBatches storyLength)%Z
  /\ (storyLength <= totalBatches storyLength * 1000)%Z
  /\ (1 < totalBatches storyLength ->
      (totalBatches storyLength - 1) * 1000 < storyLength)%Z.
Proof.
  unfold totalBatches, ceilDiv, wordsPerBatch.
  pose proof (Z.div_mod (- storyLength) 1000 ltac:(lia)) as Hd.
  pose proof (Z.mod_pos_bound (- storyLength) 1000 ltac:(lia)) as Hm.
  lia.
Qed.

Lemma batchPrompts_length storyLength :
  length (batchPrompts storyLength) = Z.to_nat (totalBatches storyLength).
Proof.
  unfold batchPrompts. destruct (Z.eqb_spec (totalBatches storyLength) 1) as [->|].
  - reflexivity.
  - rewrite length_map, length_seq. reflexivity.
Qed.

(** X16 (batches cover the length): the number of batches is at least 1; at
    1000 words a batch they reach the story length, and with more than one
    batch one batch fewer would not.  A story length from 100 to 60000, the
    range of the length input, gives from 1 to 60 batches. *)
Theorem batches_cover_length (storyLength : Z) :
  length (batchPrompts storyLength) = Z.to_nat (totalBatches storyLength)
  /\ (1 <= totalBatches storyLength)%Z
  /\ (storyLength <= totalBatches storyLength * wordsPerBatch)%Z
  /\ ((1 < totalBatches storyLength)%Z ->
      ((totalBatches storyLength - 1) * wordsPerBatch < storyLength)%Z)
  /\ ((100 <= storyLength <= 60000)%Z ->
      (1 <= totalBatches storyLength <= 60)%Z).
Proof.
  destruct (totalBatches_bounds storyLength) as (H1 & H2 & H3).
  unfold wordsPerBatch.
  split; [apply batchPrompts_length|].
  split; [exact H1|split; [exact H2|split; [exact H3|lia]]].
Qed.

Lemma batchKinds_lookup storyLength i k :
  batchKinds storyLength !! i = Some k <->
  (Z.of_nat i < totalBatches storyLength)%Z
  /\ k = partKind (totalBatches storyLength) (Z.of_nat i).
Proof.
  unfold batchKinds. rewrite list_lookup_fmap, fmap_Some. split.
  - intros (j & Hj & ->). apply lookup_seq in Hj as [-> Hlt]. split; [lia|reflexivity].
  - intros [Hlt ->]. exists i. split; [|reflexivity].
    apply lookup_seq. split; [reflexivity|lia].
Qed.

(** X17 (the parts of a long story): with more than one batch, the prompts
    are those of the parts in order; the first part, and no other, is the
    beginning and the last, and no other, the conclusion; the midpoint is the
    part at half the number of batches, when there are at least 3; the part
    where the climax begins is the last but one, and there is one only when
    there are at least 5 batches, because with 3 or 4 the last but one is the
    midpoint. *)
Theorem story_parts (storyLength : Z) (i : nat) :
  let total := totalBatches storyLength in
  (1 < total)%Z ->
  batchPrompts storyLength = map (partPrompt total) (seq 0 (Z.to_nat total))
  /\ length (batchKinds storyLength) = Z.to_nat total
  /\ (batchKinds storyLength !! i = Some TheBeginning <-> i = 0)
  /\ (batchKinds storyLength !! i = Some TheConclusion <->
      Z.of_nat i = (total - 1)%Z)
  /\ (batchKinds storyLength !! i = Some TheMidpoint <->
      (3 <= total /\ Z.of_nat i = total / 2)%Z)
  /\ (batchKinds storyLength !! i = Some TheClimaxBegins <->
      (5 <= total /\ Z.of_nat i = total - 2)%Z).
Proof.
  intros total Hgt.
  assert (Hhalf : (total = 2 * (total / 2) + total mod 2)%Z)
    by (apply Z.div_mod; lia).
  pose proof (Z.mod_pos_bound total 2 ltac:(lia)) as Hmod.
  split; [|split; [|split; [|split; [|split]]]].
  - unfold batchPrompts. fold total.
    destruct (Z.eqb_spec total 1); [lia|reflexivity].
  - unfold batchKinds. rewrite length_map, length_seq. reflexivity.
  - rewrite batchKinds_lookup. fold total. unfold partKind. split.
    + intros [Hlt Hk].
      destruct (Z.eqb_spec (Z.of_nat i) 0); [lia|].
      destruct (Z.eqb_spec (Z.of_nat i) (total - 1)); [discriminate|].
      destruct (Z.eqb_spec (Z.of_nat i) (total / 2)); [discriminate|].
      destruct (Z.eqb_spec (Z.of_nat i) (total - 2)); discriminate.
    + intros ->. split; [lia|reflexivity].
  - rewrite batchKinds_lookup. fold total. unfold partKind. split.
    + intros [Hlt Hk].
      destruct (Z.eqb_spec (Z.of_nat i) 0); [discriminate|].
      destruct (Z.eqb_spec (Z.of_nat i) (total - 1)); [lia|].
      destruct (Z.eqb_spec (Z.of_nat i) (total / 2)); [discriminate|].
      destruct (Z.eqb_spec (Z.of_nat i) (total - 2)); discriminate.
    + intros Hi. split; [lia|].
      destruct (Z.eqb_spec (Z.of_nat i) 0); [lia|].
      destruct (Z.eqb_spec (Z.of_nat i) (total - 1)); [reflexivity|lia].
  - rewrite batchKinds_lookup. fold total. unfold partKind. split.
    + intros [Hlt Hk].
      destruct (Z.eqb_spec (Z.of_nat i) 0); [discriminate|].
      destruct (Z.eqb_spec (Z.of_nat i) (total - 1)); [discriminate|].
      destruct (Z.eqb_spec (Z.of_nat i) (total / 2)); [lia|].
      destruct (Z.eqb_spec (Z.of_nat i) (total - 2)); discriminate.
    + intros [Hge Hi]. split; [lia|].
      destruct (Z.eqb_spec (Z.of_nat i) 0); [lia|].
      destruct (Z.eqb_spec (Z.of_nat i) (total - 1)); [lia|].
      destruct (Z.eqb_spec (Z.of_nat i) (total / 2)); [reflexivity|lia].
  - rewrite batchKinds_lookup. fold total. unfold partKind. split.
    + intros [Hlt Hk].
      destruct (Z.eqb_spec (Z.of_nat i) 0); [discriminate|].
      destruct (Z.eqb_spec (Z.of_nat i) (total - 1)); [discriminate|].
      destruct (Z.eqb_spec (Z.of_nat i) (total / 2)); [discriminate|].
      destruct (Z.eqb_spec (Z.of_nat i) (total - 2)); [lia|discriminate].
    + intros [Hge Hi]. split; [lia|].
      destruct (Z.eqb_spec (Z.of_nat i) 0); [lia|].
      destruct (Z.eqb_spec (Z.of_nat i) (total - 1)); [lia|].
      destruct (Z.eqb_spec (Z.of_nat i) (total / 2)); [lia|].
      destruct (Z.eqb_spec (Z.of_nat i) (total - 2)); [reflexivity|lia].
Qed.

Lemma story_parts_witness :
  batchKinds 5000
  = [TheBeginning; MiddlePart; TheMidpoint; TheClimaxBegins; TheConclusion]
  /\ (batchKinds 5000 !! 3 = Some TheClimaxBegins <->
      (5 <= totalBatches 5000 /\ 3 = totalBatches 5000 - 2)%Z).
Proof.
  split; [reflexivity|].
  destruct (story_parts 5000 3 ltac:(reflexivity)) as (_ & _ & _ & _ & _ & H).
  exact H.
Defined.

(** ** A story written in batches *)

Lemma linearLoop_written {E} (results : list (BatchResult E)) :
  forall st,
    truthy (fullStoryContent st) = true ->
    exists st',
      linearLoop st results = inl st'
      /\ fullStoryContent st'
         = fullStoryContent st
           ++ mjoin (map (fun d => [LF; LF] ++ nodeContent (layout d))
                         (parsedNodes results))
      /\ truthy (fullStoryContent st') = true.
Proof.
  induction results as [|r rs IH]; intros st Hst.
  - exists st. rewrite app_nil_r. auto.
  - destruct r as [d| |e]; cbn [linearLoop].
    + destruct (IH (absorb st d)) as (st' & Hl & Hc & Ht).
      { cbn. rewrite Hst. destruct (fullStoryContent st); [discriminate|reflexivity]. }
      exists st'. split; [exact Hl|]. split; [|exact Ht].
      rewrite Hc. cbn. rewrite Hst, <- !app_assoc. reflexivity.
    + apply IH, Hst.
    + rewrite Hst. apply IH, Hst.
Qed.

Lemma joinBlankLine_cons x l :
  joinBlankLine (x :: l) = x ++ mjoin (map (fun y => [LF; LF] ++ y) l).
Proof.
  revert x. induction l as [|y l IH]; intros x; simpl.
  - rewrite app_nil_r. reflexivity.
  - change (match l with [] => y | _ :: _ => y ++ LF :: LF :: joinBlankLine l end)
      with (joinBlankLine (y :: l)).
    rewrite IH. reflexivity.
Qed.

Lemma linearLoop_content {E} (results : list (BatchResult E)) :
  forall st st',
    fullStoryContent st = [] ->
    linearLoop st results = inl st' ->
    fullStoryContent st'
    = joinBlankLine (dropEmpty (map (fun d => nodeContent (layout d))
                                    (parsedNodes results))).
Proof.
  induction results as [|r rs IH]; intros st st' Hst Hl.
  - injection Hl as <-. exact Hst.
  - destruct r as [d| |e]; cbn [linearLoop] in Hl.
    + change (parsedNodes (Parsed d :: rs)) with (d :: parsedNodes rs).
      cbn [map dropEmpty]. destruct (nodeContent (layout d)) as [|c cs] eqn:Ed.
      * apply (IH (absorb st d)); [|exact Hl]. cbn. rewrite Hst, Ed. reflexivity.
      * destruct (linearLoop_written rs (absorb st d)) as (st2 & Hl2 & Hc & _).
        { cbn. rewrite Hst, Ed. reflexivity. }
        rewrite Hl2 in Hl. injection Hl as <-. rewrite Hc.
        rewrite joinBlankLine_cons, <- list_fmap_compose. cbn.
        rewrite Hst, Ed. reflexivity.
    + apply (IH st); assumption.
    + rewrite Hst in Hl. discriminate.
Qed.

Lemma linearLoop_failure {E} (results : list (BatchResult E)) :
  forall st e,
    fullStoryContent st = [] ->
    (linearLoop st results = inr e <->
     exists k, results !! k = Some (BatchFailed e)
               /\ forall j r, j < k -> results !! j = Some r -> quiet r).
Proof.
  induction results as [|r rs IH]; intros st e Hst.
  - split; [discriminate|]. intros (k & Hk & _). rewrite lookup_nil in Hk. discriminate.
  - destruct r as [d| |e']; cbn [linearLoop].
    + destruct (nodeContent (layout d)) as [|c cs] eqn:Ed.
      * rewrite (IH (absorb st d)) by (cbn; rewrite Hst, Ed; reflexivity).
        split; intros (k & Hk & Hq).
        -- exists (S k). split; [exact Hk|]. intros [|j] r Hj Hr; simpl in Hr.
           ++ injection Hr as <-. exact Ed.
           ++ apply (Hq j); [lia|exact Hr].
        -- destruct k as [|k]; [discriminate|]. exists k. split; [exact Hk|].
           intros j r Hj Hr. apply (Hq (S j)); [lia|exact Hr].
      * destruct (linearLoop_written rs (absorb st d)) as (st2 & -> & _).
        { cbn. rewrite Hst, Ed. reflexivity. }
        split; [discriminate|]. intros (k & Hk & Hq).
        destruct k as [|k]; [discriminate|].
        specialize (Hq 0 (Parsed d) ltac:(lia) eq_refl). simpl in Hq. congruence.
    + rewrite (IH st) by exact Hst.
      split; intros (k & Hk & Hq).
      * exists (S k). split; [exact Hk|]. intros [|j] r Hj Hr; simpl in Hr.
        -- injection Hr as <-. exact I.
        -- apply (Hq j); [lia|exact Hr].
      * destruct k as [|k]; [discriminate|]. exists k. split; [exact Hk|].
        intros j r Hj Hr. apply (Hq (S j)); [lia|exact Hr].
    + rewrite Hst. cbn [truthy]. split.
      * intros [= ->]. exists 0. split; [reflexivity|]. intros j r Hj; lia.
      * intros (k & Hk & Hq). destruct k as [|k].
        -- injection Hk as ->. reflexivity.
        -- specialize (Hq 0 (BatchFailed e') ltac:(lia) eq_refl). contradiction.
Qed.

Lemma absorb_image_truthy st d : truthy (firstImagePrompt (absorb st d)) = true.
Proof.
  cbn. destruct (truthy (firstImagePrompt st)) eqn:E; [exact E|].
  destruct (backgroundImagePrompt (layout d)) as [[|c s]|]; reflexivity.
Qed.

Lemma linearLoop_frozen {E} (results : list (BatchResult E)) :
  forall st st',
    truthy (firstImagePrompt st) = true ->
    linearLoop st results = inl st' ->
    firstImagePrompt st' = firstImagePrompt st /\ overallTitle st' = overallTitle st.
Proof.
  induction results as [|r rs IH]; intros st st' Hst Hl.
  - injection Hl as <-. auto.
  - destruct r as [d| |e]; cbn [linearLoop] in Hl.
    + destruct (IH _ _ (absorb_image_truthy st d) Hl) as [-> ->].
      cbn. rewrite Hst. auto.
    + eapply IH; eauto.
    + destruct (truthy (fullStoryContent st)); [eapply IH; eauto|discriminate].
Qed.

Lemma linearLoop_last {E} (results : list (BatchResult E)) :
  forall st st',
    linearLoop st results = inl st' ->
    finalStats st' = from_option stats (finalStats st) (last (parsedNodes results))
    /\ finalCharUpdates st'
       = from_option characterUpdates (finalCharUpdates st)
                     (last (parsedNodes results)).
Proof.
  induction results as [|r rs IH]; intros st st' Hl.
  - injection Hl as <-. auto.
  - destruct r as [d| |e]; cbn [linearLoop] in Hl.
    + change (parsedNodes (Parsed d :: rs)) with (d :: parsedNodes rs).
      destruct (IH _ _ Hl) as [-> ->].
      destruct (parsedNodes rs) as [|d' ds] eqn:Ep; [auto|].
      change (last (d :: d' :: ds)) with (last (d' :: ds)).
      destruct (last (d' :: ds)) eqn:El; [auto|].
      apply last_None in El. discriminate.
    + eapply IH; eauto.
    + destruct (truthy (fullStoryContent st)); [eapply IH; eauto|discriminate].
Qed.

Lemma linearLoop_first {E} (results : list (BatchResult E)) :
  forall st st',
    firstImagePrompt st = [] ->
    linearLoop st results = inl st' ->
    match head (parsedNodes results) with
    | None => firstImagePrompt st' = [] /\ overallTitle st' = overallTitle st
    | Some d =>
        firstImagePrompt st'
        = (if truthyOpt (backgroundImagePrompt (layout d))
           then default [] (backgroundImagePrompt (layout d))
           else defaultImagePrompt)
        /\ overallTitle st'
           = (if truthy (nodeChapterTitle (layout d))
              then nodeChapterTitle (layout d) else overallTitle st)
    end.
Proof.
  induction results as [|r rs IH]; intros st st' Hst Hl.
  - injection Hl as <-. simpl. auto.
  - destruct r as [d| |e]; cbn [linearLoop] in Hl.
    + change (head (parsedNodes (Parsed d :: rs))) with (Some d).
      destruct (linearLoop_frozen _ _ _ (absorb_image_truthy st d) Hl) as [-> ->].
      cbn. rewrite Hst. auto.
    + apply (IH st); assumption.
    + destruct (truthy (fullStoryContent st)); [apply (IH st); assumption|discriminate].
Qed.

(** X18 (when a batched story fails): the [LINEAR] start throws exactly when
    a batch fails while no content has been written yet, that is when every
    batch before it came back without text or with empty content; it then
    throws the error of that batch.  A batch that fails after some content was
    written is skipped. *)
Theorem linear_story_fails {E} (category protagonist : jsstring)
    (storyLength : Z) (respond : nat -> BatchResult E) (e : E) :
  startStoryLinear category protagonist storyLength respond = inr e
  <-> exists k,
        k < Z.to_nat (totalBatches storyLength)
        /\ respond k = BatchFailed e
        /\ forall j, j < k -> quiet (respond j).
Proof.
  unfold startStoryLinear.
  rewrite batchPrompts_length.
  set (n := Z.to_nat (totalBatches storyLength)).
  pose proof (linearLoop_failure (map respond (seq 0 n))
                (initialLinearState category protagonist) e eq_refl) as H.
  destruct (linearLoop _ _) as [st|e'] eqn:El.
  - split; [discriminate|]. intros (k & Hk & Hr & Hq).
    assert (@inl LinearState E st = inr e); [|discriminate].
    apply H. exists k. split.
    + rewrite list_lookup_fmap, lookup_seq_lt by lia. simpl. congruence.
    + intros j r Hj Hjr. rewrite list_lookup_fmap, lookup_seq_lt in Hjr by lia.
      injection Hjr as <-. apply Hq, Hj.
  - split.
    + intros [= ->]. destruct (proj1 H eq_refl) as (k & Hk & Hq).
      rewrite list_lookup_fmap in Hk. apply fmap_Some in Hk as (i & Hi & Hr).
      apply lookup_seq in Hi as [-> Hlt]. exists k. split; [exact Hlt|].
      split; [simpl in Hr; congruence|]. intros j Hj.
      apply (Hq j (respond j) Hj).
      rewrite list_lookup_fmap, lookup_seq_lt by lia. reflexivity.
    + intros (k & Hk & Hr & Hq). f_equal.
      assert (@inr LinearState E e' = inr e); [|congruence].
      apply H. exists k. split.
      * rewrite list_lookup_fmap, lookup_seq_lt by lia. simpl. congruence.
      * intros j r Hj Hjr. rewrite list_lookup_fmap, lookup_seq_lt in Hjr by lia.
        injection Hjr as <-. apply Hq, Hj.
Qed.

(** X19 (what a batched story holds): when the [LINEAR] start returns a
    node, its content is the contents of the parsed batches, in order and with
    a blank line between them, empty contents at the start left out; its title
    and image prompt come from the first parsed batch and its stats and
    character updates from the last one (those of the batches between are
    dropped); its id is [root-linear-full] and it has no choices. *)
Theorem linear_story_content {E} (category protagonist : jsstring)
    (storyLength : Z) (respond : nat -> BatchResult E) (node : StoryNodeFull) :
  startStoryLinear category protagonist storyLength respond = inl node ->
  let parsed := parsedNodes (map respond (seq 0 (Z.to_nat (totalBatches storyLength)))) in
  nodeContent (layout node)
  = joinBlankLine (dropEmpty (map (fun d => nodeContent (layout d)) parsed))
  /\ nodeId (layout node) = str "root-linear-full"
  /\ nodeChoices (layout node) = []
  /\ stats node
     = from_option stats {| tension := 50; mystery := 50; romance := 50; hope := 50 |}
                   (last parsed)
  /\ characterUpdates node = from_option characterUpdates [] (last parsed)
  /\ match head parsed with
     | None =>
         backgroundImagePrompt (layout node) = Some []
         /\ nodeChapterTitle (layout node)
            = str "The " ++ category ++ str " of " ++ protagonist
     | Some d =>
         backgroundImagePrompt (layout node)
         = Some (if truthyOpt (backgroundImagePrompt (layout d))
                 then default [] (backgroundImagePrompt (layout d))
                 else defaultImagePrompt)
         /\ nodeChapterTitle (layout node)
            = (if truthy (nodeChapterTitle (layout d))
               then nodeChapterTitle (layout d)
               else str "The " ++ category ++ str " of " ++ protagonist)
     end.
Proof.
  unfold startStoryLinear.
  rewrite batchPrompts_length.
  set (results := map respond (seq 0 (Z.to_nat (totalBatches storyLength)))).
  destruct (linearLoop _ results) as [st|e] eqn:El; [|discriminate].
  intros [= <-]. cbn [layout finalNode nodeContent nodeId nodeChoices stats
                      characterUpdates backgroundImagePrompt nodeChapterTitle].
  pose proof (linearLoop_content results
                (initialLinearState category protagonist) st eq_refl El) as Hc.
  destruct (linearLoop_last results _ _ El) as [Hs Hu].
  pose proof (linearLoop_first results
                (initialLinearState category protagonist) st eq_refl El) as Hf.
  split; [exact Hc|]. split; [reflexivity|]. split; [reflexivity|].
  split; [exact Hs|]. split; [exact Hu|].
  destruct (head (parsedNodes results)); destruct Hf as [-> ->]; split; reflexivity.
Qed.

Lemma linear_story_content_witness :
  let d (c : jsstring) :=
    {| layout := mkNode [] (str "Dawn") c [] (Some (str "castle"));
       characterUpdates := [];
       stats := {| tension := 1; mystery := 2; romance := 3; hope := 4 |};
       summary := [] |} in
  let respond := fun k : nat =>
    match k with
    | 0 => Parsed (d [])
    | 1 => Parsed (d (str "## One"))
    | 2 => @BatchFailed nat 7
    | _ => Parsed (d (str "## Two"))
    end in
  exists node,
    startStoryLinear (str "Fantasy") (str "Ann") 4000 respond = inl node
    /\ nodeContent (layout node) = str "## One" ++ [LF; LF] ++ str "## Two".
Proof.
  intros d respond. eexists. split; [reflexivity|].
  exact (proj1 (linear_story_content (str "Fantasy") (str "Ann") 4000 respond _ eq_refl)).
Defined.

Lemma paginate_single gameMode node :
  exists filler,
    paginate gameMode [node] = nodePages gameMode node 0 1 ++ filler
    /\ Forall (fun p => choices p = None) filler.
Proof.
  destruct (paginate_cases gameMode [node]) as [[_ ->]|[_ ->]];
    unfold fragments; cbn [fragmentsFrom mjoin]; simpl; rewrite app_nil_r.
  - exists []. rewrite app_nil_r. split; [reflexivity|constructor].
  - eexists. split; [reflexivity|]. repeat constructor.
Qed.

(** X20 (the book of a batched story): no page of the book of a node that
    the [LINEAR] start returns shows choices; and when no batch was parsed the
    book has no page at all. *)
Theorem linear_story_book {E} (category protagonist : jsstring)
    (storyLength : Z) (respond : nat -> BatchResult E) (node : StoryNodeFull)
    (gameMode : GameMode) :
  startStoryLinear category protagonist storyLength respond = inl node ->
  Forall (fun p => carriesChoices p = false) (paginate gameMode [layout node])
  /\ (parsedNodes (map respond (seq 0 (Z.to_nat (totalBatches storyLength)))) = [] ->
      paginate gameMode [layout node] = []).
Proof.
  unfold startStoryLinear.
  rewrite batchPrompts_length.
  set (results := map respond (seq 0 (Z.to_nat (totalBatches storyLength)))).
  destruct (linearLoop _ results) as [st|e] eqn:El; [|discriminate].
  intros [= <-]. split.
  - destruct (paginate_single gameMode (layout (finalNode storyLength st)))
      as (filler & -> & Hf).
    apply Forall_app. split.
    + apply Forall_lookup. intros j p Hp.
      destruct (nodePages_choices gameMode (layout (finalNode storyLength st)) 0 1)
        as [Hc _].
      unfold carriesChoices. destruct (choices p) as [cs|] eqn:Ec; [|reflexivity].
      destruct (Hc j p Hp) as [_ Hcs]; [congruence|].
      rewrite Ec in Hcs. injection Hcs as ->. reflexivity.
    + eapply Forall_impl; [exact Hf|]. intros p Hp.
      unfold carriesChoices. rewrite Hp. reflexivity.
  - intros Hp.
    pose proof (linearLoop_content results
                  (initialLinearState category protagonist) st eq_refl El) as Hc.
    pose proof (linearLoop_first results
                  (initialLinearState category protagonist) st eq_refl El) as Hf.
    rewrite Hp in Hc, Hf. simpl in Hc, Hf. destruct Hf as [Hi _].
    assert (E0 : nodePages gameMode (layout (finalNode storyLength st)) 0 1 = []).
    { rewrite nodePages_eq. unfold visualPages.
      cbn [layout finalNode backgroundImagePrompt]. rewrite Hi. cbn [truthyOpt truthy andb].
      rewrite sections_blank by (cbn; rewrite Hc; reflexivity). reflexivity. }
    destruct (paginate_cases gameMode [layout (finalNode storyLength st)])
      as [[_ ->]|[Hodd _]];
      unfold fragments in *; cbn [fragmentsFrom mjoin] in *; simpl in *;
      rewrite E0 in *; [reflexivity|discriminate].
Qed.

Lemma linear_story_book_witness :
  exists node,
    startStoryLinear (str "Fantasy") (str "Ann") 500 (fun _ => @NoText nat) = inl node
    /\ paginate LINEAR [layout node] = [].
Proof.
  eexists. split; [reflexivity|].
  exact (proj2 (linear_story_book (str "Fantasy") (str "Ann") 500
                  (fun _ => @NoText nat) _ LINEAR eq_refl) eq_refl).
Defined.

(** ** The ids of the nodes of a story *)

Lemma Played_ids history :
  Played history ->
  NoDup (map nodeId history)
  /\ exists lastNode,
       last history = Some lastNode
       /\ forall n, n ∈ history -> length (nodeId n) <= length (nodeId lastNode).
Proof.
  induction 1 as [n|history choiceId data history' _ [Hnd (l & Hl & Hmax)] Hc].
  - split; [repeat constructor; apply not_elem_of_nil|].
    exists n. split; [reflexivity|]. intros m Hm.
    apply list_elem_of_singleton in Hm as ->. lia.
  - unfold continueHistory in Hc. rewrite Hl in Hc. injection Hc as <-.
    set (new := withId (continueId (nodeId l) choiceId) data).
    assert (Hlen : length (nodeId l) < length (nodeId new)).
    { unfold new, continueId. cbn. rewrite !length_app. simpl. lia. }
    split.
    + rewrite map_app. apply NoDup_app. split; [exact Hnd|].
      split; [|apply NoDup_singleton].
      intros x Hx Hin. apply list_elem_of_singleton in Hin as ->.
      apply list_elem_of_fmap in Hx as (m & Hm & Hin).
      apply Hmax in Hin. rewrite <- Hm in Hin. lia.
    + exists new. split; [apply last_snoc|]. intros m Hm.
      apply elem_of_app in Hm as [Hm|Hm].
      * apply Hmax in Hm. lia.
      * apply list_elem_of_singleton in Hm as ->. lia.
Qed.

(** X21 (node ids are distinct): in a history built from a start node by
    choices, every node has an id of its own, because the id of a new node is
    longer than every id before it. *)
Theorem played_ids_distinct (history : list StoryNode) :
  Played history -> NoDup (map nodeId history).
Proof. intros H. apply (Played_ids history H). Qed.

Lemma played_ids_distinct_witness :
  NoDup (map nodeId
           [ mkNode (str "root") [] [] [] None;
             mkNode (str "root-c1") [] [] [] None;
             mkNode (str "root-c1-c1") [] [] [] None ]).
Proof.
  apply played_ids_distinct.
  apply (played_choice
           [mkNode (str "root") [] [] [] None; mkNode (str "root-c1") [] [] [] None]
           (str "c1") (mkNode [] [] [] [] None)); [|reflexivity].
  apply (played_choice [mkNode (str "root") [] [] [] None]
           (str "c1") (mkNode [] [] [] [] None)); [|reflexivity].
  apply played_start.
Defined.

Import Game App.

(** ** The application state *)

Lemma findStory_Some id saves story :
  findStory id saves = Some story -> story ∈ saves /\ Saves.id story = id.
Proof.
  unfold findStory. rewrite fmap_Some. intros ([i s] & Hf & ->).
  apply list_find_Some in Hf as (Hi & Hid & _). simpl.
  split; [eapply list_elem_of_lookup_2, Hi|exact Hid].
Qed.

Lemma step_consistent st ev :
  consistent st -> exists st', step st ev = Some st' /\ consistent st'.
Proof.
  destruct st as [gs saves]. intros [Hgs Hsaves]. simpl in Hgs, Hsaves.
  destruct ev as [n|e| |n|e|now today|id|]; cbn [step].
  - eexists. split; [reflexivity|]. split; [reflexivity|exact Hsaves].
  - eexists. split; [reflexivity|]. split; [exact Hgs|exact Hsaves].
  - eexists. split; [reflexivity|]. split; [exact Hgs|exact Hsaves].
  - eexists. split; [reflexivity|]. split; [|exact Hsaves].
    unfold aligned in *. cbn. rewrite Hgs, map_app. reflexivity.
  - eexists. split; [reflexivity|]. split; [exact Hgs|exact Hsaves].
  - eexists. split; [reflexivity|]. split; [exact Hgs|]. cbn [snd].
    unfold handleSaveStory. destruct (storyHistory gs) as [|f rest] eqn:Eh;
      [exact Hsaves|].
    constructor; [|exact Hsaves]. split; [exact Hgs|discriminate].
  - unfold handleLoadStory. destruct (findStory id saves) as [story|] eqn:Ef.
    + apply findStory_Some in Ef as [Hin _].
      rewrite Forall_forall in Hsaves. destruct (Hsaves story Hin) as [Ha Hne].
      destruct (last (Saves.history story)) as [l|] eqn:El.
      * eexists. split; [reflexivity|]. split; [exact Ha|].
        apply Forall_forall. exact Hsaves.
      * apply last_None in El. contradiction.
    + eexists. split; [reflexivity|]. split; [exact Hgs|exact Hsaves].
  - eexists. split; [reflexivity|]. split; [reflexivity|exact Hsaves].
Qed.

(** X22 (stats follow the history): as long as the stats history lists the
    stats of the nodes of the history, in the game state and in every saved
    story, and no saved story has an empty history, every sequence of events
    keeps it so and none of them fails: a start, a choice, a failure, a save, a
    load, a reset.  In particular a load never reads the last node of an empty
    history. *)
Theorem app_stays_consistent (st : GameState * list Saves.SavedStory)
    (evs : list Event) :
  consistent st ->
  exists st', run st evs = Some st' /\ consistent st'.
Proof.
  revert st. induction evs as [|ev evs IH]; intros st Hst; cbn [run].
  - exists st. auto.
  - destruct (step_consistent st ev Hst) as (st1 & -> & Hst1). apply IH, Hst1.
Qed.

Lemma app_stays_consistent_witness :
  exists st',
    run (INITIAL_STATE, [])
        [ StartResolved (aNode "root" "One." [aChoice "c1"]);
          SaveStory (str "17") (str "today");
          ChoiceBegin;
          ChoiceResolved (aNode "root-c1" "Two." []);
          Reset;
          LoadStory (str "17") ] = Some st'
    /\ consistent st'.
Proof.
  apply app_stays_consistent. split; [reflexivity|constructor].
Defined.

Lemma findStory_head story saves :
  findStory (Saves.id story) (story :: saves) = Some story.
Proof.
  unfold findStory. cbn. rewrite decide_True by reflexivity. reflexivity.
Qed.

(** X23 (a saved story loads back): saving a game whose history is not empty
    and loading the id of that save gives a state in the game view with the
    history, the characters, the stats history, the game mode and the genre
    that were saved, whatever the state is at the time of the load and
    whatever was saved before under the same id; the game is over in that
    state exactly when the last node has no choices. *)
Theorem save_then_load (now today : jsstring) (gameState prev : GameState)
    (savedStories : list Saves.SavedStory) :
  storyHistory gameState <> [] ->
  exists loaded lastNode,
    handleLoadStory now (handleSaveStory now today gameState savedStories) prev
    = Some loaded
    /\ currentView loaded = GAME
    /\ storyHistory loaded = storyHistory gameState
    /\ characters loaded = characters gameState
    /\ statsHistory loaded = statsHistory gameState
    /\ gameMode loaded = gameMode gameState
    /\ selectedGenre loaded = selectedGenre gameState
    /\ last (storyHistory gameState) = Some lastNode
    /\ (isGameOver loaded = true <-> nodeChoices (layout lastNode) = []).
Proof.
  intros Hne. unfold handleSaveStory.
  destruct (storyHistory gameState) as [|f rest] eqn:Eh; [congruence|].
  unfold handleLoadStory.
  match goal with
  | |- context [findStory now (?s :: savedStories)] =>
      change (findStory now (s :: savedStories))
        with (findStory (Saves.id s) (s :: savedStories));
      rewrite (findStory_head s savedStories)
  end.
  cbn [Saves.history Saves.gameMode Saves.genre Saves.characters Saves.statsHistory].
  destruct (last (f :: rest)) as [l|] eqn:El; [|apply last_None in El; discriminate].
  eexists _, l. split; [reflexivity|]. cbn.
  repeat (split; [reflexivity|]).
  rewrite Nat.eqb_eq. split; [apply nil_length_inv|intros ->; reflexivity].
Qed.

Lemma save_then_load_witness :
  exists loaded,
    handleLoadStory (str "17")
      (handleSaveStory (str "17") (str "today")
         (handleStartGame_resolved (aNode "root" "One." []) INITIAL_STATE) [])
      INITIAL_STATE = Some loaded
    /\ storyHistory loaded = [aNode "root" "One." []]
    /\ isGameOver loaded = true.
Proof.
  destruct (save_then_load (str "17") (str "today")
              (handleStartGame_resolved (aNode "root" "One." []) INITIAL_STATE)
              INITIAL_STATE []) as (loaded & l & Hl & _ & Hh & _ & _ & _ & _ & Hlast & Hover);
    [discriminate|].
  exists loaded. split; [exact Hl|]. split; [exact Hh|].
  apply Hover. injection Hlast as <-. reflexivity.
Defined.

Lemma handleSaveStory_empty now today gameState savedStories :
  storyHistory gameState = [] ->
  handleSaveStory now today gameState savedStories = savedStories.
Proof. unfold handleSaveStory. intros ->. reflexivity. Qed.

(** ** Ranks *)

Import Stats.




(** ** The loading bar *)

Import QArith Qminmax Qround LoadingBar.
Local Open Scope Q_scope.








